(** * watermill-jetstream: the subscriber and its topic interpreter

    A shallow embedding of [pkg/jetstream/subscriber.go] and of the topic
    interpreter (subjects, [ensureStream], [PublishSubject]).

    Conventions.
    - A Go [error] is a value of [error]; the nil error is [None].
    - Go [int] and [time.Duration] are 64-bit; the code only compares them
      with constants, so they are kept as [Z].
    - Calls that leave the process (broker, logger) are recorded, in program
      order, in a trace of [event]s; their results are supplied by an
      environment.
    - Goroutines started by [Subscribe] are kept in a pool of the world and
      run by an explicit scheduler step. *)

From Stdlib Require Import ZArith String Ascii List Bool Lia.
From stdpp Require Import base option list gmap strings.

Local Open Scope string_scope.
Local Open Scope list_scope.
Local Open Scope Z_scope.

(** ** Errors *)

(** [errors.New], [errors.Wrap] of github.com/pkg/errors, and errors that
    come back from the NATS client. *)
Inductive error : Type :=
| ErrNew (msg : string)
| ErrWrap (cause : error) (msg : string)
| ErrNats (msg : string).

#[global] Instance error_eq_dec : EqDecision error.
Proof. solve_decision. Defined.

(** [errors.Wrap(err, msg)] is nil when [err] is nil. *)
Definition Wrap (err : option error) (msg : string) : option error :=
  match err with
  | None => None
  | Some e => Some (ErrWrap e msg)
  end.

(** nats.go: [ErrStreamNameAlreadyInUse]. *)
Definition ErrStreamNameAlreadyInUse : error :=
  ErrNats "nats: stream name already in use".

(** ** Subjects and their calculators *)

Record Subjects : Type := mkSubjects {
  Primary : string;
  Additional : list string
}.

(** [append([]string{s.Primary}, s.Additional...)] *)
Definition All (s : Subjects) : list string :=
  [Primary s] ++ Additional s.

Definition SubjectCalculator : Type := string -> Subjects.
Definition DurableNameCalculator : Type := string -> string -> string.
Definition QueueGroupCalculator : Type := string -> string -> string.

(** [fmt.Sprintf("%s.*", topic)] *)
Definition defaultSubjectCalculator : SubjectCalculator :=
  fun topic => {| Primary := topic +:+ ".*"; Additional := [] |}.

(** [strings.Replace(s, ".", "_", -1)] *)
Fixpoint replace_dots (s : string) : string :=
  match s with
  | EmptyString => EmptyString
  | String c s' =>
      String (if Ascii.eqb c "."%char then "_"%char else c) (replace_dots s')
  end.

Definition defaultDurableNameCalculator : DurableNameCalculator :=
  fun durableName topic =>
    let topic := replace_dots topic in
    durableName +:+ "_" +:+ topic.

Definition defaultQueueGroupCalculator : QueueGroupCalculator :=
  fun queueGroup topic => queueGroup +:+ "." +:+ topic.

(** [fmt.Sprintf("%s.%s", topic, uuid)] *)
Definition PublishSubject (topic uuid : string) : string :=
  topic +:+ "." +:+ uuid.

(** ** The stream manager of the broker *)

Record StreamConfig : Type := mkStreamConfig {
  Name : string;
  Description : string;
  StreamSubjects : list string
}.

#[global] Instance StreamConfig_eq_dec : EqDecision StreamConfig.
Proof. solve_decision. Defined.

(** The two methods of [nats.JetStreamManager] that the interpreter calls,
    over a broker state [B].  Each returns the broker state after the call
    and either the stream's description or an error. *)
Class JetStreamManager (B : Type) : Type := {
  StreamInfo : B -> string -> B * (StreamConfig + error);
  AddStream : B -> StreamConfig -> B * (StreamConfig + error)
}.

Record topicInterpreter : Type := mkTopicInterpreter {
  subjectCalculator : SubjectCalculator;
  durableNameCalculator : DurableNameCalculator;
  queueGroupCalculator : QueueGroupCalculator
}.

(** [formatter == nil] is [None]. *)
Definition newTopicInterpreter (formatter : option SubjectCalculator)
  : topicInterpreter :=
  let formatter :=
    match formatter with
    | None => defaultSubjectCalculator
    | Some f => f
    end in
  {| subjectCalculator := formatter;
     durableNameCalculator := defaultDurableNameCalculator;
     queueGroupCalculator := defaultQueueGroupCalculator |}.

(** The configuration that [ensureStream] hands to [AddStream]. *)
Definition streamConfigFor (b : topicInterpreter) (topic : string)
  : StreamConfig :=
  {| Name := topic;
     Description := "";
     StreamSubjects := All (subjectCalculator b topic) |}.

Section EnsureStream.
Context {B : Type} `{JetStreamManager B}.

Definition ensureStream (b : topicInterpreter) (topic : string) (js : B)
  : B * option error :=
  match StreamInfo js topic with
  | (js1, inl _) => (js1, None)
  | (js1, inr _) =>
      match AddStream js1 (streamConfigFor b topic) with
      | (js2, inr err) => (js2, Some err)
      | (js2, inl _) => (js2, None)
      end
  end.
End EnsureStream.

(** ** Messages and the unmarshaler *)

(** [nats.Msg]: what the broker delivers. *)
Record Msg : Type := mkMsg {
  MsgSubject : string;
  MsgData : string
}.

#[global] Instance Msg_eq_dec : EqDecision Msg.
Proof. solve_decision. Defined.

(** [message.Message]: what the consumer of the output channel receives. *)
Record Message : Type := mkMessage {
  UUID : string;
  Payload : string
}.

#[global] Instance Message_eq_dec : EqDecision Message.
Proof. solve_decision. Defined.

(** The [Unmarshaler] interface, one method. *)
Record Unmarshaler : Type := mkUnmarshaler {
  Unmarshal : Msg -> Message + error
}.

(** ** Configuration *)

Definition Second : Z := 1000000000.

Module SubscriberSubscriptionConfig.
Record t : Type := mk {
  Unmarshaler : option Unmarshaler;   (* a nil interface is [None] *)
  QueueGroup : string;
  DurableName : string;
  SubscribersCount : Z;
  AckWaitTimeout : Z;
  CloseTimeout : Z;
  SubscribeTimeout : Z
}.
End SubscriberSubscriptionConfig.
Module SSC := SubscriberSubscriptionConfig.

Module SubscriberConfig.
Record t : Type := mk {
  URL : string;
  ClusterID : string;
  ClientID : string;
  QueueGroup : string;
  DurableName : string;
  SubscribersCount : Z;
  CloseTimeout : Z;
  AckWaitTimeout : Z;
  SubscribeTimeout : Z;
  NatsOptions : list string;
  Unmarshaler : option Unmarshaler
}.
End SubscriberConfig.

Definition GetStreamingSubscriberSubscriptionConfig (c : SubscriberConfig.t)
  : SSC.t :=
  {| SSC.Unmarshaler := SubscriberConfig.Unmarshaler c;
     SSC.QueueGroup := SubscriberConfig.QueueGroup c;
     SSC.DurableName := SubscriberConfig.DurableName c;
     SSC.SubscribersCount := SubscriberConfig.SubscribersCount c;
     SSC.AckWaitTimeout := SubscriberConfig.AckWaitTimeout c;
     SSC.CloseTimeout := SubscriberConfig.CloseTimeout c;
     SSC.SubscribeTimeout := SubscriberConfig.SubscribeTimeout c |}.

Definition setDefaults (c : SSC.t) : SSC.t :=
  {| SSC.Unmarshaler := SSC.Unmarshaler c;
     SSC.QueueGroup := SSC.QueueGroup c;
     SSC.DurableName := SSC.DurableName c;
     SSC.SubscribersCount :=
       if SSC.SubscribersCount c <=? 0 then 1 else SSC.SubscribersCount c;
     SSC.AckWaitTimeout :=
       if SSC.AckWaitTimeout c <=? 0 then Second * 30 else SSC.AckWaitTimeout c;
     SSC.CloseTimeout :=
       if SSC.CloseTimeout c <=? 0 then Second * 30 else SSC.CloseTimeout c;
     SSC.SubscribeTimeout :=
       if SSC.SubscribeTimeout c <=? 0 then Second * 30
       else SSC.SubscribeTimeout c |}.

Definition errUnmarshalerMissing : error :=
  ErrNew "SubscriberConfig.Unmarshaler is missing".

Definition errQueueGroupMissing : error :=
  ErrNew ("to set SubscriberConfig.SubscribersCount " +:+
          "you need to also set SubscriberConfig.QueueGroup, " +:+
          "in other case you will receive duplicated messages").

Definition Validate (c : SSC.t) : option error :=
  match SSC.Unmarshaler c with
  | None => Some errUnmarshalerMissing
  | Some _ =>
      if String.eqb (SSC.QueueGroup c) "" && (1 <? SSC.SubscribersCount c)
      then Some errQueueGroupMissing
      else None
  end.

(** The two errors that [Validate] can return: the configuration errors. *)
Definition isConfigError (e : error) : bool :=
  bool_decide (e = errUnmarshalerMissing) ||
  bool_decide (e = errQueueGroupMissing).

(** The [SubscribeTimeout] field replaced, every other field kept. *)
Definition withSubscribeTimeout (t : Z) (c : SSC.t) : SSC.t :=
  {| SSC.Unmarshaler := SSC.Unmarshaler c;
     SSC.QueueGroup := SSC.QueueGroup c;
     SSC.DurableName := SSC.DurableName c;
     SSC.SubscribersCount := SSC.SubscribersCount c;
     SSC.AckWaitTimeout := SSC.AckWaitTimeout c;
     SSC.CloseTimeout := SSC.CloseTimeout c;
     SSC.SubscribeTimeout := t |}.

(** ** Events: the calls that leave the subscriber *)

Inductive LogLevel : Type := LTrace | LDebug | LInfo | LError.

(** [nats.SubOpt] values built by [subscribe]. *)
Inductive SubOpt : Type :=
| Durable (name : string)
| BindStream (stream : string).

(** The arguments of [js.Subscribe] (no queue) or [js.QueueSubscribe]. *)
Record SubRequest : Type := mkSubRequest {
  ReqSubject : string;
  ReqQueue : option string;
  ReqOpts : list SubOpt
}.

Inductive Chan : Type :=
| ChClosing                (* [s.closing] *)
| ChOutput (call : nat).   (* the [output] of the [call]-th Subscribe *)

Inductive event : Type :=
| EvConnect (url : string) (opts : list string)   (* nats.Connect *)
| EvJetStream                                     (* conn.JetStream() *)
| EvSubscribeReq (r : SubRequest)                 (* js.Subscribe / js.QueueSubscribe *)
| EvUnsubscribe (sub : nat)                       (* sub.Unsubscribe() *)
| EvDrain                                         (* conn.Drain() *)
| EvUnmarshal (m : Msg)                           (* Unmarshaler.Unmarshal(m) *)
| EvSend (call : nat) (msg : Message)             (* output <- msg *)
| EvAck (m : Msg)                                 (* m.Ack() *)
| EvNak (m : Msg)                                 (* m.Nak() *)
| EvCloseChan (c : Chan)                          (* close(c) *)
| EvLog (lvl : LogLevel) (text : string) (err : option error).

#[global] Instance LogLevel_eq_dec : EqDecision LogLevel.
Proof. solve_decision. Defined.
#[global] Instance SubOpt_eq_dec : EqDecision SubOpt.
Proof. solve_decision. Defined.
#[global] Instance SubRequest_eq_dec : EqDecision SubRequest.
Proof. solve_decision. Defined.
#[global] Instance Chan_eq_dec : EqDecision Chan.
Proof. solve_decision. Defined.
#[global] Instance event_eq_dec : EqDecision event.
Proof. solve_decision. Defined.

(** A function that panicked has no return value. *)
Inductive result (A : Type) : Type :=
| Ok (a : A)
| Panic (why : string).
Arguments Ok {A} a.
Arguments Panic {A} why.

(** ** The environment

    What the calls that leave the process answer.  Broker subscription
    requests are numbered in the order in which the connection receives
    them, from 0; a request that succeeds yields the subscription handle
    with its own number.  [WaitGroupTimeout] starts a goroutine that waits
    for the counter and then hands a value over to its [select]:
    [wgWaitDelay] is the time, in nanoseconds, from the moment the counter
    is at zero to the moment that value can be received, and
    [wgTimerWinsTie] says which case the [select] picks when that moment is
    the moment the timer fires. *)
Record Env : Type := mkEnv {
  connectResult : option error;               (* nats.Connect *)
  jetStreamResult : option error;             (* conn.JetStream() *)
  subscribeResult : nat -> option error;      (* js.Subscribe / js.QueueSubscribe *)
  unsubscribeResult : nat -> option error;    (* sub.Unsubscribe() *)
  drainResult : option error;                 (* conn.Drain() *)
  ackResult : Msg -> option error;            (* m.Ack() *)
  nakResult : Msg -> option error;            (* m.Nak() *)
  wgWaitDelay : Z;                            (* the goroutine of WaitGroupTimeout *)
  wgTimerWinsTie : bool                       (* its select, on a tie *)
}.

(** ** The subscriber and the world around it *)

(** The mutable fields of [Subscriber] and its configuration.  [conn],
    [logger] and [js] are handles; calls on them are [event]s. *)
Record Subscriber : Type := mkSubscriber {
  config : SSC.t;
  closed : bool;
  closing : bool;        (* [true] once [close(s.closing)] has run *)
  outputsWg : Z          (* counter of the wait group *)
}.

(** The locals of one call of [Subscribe] that its goroutines share. *)
Record Subscription : Type := mkSubscription {
  outputWg : Z;          (* counter of the call's own wait group *)
  outputClosed : bool    (* [true] once [close(output)] has run *)
}.

(** The goroutines that [Subscribe] starts: one [monitor] per worker, and
    one [finisher] per call that completes. *)
Inductive goroutine : Type :=
| monitor (call : nat) (sub : nat) (ctx : nat)
| finisher (call : nat).

Record World : Type := mkWorld {
  subscriber : Subscriber;
  calls : list Subscription;     (* indexed by the number of the call *)
  pool : list goroutine;         (* goroutines that have not finished *)
  requests : nat;                (* broker subscription requests so far *)
  cancelled : gset nat           (* contexts whose [Done()] is closed *)
}.

Definition setSubscriber (f : Subscriber -> Subscriber) (w : World) : World :=
  {| subscriber := f (subscriber w); calls := calls w; pool := pool w;
     requests := requests w; cancelled := cancelled w |}.

Definition setCalls (f : list Subscription -> list Subscription) (w : World)
  : World :=
  {| subscriber := subscriber w; calls := f (calls w); pool := pool w;
     requests := requests w; cancelled := cancelled w |}.

Definition setPool (f : list goroutine -> list goroutine) (w : World) : World :=
  {| subscriber := subscriber w; calls := calls w; pool := f (pool w);
     requests := requests w; cancelled := cancelled w |}.

Definition nextRequest (w : World) : World :=
  {| subscriber := subscriber w; calls := calls w; pool := pool w;
     requests := S (requests w); cancelled := cancelled w |}.

(** [ctx]'s cancel function is called. *)
Definition cancel (ctx : nat) (w : World) : World :=
  {| subscriber := subscriber w; calls := calls w; pool := pool w;
     requests := requests w; cancelled := {[ctx]} ∪ cancelled w |}.

Definition setConfig (f : SSC.t -> SSC.t) (s : Subscriber) : Subscriber :=
  {| config := f (config s); closed := closed s; closing := closing s;
     outputsWg := outputsWg s |}.

Definition setClosed (b : bool) (s : Subscriber) : Subscriber :=
  {| config := config s; closed := b; closing := closing s;
     outputsWg := outputsWg s |}.

Definition setClosing (b : bool) (s : Subscriber) : Subscriber :=
  {| config := config s; closed := closed s; closing := b;
     outputsWg := outputsWg s |}.

(** [s.outputsWg.Add(n)]; [Done()] is [Add(-1)]. *)
Definition outputsWgAdd (n : Z) (s : Subscriber) : Subscriber :=
  {| config := config s; closed := closed s; closing := closing s;
     outputsWg := outputsWg s + n |}.

(** [outputWg.Add(n)] on the wait group of one call. *)
Definition outputWgAdd (n : Z) (c : Subscription) : Subscription :=
  {| outputWg := outputWg c + n; outputClosed := outputClosed c |}.

Definition closeOutput (c : Subscription) : Subscription :=
  {| outputWg := outputWg c; outputClosed := true |}.

Definition onCall (call : nat) (f : Subscription -> Subscription)
  : World -> World :=
  setCalls (fun cs =>
    match cs !! call with
    | Some c => <[call := f c]> cs
    | None => cs
    end).

(** ** State and trace

    A computation reads and updates the world and emits events. *)
Definition M (A : Type) : Type := World -> A * World * list event.

Definition ret {A : Type} (a : A) : M A := fun w => (a, w, []).

Definition bind {A B : Type} (m : M A) (k : A -> M B) : M B :=
  fun w =>
    let '(a, w1, t1) := m w in
    let '(b, w2, t2) := k a w1 in
    (b, w2, t1 ++ t2).

Definition emit (e : event) : M unit := fun w => (tt, w, [e]).
Definition emitAll (es : list event) : M unit := fun w => (tt, w, es).
Definition get : M World := fun w => (w, w, []).
Definition modify (f : World -> World) : M unit := fun w => (tt, f w, []).

Notation "x <- m ;; k" := (bind m (fun x => k))
  (at level 100, m at next level, right associativity).
Notation "m ;;; k" := (bind m (fun _ => k))
  (at level 100, right associativity).

Definition valueOf {A : Type} (r : A * World * list event) : A := r.1.1.
Definition worldOf {A : Type} (r : A * World * list event) : World := r.1.2.
Definition traceOf {A : Type} (r : A * World * list event) : list event := r.2.

(** [s.logger.Trace/Debug/Info/Error(text, err, fields)]; the fields are
    not kept. *)
Definition log (lvl : LogLevel) (text : string) (err : option error) : M unit :=
  emit (EvLog lvl text err).

(** ** Construction *)

Definition NewSubscriberWithNatsConn (env : Env) (config : SSC.t)
  : (option Subscriber * option error) * list event :=
  let config := setDefaults config in
  match Validate config with
  | Some err => ((None, Some err), [])
  | None =>
      match jetStreamResult env with
      | Some err => ((None, Some err), [EvJetStream])
      | None =>
          ((Some {| config := config; closed := false; closing := false;
                    outputsWg := 0 |}, None), [EvJetStream])
      end
  end.

Definition NewSubscriber (env : Env) (config : SubscriberConfig.t)
  : (option Subscriber * option error) * list event :=
  let connect :=
    EvConnect (SubscriberConfig.URL config) (SubscriberConfig.NatsOptions config) in
  match connectResult env with
  | Some err => ((None, Some (ErrWrap err "cannot connect to NATS")), [connect])
  | None =>
      let '(r, t) :=
        NewSubscriberWithNatsConn env
          (GetStreamingSubscriberSubscriptionConfig config) in
      (r, connect :: t)
  end.

(** The world of a subscriber that has just been constructed. *)
Definition newWorld (s : Subscriber) : World :=
  {| subscriber := s; calls := []; pool := []; requests := 0%nat;
     cancelled := ∅ |}.

(** ** subscribe *)

(** The request that [subscribe] sends: the subject, the queue group when
    one is configured, and the single option chosen by [DurableName]. *)
Definition subscribeRequest (cfg : SSC.t) (topic : string) : SubRequest :=
  let subTopic := topic +:+ ".*" in
  let opts : list SubOpt := [] in
  let opts :=
    if negb (String.eqb (SSC.DurableName cfg) "")
    then opts ++ [Durable (SSC.DurableName cfg)]
    else opts ++ [BindStream subTopic] in
  if negb (String.eqb (SSC.QueueGroup cfg) "")
  then {| ReqSubject := subTopic; ReqQueue := Some (SSC.QueueGroup cfg);
          ReqOpts := opts |}
  else {| ReqSubject := subTopic; ReqQueue := None; ReqOpts := opts |}.

(** The callback is not part of the request: deliveries to it are the
    calls of [processMessage] below. *)
Definition subscribe (env : Env) (topic : string) : M (nat + error) :=
  w <- get;;
  emit (EvSubscribeReq (subscribeRequest (config (subscriber w)) topic));;;
  modify nextRequest;;;
  match subscribeResult env (requests w) with
  | Some err => ret (inr err)
  | None => ret (inl (requests w))
  end.

(** ** Subscribe *)

(** The body of the [for] loop, [n] iterations left. *)
Fixpoint startSubscribers (env : Env) (ctx : nat) (topic : string)
    (call : nat) (n : nat) : M (option error) :=
  match n with
  | O => ret None
  | S n' =>
      modify (onCall call (outputWgAdd 1));;;
      log LDebug "Starting subscriber" None;;;
      r <- subscribe env topic;;
      match r with
      | inr err => ret (Some (ErrWrap err "cannot subscribe"))
      | inl sub =>
          modify (setPool (fun p => p ++ [monitor call sub ctx]));;;
          startSubscribers env ctx topic call n'
      end
  end.

(** The result is the output channel, named by the number of the call, and
    the error. *)
Definition Subscribe (env : Env) (ctx : nat) (topic : string)
  : M (option nat * option error) :=
  w <- get;;
  let call := length (calls w) in
  modify (setCalls (fun cs =>
    cs ++ [{| outputWg := 0; outputClosed := false |}]));;;
  modify (setSubscriber (outputsWgAdd 1));;;
  r <- startSubscribers env ctx topic call
         (Z.to_nat (SSC.SubscribersCount (config (subscriber w))));;
  match r with
  | Some err => ret (None, Some err)
  | None =>
      modify (setPool (fun p => p ++ [finisher call]));;;
      ret (Some call, None)
  end.

(** ** The goroutines

    Each goroutine blocks once, at its start; when it is unblocked it runs
    to its end.  The result says whether it ran. *)
Definition runMonitor (env : Env) (call sub ctx : nat) : M bool :=
  w <- get;;
  if closing (subscriber w) || bool_decide (ctx ∈ cancelled w) then
    emit (EvUnsubscribe sub);;;
    match unsubscribeResult env sub with
    | Some err => log LError "Cannot unsubscribe" (Some err)
    | None => ret tt
    end;;;
    modify (onCall call (outputWgAdd (-1)));;;
    ret true
  else ret false.

Definition runFinisher (call : nat) : M bool :=
  w <- get;;
  match calls w !! call with
  | Some c =>
      if outputWg c =? 0 then
        modify (onCall call closeOutput);;;
        emit (EvCloseChan (ChOutput call));;;
        modify (setSubscriber (outputsWgAdd (-1)));;;
        ret true
      else ret false
  | None => ret false
  end.

(** The scheduler gives the [i]-th goroutine of the pool a turn. *)
Definition runGoroutine (env : Env) (i : nat) : M unit :=
  w <- get;;
  match pool w !! i with
  | None => ret tt
  | Some g =>
      ran <- match g with
             | monitor call sub ctx => runMonitor env call sub ctx
             | finisher call => runFinisher call
             end;;
      if ran then modify (setPool (delete i)) else ret tt
  end.

Fixpoint run (env : Env) (sched : list nat) : M unit :=
  match sched with
  | [] => ret tt
  | i :: rest => runGoroutine env i;;; run env rest
  end.

(** ** Close *)

(** The turns of [sched] that come before [limit], in order. *)
Fixpoint runUntil (env : Env) (limit : Z) (sched : list (Z * nat)) : M unit :=
  match sched with
  | [] => ret tt
  | (at_, i) :: rest =>
      if limit <=? at_ then ret tt
      else (runGoroutine env i;;; runUntil env limit rest)
  end.

(** [internalSync.WaitGroupTimeout(&s.outputsWg, timeout)] of watermill:
    a goroutine calls [wg.Wait()] and then sends on a channel, and the
    caller selects between that channel and [time.After(timeout)]; the
    result is [true] when the timer won.
    [sched] is the turns that the goroutines of the pool get while [Close]
    waits, each with the time at which it comes, counted in nanoseconds
    from the start of the wait, in order; [now] is the time of the last
    turn taken, 0 at the start.  Once the counter is at zero the value of
    the waiting goroutine is there [wgWaitDelay] later: the wait returns
    [false] if that is before the timer fires, and [true] at [timeout]
    otherwise; until it returns, the goroutines keep getting their turns.
    While the counter is not at zero, the timer fires before a turn that
    comes at [timeout] or later. *)
Fixpoint WaitGroupTimeout (env : Env) (timeout : Z) (now : Z)
    (sched : list (Z * nat)) : M bool :=
  w <- get;;
  if outputsWg (subscriber w) =? 0 then
    let ready := now + wgWaitDelay env in
    if (ready <? timeout) || ((ready =? timeout) && negb (wgTimerWinsTie env))
    then (runUntil env ready sched;;; ret false)
    else (runUntil env timeout sched;;; ret true)
  else
    match sched with
    | [] => ret true
    | (at_, i) :: rest =>
        if timeout <=? at_ then ret true
        else (runGoroutine env i;;; WaitGroupTimeout env timeout at_ rest)
    end.

Definition errOutputWaitGroup : error :=
  ErrNew "output wait group did not finish".

Definition Close (env : Env) (sched : list (Z * nat))
  : M (result (option error)) :=
  w <- get;;
  if closed (subscriber w) then ret (Ok None)
  else
    modify (setSubscriber (setClosed true));;;
    log LDebug "Closing subscriber" None;;;
    if closing (subscriber w) then
      log LInfo "Subscriber closed" None;;;
      ret (Panic "close of closed channel")
    else
      modify (setSubscriber (setClosing true));;;
      emit (EvCloseChan ChClosing);;;
      timedOut <- WaitGroupTimeout env
                    (SSC.CloseTimeout (config (subscriber w))) 0 sched;;
      if (timedOut : bool) then
        log LInfo "Subscriber closed" None;;;
        ret (Ok (Some errOutputWaitGroup))
      else
        emit EvDrain;;;
        match drainResult env with
        | Some err =>
            log LInfo "Subscriber closed" None;;;
            ret (Ok (Some (ErrWrap err "cannot close conn")))
        | None =>
            log LInfo "Subscriber closed" None;;;
            ret (Ok None)
        end.

Definition isClosed : M bool :=
  w <- get;;
  ret (closed (subscriber w)).

(** ** processMessage *)

(** Which case of the first [select] fires. *)
Inductive ForwardSelect : Type :=
| FwdSent          (* output <- msg *)
| FwdClosing       (* <-s.closing *)
| FwdCtxDone.      (* <-ctx.Done() *)

(** Which case of the second [select] fires; [time.After] makes one of
    them fire. *)
Inductive AckSelect : Type :=
| SelAcked         (* <-msg.Acked() *)
| SelNacked        (* <-msg.Nacked() *)
| SelTimeout       (* <-time.After(s.config.AckWaitTimeout) *)
| SelClosing       (* <-s.closing *)
| SelCtxDone.      (* <-ctx.Done() *)

(** The signals that the second [select] waits for next to its timer. *)
Inductive Signal : Type :=
| SigAcked | SigNacked | SigClosing | SigCtxDone.

(** What happens while [processMessage] waits: the first signal to arrive
    and the time it takes, in nanoseconds from the start of the wait, if
    one arrives at all; and which of the two ready cases [select] picks
    should the signal arrive together with the timer. *)
Record Wait : Type := mkWait {
  arrival : option (Signal * Z);
  timerWinsTie : bool
}.

Definition caseOfSignal (sig : Signal) : AckSelect :=
  match sig with
  | SigAcked => SelAcked
  | SigNacked => SelNacked
  | SigClosing => SelClosing
  | SigCtxDone => SelCtxDone
  end.

(** The case that runs, with the timer set to [timeout]. *)
Definition selectAck (timeout : Z) (wt : Wait) : AckSelect :=
  match arrival wt with
  | None => SelTimeout
  | Some (sig, d) =>
      if (d <? timeout) || ((d =? timeout) && negb (timerWinsTie wt))
      then caseOfSignal sig
      else SelTimeout
  end.

Definition awaitAck (env : Env) (m : Msg) (sel : AckSelect) : M (result unit) :=
  match sel with
  | SelAcked =>
      emit (EvAck m);;;
      match ackResult env m with
      | Some err => log LError "Cannot send ack" (Some err);;; ret (Ok tt)
      | None => log LTrace "Message Acked" None;;; ret (Ok tt)
      end
  | SelNacked =>
      emit (EvNak m);;;
      match nakResult env m with
      | Some err => log LError "Cannot send nak" (Some err);;; ret (Ok tt)
      | None => log LTrace "Message Nacked" None;;; ret (Ok tt)
      end
  | SelTimeout => log LTrace "Ack timeout" None;;; ret (Ok tt)
  | SelClosing =>
      log LTrace "Closing, message discarded before ack" None;;; ret (Ok tt)
  | SelCtxDone =>
      log LTrace "Context cancelled, message discarded before ack" None;;;
      ret (Ok tt)
  end.

(** Whether the output channel of the [call]-th Subscribe is there and
    not closed. *)
Definition outputOpen (w : World) (call : nat) : bool :=
  match calls w !! call with
  | Some c => negb (outputClosed c)
  | None => false
  end.

(** [output] is the channel of the [call]-th Subscribe; [processMessage]
    is the callback of a subscription of that call.  When the send case of
    the first [select] is the one that runs, the send panics if the channel
    has been closed: nothing in [processMessage] looks at the channel
    before.  The derived context is cancelled only by the deferred
    [cancelCtx]; until then it is done exactly when [ctx] is. *)
Definition processMessage (env : Env) (m : Msg) (call : nat)
    (fwd : ForwardSelect) (wt : Wait) : M (result unit) :=
  isClosed <- isClosed;;
  if (isClosed : bool) then ret (Ok tt)
  else
    log LTrace "Received message" None;;;
    w <- get;;
    match SSC.Unmarshaler (config (subscriber w)) with
    | None => ret (Panic "nil pointer dereference")
    | Some u =>
        emit (EvUnmarshal m);;;
        match Unmarshal u m with
        | inr err =>
            log LError "Cannot unmarshal message" (Some err);;; ret (Ok tt)
        | inl msg =>
            log LTrace "Unmarshaled message" None;;;
            match fwd with
            | FwdSent =>
                if outputOpen w call then
                  emit (EvSend call msg);;;
                  log LTrace "Message sent to consumer" None;;;
                  awaitAck env m
                    (selectAck (SSC.AckWaitTimeout (config (subscriber w)))
                       wt)
                else ret (Panic "send on closed channel")
            | FwdClosing =>
                log LTrace "Closing, message discarded" None;;; ret (Ok tt)
            | FwdCtxDone =>
                log LTrace "Context cancelled, message discarded" None;;;
                ret (Ok tt)
            end
        end
    end.

(** ** SubscribeInitialize *)

(** The callback of the throwaway subscription, for each message that the
    client hands to it, one after the other. *)
Fixpoint nakDelivered (env : Env) (delivered : list Msg) : M unit :=
  match delivered with
  | [] => ret tt
  | m :: rest =>
      log LTrace "message received in subscribe initialize will nak" None;;;
      emit (EvNak m);;;
      match nakResult env m with
      | Some err => log LError "error naking message received on init" (Some err)
      | None => ret tt
      end;;;
      nakDelivered env rest
  end.

(** [initStream] is not in this file of the repository: it is a parameter,
    given the topic and answering with the calls it makes and its error.
    The client runs the callback in a goroutine of its own, beside
    [SubscribeInitialize], which calls [Unsubscribe] without waiting for
    it: [delivered] is the messages that the client hands to the callback
    and [early] is how many of the callback's events come before the call
    of [Unsubscribe]; the others come after it. *)
Definition SubscribeInitialize (env : Env)
    (initStream : string -> list event * option error)
    (topic : string) (delivered : list Msg) (early : nat)
  : M (option error) :=
  let '(t, err) := initStream topic in
  emitAll t;;;
  match err with
  | Some e => ret (Some (ErrWrap e "cannot initialize subscribe"))
  | None =>
      r <- subscribe env topic;;
      match r with
      | inr e => ret (Some (ErrWrap e "cannot initialize subscribe"))
      | inl sub =>
          w <- get;;
          let callback := traceOf (nakDelivered env delivered w) in
          emitAll (take early callback);;;
          emit (EvUnsubscribe sub);;;
          emitAll (drop early callback);;;
          ret (Wrap (unsubscribeResult env sub)
                 "cannot close after subscribe initialize")
      end
  end.

(** The case of the second [select] that a wait leads to, under the
    subscriber's AckWaitTimeout. *)
Definition ackCase (w : World) (wt : Wait) : AckSelect :=
  selectAck (SSC.AckWaitTimeout (config (subscriber w))) wt.

(** The consumer acks one second into the wait; it acks after forty. *)
Definition ackedInTime : Wait :=
  {| arrival := Some (SigAcked, Second); timerWinsTie := false |}.

Definition ackedLate : Wait :=
  {| arrival := Some (SigAcked, Second * 40); timerWinsTie := false |}.

(** ** Reading traces *)

(** The calls that acknowledge a delivery at the broker. *)
Definition isBrokerCall (e : event) : bool :=
  match e with
  | EvAck _ | EvNak _ => true
  | _ => false
  end.

Definition brokerCalls (t : list event) : list event :=
  List.filter isBrokerCall t.

Definition isSend (e : event) : bool :=
  match e with
  | EvSend _ _ => true
  | _ => false
  end.

Definition sends (t : list event) : list event := List.filter isSend t.

(** How the wait for the consumer ended, read from the branch of the second
    [select] that ran: the broker call it makes, or the line it logs. *)
Inductive Outcome : Type :=
| Acked | Nacked | TimedOut | Discarded.

Definition outcomeOfEvent (e : event) : option Outcome :=
  match e with
  | EvAck _ => Some Acked
  | EvNak _ => Some Nacked
  | EvLog LTrace text None =>
      if String.eqb text "Ack timeout" then Some TimedOut
      else if String.eqb text "Closing, message discarded before ack"
      then Some Discarded
      else if String.eqb text "Context cancelled, message discarded before ack"
      then Some Discarded
      else None
  | _ => None
  end.

Definition outcomes (t : list event) : list Outcome :=
  omap outcomeOfEvent t.

Definition outcomeOfSelect (sel : AckSelect) : Outcome :=
  match sel with
  | SelAcked => Acked
  | SelNacked => Nacked
  | SelTimeout => TimedOut
  | SelClosing | SelCtxDone => Discarded
  end.

(** ** Accounting of the wait group of [Close] *)

Definition isFinisher (g : goroutine) : bool :=
  match g with
  | finisher _ => true
  | monitor _ _ _ => false
  end.

(** The goroutines that will call [s.outputsWg.Done()]. *)
Definition finishers (p : list goroutine) : Z :=
  Z.of_nat (length (List.filter isFinisher p)).

(** The part of the counter that no goroutine is left to take back. *)
Definition surplus (w : World) : Z :=
  outputsWg (subscriber w) - finishers (pool w).

(** [Close] again, once for each schedule of the list. *)
Fixpoint CloseAgain (env : Env) (scheds : list (list (Z * nat)))
  : M (list (result (option error))) :=
  match scheds with
  | [] => ret []
  | sched :: rest =>
      r <- Close env sched;;
      rs <- CloseAgain env rest;;
      ret (r :: rs)
  end.

(** The closed flag and the closing channel go together. *)
Definition closedIffClosing (w : World) : Prop :=
  closed (subscriber w) = closing (subscriber w).

(** ** SubscribeTimeout *)

Definition withSubscribeTimeoutW (t : Z) : World -> World :=
  setSubscriber (setConfig (withSubscribeTimeout t)).

Definition onWorld {A : Type} (f : World -> World)
    (r : A * World * list event) : A * World * list event :=
  (valueOf r, f (worldOf r), traceOf r).

(** ** Subjects as segments

    The broker routes by subject, token by token: the tokens of a subject
    are what the dots separate; a subject is routed only if none of its
    tokens is empty or holds white space; the token [*] of a subscription
    stands for exactly one token of a subject, and [>], which must be the
    last token of a subscription, for one token or more. *)
Fixpoint segments (s : string) : list string :=
  match s with
  | EmptyString => [EmptyString]
  | String c s' =>
      if Ascii.eqb c "."%char then EmptyString :: segments s'
      else match segments s' with
           | [] => [String c EmptyString]
           | t :: ts => String c t :: ts
           end
  end.

(** Space, tab, line feed, form feed, carriage return. *)
Definition isSpace (c : ascii) : bool :=
  let n := nat_of_ascii c in
  Nat.eqb n 32 || Nat.eqb n 9 || Nat.eqb n 10 || Nat.eqb n 12 || Nat.eqb n 13.

Fixpoint hasSpace (s : string) : bool :=
  match s with
  | EmptyString => false
  | String c s' => isSpace c || hasSpace s'
  end.

Definition validToken (t : string) : bool :=
  negb (String.eqb t "") && negb (hasSpace t).

(** A token that is not a wildcard. *)
Definition literalToken (t : string) : bool :=
  validToken t && negb (String.eqb t "*") && negb (String.eqb t ">").

(** A subject to publish on, as a topic is: every token is literal. *)
Definition literalSubject (s : string) : bool :=
  forallb literalToken (segments s).

Fixpoint matchSegments (pattern subject : list string) : bool :=
  match pattern, subject with
  | [], [] => true
  | p :: ps, t :: ts =>
      if String.eqb p ">" then
        match ps with
        | [] => true
        | _ :: _ => false
        end
      else (String.eqb p "*" || String.eqb p t) && matchSegments ps ts
  | _, _ => false
  end.

Definition subjectMatches (pattern subject : string) : bool :=
  forallb validToken (segments subject) &&
  matchSegments (segments pattern) (segments subject).

Fixpoint hasDot (s : string) : bool :=
  match s with
  | EmptyString => false
  | String c s' => Ascii.eqb c "."%char || hasDot s'
  end.

(** ** Construction, as the claim on validation reads it *)

(** The configuration errors of [Validate] and nothing sent to the broker. *)
Definition rejectedBeforeBroker
    (r : (option Subscriber * option error) * list event) : Prop :=
  ∃ e, r.1.2 = Some e ∧ isConfigError e = true ∧ r.2 = [].

Definition invalidConfig (c : SSC.t) : Prop :=
  SSC.Unmarshaler c = None ∨
  (1 < SSC.SubscribersCount (setDefaults c) ∧ SSC.QueueGroup c = "").

(** ** Brokers for the examples

    [MemBroker]: streams by name.  Adding a stream whose name is taken by a
    different configuration fails with [ErrStreamNameAlreadyInUse]. *)
Record MemBroker : Type := mkMemBroker {
  streams : gmap string StreamConfig
}.

#[global] Instance MemBroker_manager : JetStreamManager MemBroker := {|
  StreamInfo := fun b name =>
    match streams b !! name with
    | Some c => (b, inl c)
    | None => (b, inr (ErrNats "nats: stream not found"))
    end;
  AddStream := fun b cfg =>
    match streams b !! Name cfg with
    | Some c =>
        if decide (c = cfg) then (b, inl c)
        else (b, inr ErrStreamNameAlreadyInUse)
    | None => ({| streams := <[Name cfg := cfg]> (streams b) |}, inl cfg)
    end
|}.

(** [FlakyBroker]: a [MemBroker] whose info lookups time out while
    [infoDown] is set. *)
Record FlakyBroker : Type := mkFlakyBroker {
  inner : MemBroker;
  infoDown : bool
}.

#[global] Instance FlakyBroker_manager : JetStreamManager FlakyBroker := {|
  StreamInfo := fun b name =>
    if infoDown b then (b, inr (ErrNats "nats: timeout"))
    else let '(m, r) := StreamInfo (inner b) name in
         ({| inner := m; infoDown := infoDown b |}, r);
  AddStream := fun b cfg =>
    let '(m, r) := AddStream (inner b) cfg in
    ({| inner := m; infoDown := infoDown b |}, r)
|}.

(** The stream ["orders"] exists with other subjects, and info lookups time
    out. *)
Definition takenBroker : FlakyBroker :=
  {| inner :=
       {| streams :=
            {[ "orders" := {| Name := "orders"; Description := "";
                              StreamSubjects := ["orders.>"] |} ]} |};
     infoDown := true |}.

Definition emptyBroker : MemBroker := {| streams := ∅ |}.

(** ** Inputs of the examples *)

Definition okEnv : Env :=
  {| connectResult := None; jetStreamResult := None;
     subscribeResult := fun _ => None; unsubscribeResult := fun _ => None;
     drainResult := None; ackResult := fun _ => None;
     nakResult := fun _ => None;
     wgWaitDelay := 1000; wgTimerWinsTie := false |}.

(** The broker refuses the second subscription request. *)
Definition secondFailsEnv : Env :=
  {| connectResult := None; jetStreamResult := None;
     subscribeResult := fun n =>
       if Nat.eqb n 1 then Some (ErrNats "nats: timeout") else None;
     unsubscribeResult := fun _ => None;
     drainResult := None; ackResult := fun _ => None;
     nakResult := fun _ => None;
     wgWaitDelay := 1000; wgTimerWinsTie := false |}.

(** An unmarshaler that takes the subject for the UUID and refuses an
    empty payload. *)
Definition testUnmarshaler : Unmarshaler :=
  {| Unmarshal := fun m =>
       if String.eqb (MsgData m) ""
       then inr (ErrNew "empty payload")
       else inl {| UUID := MsgSubject m; Payload := MsgData m |} |}.

(** As [oneWorker] below, with both timeouts at 60 s. *)
Definition patientWorker : SSC.t :=
  {| SSC.Unmarshaler := Some testUnmarshaler; SSC.QueueGroup := "";
     SSC.DurableName := ""; SSC.SubscribersCount := 1;
     SSC.AckWaitTimeout := Second * 60; SSC.CloseTimeout := Second * 60;
     SSC.SubscribeTimeout := 0 |}.

Definition oneWorker : SSC.t :=
  {| SSC.Unmarshaler := Some testUnmarshaler; SSC.QueueGroup := "";
     SSC.DurableName := ""; SSC.SubscribersCount := 1;
     SSC.AckWaitTimeout := 0; SSC.CloseTimeout := 0;
     SSC.SubscribeTimeout := 0 |}.

Definition twoWorkers : SSC.t :=
  {| SSC.Unmarshaler := Some testUnmarshaler; SSC.QueueGroup := "g";
     SSC.DurableName := ""; SSC.SubscribersCount := 2;
     SSC.AckWaitTimeout := 0; SSC.CloseTimeout := 0;
     SSC.SubscribeTimeout := 0 |}.

Definition noUnmarshaler : SubscriberConfig.t :=
  {| SubscriberConfig.URL := "nats://localhost:4222";
     SubscriberConfig.ClusterID := ""; SubscriberConfig.ClientID := "";
     SubscriberConfig.QueueGroup := ""; SubscriberConfig.DurableName := "";
     SubscriberConfig.SubscribersCount := 1;
     SubscriberConfig.CloseTimeout := 0;
     SubscriberConfig.AckWaitTimeout := 0;
     SubscriberConfig.SubscribeTimeout := 0;
     SubscriberConfig.NatsOptions := [];
     SubscriberConfig.Unmarshaler := None |}.

(** The subscriber that [NewSubscriberWithNatsConn] builds from [c]. *)
Definition subscriberOf (c : SSC.t) : Subscriber :=
  {| config := setDefaults c; closed := false; closing := false;
     outputsWg := 0 |}.

Definition order : Msg :=
  {| MsgSubject := "orders.abc123"; MsgData := "payload" |}.

Definition emptyOrder : Msg :=
  {| MsgSubject := "orders.abc123"; MsgData := "" |}.

(** The events that the goroutines of [Subscribe] emit. *)
Definition byGoroutine (e : event) : bool :=
  match e with
  | EvUnsubscribe _ | EvLog LError _ _ | EvCloseChan (ChOutput _) => true
  | _ => false
  end.

(** What the goroutines leave alone: the configuration and the two closing
    fields of the subscriber, the request counter and the contexts. *)
Definition sameSubscriber (w w' : World) : Prop :=
  config (subscriber w') = config (subscriber w) ∧
  closed (subscriber w') = closed (subscriber w) ∧
  closing (subscriber w') = closing (subscriber w).

(** The world in which [Close] starts to wait: the flag is set and the
    closing channel is closed. *)
Definition closingWorld (w : World) : World :=
  setSubscriber (setClosing true) (setSubscriber (setClosed true) w).

(** The wait of [Close], under the subscriber's CloseTimeout. *)
Definition closeWait (env : Env) (sched : list (Z * nat)) (w : World)
  : bool * World * list event :=
  WaitGroupTimeout env (SSC.CloseTimeout (config (subscriber w))) 0 sched
    (closingWorld w).

(** The first two goroutines of the pool get a turn each, one and two
    seconds into the wait; or 31 and 32 seconds into it. *)
Definition promptTurns : list (Z * nat) :=
  [(Second, 0%nat); (Second * 2, 0%nat)].

Definition lateTurns : list (Z * nat) :=
  [(Second * 31, 0%nat); (Second * 32, 0%nat)].

(** One worker, subscribed. *)
Definition subscribedWorld : World :=
  worldOf (Subscribe okEnv 7 "orders" (newWorld (subscriberOf oneWorker))).

(** Two workers asked for; the broker refused the second. *)
Definition halfSubscribed : option nat * option error * World * list event :=
  Subscribe secondFailsEnv 7 "orders" (newWorld (subscriberOf twoWorkers)).

(** A computation does not look at what [T] changes in the world: from a
    changed world it returns the same value, emits the same events, and
    ends in the world it would have ended in, changed. *)
Definition oblivious {A : Type} (T : World -> World) (m : M A) : Prop :=
  ∀ w, m (T w) = onWorld T (m w).

(** ** Reading the trace of SubscribeInitialize *)

(** What the callback of the throwaway subscription emits. *)
Definition isNakOrLog (e : event) : bool :=
  match e with
  | EvNak _ | EvLog _ _ _ => true
  | _ => false
  end.


(** ** Reading the world after Subscribe *)

(** The monitors that a call starts for [n] subscriptions in a row, the
    first of them with the handle [first]. *)
Definition monitorsFrom (call first ctx n : nat) : list goroutine :=
  map (fun i => monitor call (first + i) ctx) (seq 0 n).

(** What one iteration of the loop of [Subscribe] emits when the broker
    accepts the subscription. *)
Definition startEvents (cfg : SSC.t) (topic : string) : list event :=
  [EvLog LDebug "Starting subscriber" None;
   EvSubscribeReq (subscribeRequest cfg topic)].

(** ** The calls of Subscribe and their goroutines *)

#[global] Instance goroutine_eq_dec : EqDecision goroutine.
Proof. solve_decision. Defined.

Definition callOf (g : goroutine) : nat :=
  match g with
  | monitor call _ _ => call
  | finisher call => call
  end.

Definition isMonitorOf (call : nat) (g : goroutine) : bool :=
  match g with
  | monitor c _ _ => Nat.eqb c call
  | finisher _ => false
  end.

Definition isFinisherOf (call : nat) (g : goroutine) : bool :=
  match g with
  | finisher c => Nat.eqb c call
  | monitor _ _ _ => false
  end.

Definition count (f : goroutine -> bool) (p : list goroutine) : Z :=
  Z.of_nat (length (List.filter f p)).

(** Where a call of [Subscribe] stands: its workers are subscribed and its
    finisher waits for them; or the finisher has closed the output channel;
    or [Subscribe] returned an error and started no finisher. *)
Inductive CallState : Type :=
| Serving | Finished | Abandoned.

(** The wait group and the channel of the call, against the goroutines of
    the call that are in the pool. *)
Definition callIn (p : list goroutine) (call : nat) (c : Subscription)
    (st : CallState) : Prop :=
  match st with
  | Serving =>
      count (isFinisherOf call) p = 1 ∧ outputClosed c = false ∧
      outputWg c = count (isMonitorOf call) p
  | Finished =>
      count (isFinisherOf call) p = 0 ∧ outputClosed c = true ∧
      outputWg c = 0 ∧ count (isMonitorOf call) p = 0
  | Abandoned =>
      count (isFinisherOf call) p = 0 ∧ outputClosed c = false ∧
      outputWg c = count (isMonitorOf call) p + 1
  end.

(** One for an error, zero for none. *)
Definition oneIfError (err : option error) : Z :=
  match err with
  | Some _ => 1
  | None => 0
  end.

(** [strict] leaves out the calls that failed. *)
Definition allowed (strict : bool) (st : CallState) : bool :=
  match st with
  | Abandoned => negb strict
  | Serving | Finished => true
  end.

Definition inRange (w : World) : Prop :=
  Forall (fun g => (callOf g < length (calls w))%nat) (pool w).

Definition callsOk (strict : bool) (w : World) : Prop :=
  ∀ call c, calls w !! call = Some c →
    ∃ st, allowed strict st = true ∧ callIn (pool w) call c st.

(** Every goroutine belongs to a call, every call is in one of the three
    states, and the wait group of [Close] counts at least the finishers. *)
Definition consistent (w : World) : Prop :=
  inRange w ∧ callsOk false w ∧ 0 <= surplus w.

(** As [consistent], with no failed call and nothing in the wait group of
    [Close] but the finishers. *)
Definition healthy (w : World) : Prop :=
  inRange w ∧ callsOk true w ∧ surplus w = 0.

(** One operation on the subscriber, a turn of a goroutine, or the
    cancellation of a context. *)
Inductive step (w : World) : World -> Prop :=
| step_Subscribe (env : Env) (ctx : nat) (topic : string) :
    step w (worldOf (Subscribe env ctx topic w))
| step_SubscribeInitialize (env : Env)
    (initStream : string -> list event * option error)
    (topic : string) (delivered : list Msg) (early : nat) :
    step w (worldOf (SubscribeInitialize env initStream topic delivered
                       early w))
| step_processMessage (env : Env) (m : Msg) (call : nat)
    (fwd : ForwardSelect) (wt : Wait) :
    step w (worldOf (processMessage env m call fwd wt w))
| step_runGoroutine (env : Env) (i : nat) :
    step w (worldOf (runGoroutine env i w))
| step_Close (env : Env) (sched : list (Z * nat)) :
    step w (worldOf (Close env sched w))
| step_cancel (ctx : nat) :
    step w (cancel ctx w).

(** The worlds that a subscriber built by [NewSubscriberWithNatsConn] can
    get to. *)
Definition reachable (w : World) : Prop :=
  ∃ env c s, (NewSubscriberWithNatsConn env c).1.1 = Some s ∧
             rtc step (newWorld s) w.

(** A goroutine that runs at its next turn if its wait group lets it: a
    finisher, or a monitor whose subscriber is closing or whose context is
    cancelled. *)
Definition unblocked (w : World) (g : goroutine) : bool :=
  match g with
  | monitor _ _ ctx =>
      closing (subscriber w) || bool_decide (ctx ∈ cancelled w)
  | finisher _ => true
  end.

Definition allUnblocked (w : World) : Prop :=
  Forall (fun g => unblocked w g = true) (pool w).

(** Every context under which a monitor of the pool runs is cancelled. *)
Definition allCancelled (w : World) : Prop :=
  Forall (fun g => match g with
                   | monitor _ _ ctx => ctx ∈ cancelled w
                   | finisher _ => True
                   end) (pool w).


(** Two calls of [Subscribe] with two workers each, all accepted. *)
Definition subscribedTwice : World :=
  worldOf (Subscribe okEnv 8 "invoices"
             (worldOf (Subscribe okEnv 7 "orders"
                         (newWorld (subscriberOf twoWorkers))))).

(** The closed flag and the state of the closing channel replaced. *)
Definition withFlags (isClosed isClosing : bool) : World -> World :=
  setSubscriber (fun s => setClosing isClosing (setClosed isClosed s)).

(** * Properties *)

(** ** Subjects *)

Lemma segments_not_nil (s : string) : segments s ≠ [].
Proof.
  destruct s as [|c s]; simpl; [discriminate|].
  destruct (Ascii.eqb c "."); [discriminate|].
  destruct (segments s); discriminate.
Qed.

(** The segments of [a.b] are those of [a] followed by those of [b]. *)
Lemma segments_dot (a b : string) :
  segments (a +:+ "." +:+ b) = segments a ++ segments b.
Proof.
  induction a as [|c a IH]; simpl.
  - reflexivity.
  - destruct (Ascii.eqb c "."); simpl.
    + f_equal. exact IH.
    + simpl in IH. rewrite IH.
      pose proof (segments_not_nil a) as Hne.
      destruct (segments a) as [|t ts]; [congruence|reflexivity].
Qed.

Lemma segments_no_dot (s : string) : hasDot s = false → segments s = [s].
Proof.
  induction s as [|c s IH]; simpl; [reflexivity|].
  intros [Hc Hs]%orb_false_iff.
  rewrite Hc, (IH Hs). reflexivity.
Qed.

Lemma segments_single (s t : string) : segments s = [t] → hasDot s = false.
Proof.
  revert t. induction s as [|c s IH]; intros t; simpl; [reflexivity|].
  destruct (Ascii.eqb c ".").
  - pose proof (segments_not_nil s). destruct (segments s); congruence.
  - pose proof (segments_not_nil s) as Hne.
    destruct (segments s) as [|t' ts] eqn:Hs; [congruence|].
    intros [= _ ->]. apply (IH t'). reflexivity.
Qed.

Lemma literalToken_valid (t : string) :
  literalToken t = true → validToken t = true.
Proof.
  unfold literalToken. intros H.
  apply andb_prop in H as [H _]. apply andb_prop in H as [H _]. exact H.
Qed.

(** Literal tokens stand for themselves: a common literal prefix of a
    subscription and a subject can be left out. *)
Lemma matchSegments_prefix (l ps ts : list string) :
  forallb literalToken l = true →
  matchSegments (l ++ ps) (l ++ ts) = matchSegments ps ts.
Proof.
  induction l as [|x l IH]; [reflexivity|]. simpl.
  intros [Hx Hl]%andb_prop. unfold literalToken in Hx.
  apply andb_prop in Hx as [_ Hx]. apply negb_true_iff in Hx.
  rewrite Hx, String.eqb_refl, orb_true_r. simpl. apply IH. exact Hl.
Qed.

Lemma matchSegments_star (ts : list string) :
  matchSegments ["*"] ts = true ↔ ∃ t, ts = [t].
Proof.
  destruct ts as [|t [|t' ts]]; simpl.
  - split; [discriminate|]. intros [t [=]].
  - split; eauto.
  - split; [intros H; cbn in H; discriminate H|intros [t0 [=]]].
Qed.

Lemma subscribeRequest_subject (cfg : SSC.t) (topic : string) :
  ReqSubject (subscribeRequest cfg topic) = topic +:+ ".*".
Proof.
  unfold subscribeRequest.
  destruct (negb (String.eqb (SSC.QueueGroup cfg) "")); reflexivity.
Qed.

(** C8, as the claim reads: for every topic and every message id the
    publish subject matches the wildcard subject of the workers.  It fails
    for an id with a dot: [orders.a.b] has three tokens, [orders.*] has
    two. *)
Lemma PublishSubject_dotted_id_no_match :
  PublishSubject "orders" "a.b" = "orders.a.b" ∧
  ReqSubject (subscribeRequest oneWorker "orders") = "orders.*" ∧
  subjectMatches (ReqSubject (subscribeRequest oneWorker "orders"))
                 (PublishSubject "orders" "a.b") = false.
Proof. repeat split; reflexivity. Qed.

(** It fails for the empty id as well: [orders.] ends in an empty token,
    and no subject with an empty token is routed. *)
Lemma PublishSubject_empty_id_no_match :
  PublishSubject "orders" "" = "orders." ∧
  subjectMatches (ReqSubject (subscribeRequest oneWorker "orders"))
                 (PublishSubject "orders" "") = false.
Proof. split; reflexivity. Qed.

(** C8, amended: for every topic that is a literal subject,
    [PublishSubject topic id] is [topic.id]; its tokens are those of the
    topic followed by those of the id, where the subject that the workers
    subscribe to has those of the topic followed by [*].  It matches that
    subject when the id is one literal token: not empty, without a dot,
    without white space, not a wildcard.  It matches for no id that is
    empty, has a dot, or holds white space. *)
Theorem PublishSubject_matches_wildcard (cfg : SSC.t) (topic id : string) :
  literalSubject topic = true →
  PublishSubject topic id = topic +:+ "." +:+ id ∧
  ReqSubject (subscribeRequest cfg topic) = topic +:+ ".*" ∧
  segments (ReqSubject (subscribeRequest cfg topic)) = segments topic ++ ["*"] ∧
  segments (PublishSubject topic id) = segments topic ++ segments id ∧
  (literalToken id = true → hasDot id = false →
   subjectMatches (ReqSubject (subscribeRequest cfg topic))
                  (PublishSubject topic id) = true) ∧
  (subjectMatches (ReqSubject (subscribeRequest cfg topic))
                  (PublishSubject topic id) = true →
   validToken id = true ∧ hasDot id = false).
Proof.
  intros Htopic. unfold literalSubject in Htopic.
  assert (Hw : segments (ReqSubject (subscribeRequest cfg topic))
               = segments topic ++ ["*"]).
  { rewrite subscribeRequest_subject.
    change (topic +:+ ".*") with (topic +:+ "." +:+ "*").
    rewrite segments_dot. reflexivity. }
  assert (Hp : segments (PublishSubject topic id)
               = segments topic ++ segments id).
  { unfold PublishSubject. apply segments_dot. }
  assert (Hvalid : forallb validToken (segments topic) = true).
  { rewrite forallb_forall in Htopic. apply forallb_forall.
    intros x Hx. apply literalToken_valid. auto. }
  split; [reflexivity|]. split; [apply subscribeRequest_subject|].
  split; [exact Hw|]. split; [exact Hp|].
  unfold subjectMatches. rewrite Hw, Hp, forallb_app, Hvalid.
  rewrite (matchSegments_prefix _ _ _ Htopic). simpl andb. split.
  - intros Hlit Hdot. rewrite (segments_no_dot id Hdot). simpl.
    rewrite (literalToken_valid id Hlit). reflexivity.
  - intros [Hv Hm]%andb_prop. apply matchSegments_star in Hm as [t Ht].
    pose proof (segments_single id t Ht) as Hdot.
    rewrite (segments_no_dot id Hdot) in Hv. simpl in Hv.
    rewrite andb_true_r in Hv. auto.
Qed.

Lemma PublishSubject_matches_wildcard_witness :
  literalSubject "orders" = true ∧
  subjectMatches (ReqSubject (subscribeRequest oneWorker "orders"))
                 (PublishSubject "orders" "abc123") = true.
Proof.
  split; [reflexivity|].
  apply (PublishSubject_matches_wildcard oneWorker "orders" "abc123");
    reflexivity.
Defined.

(** ** ensureStream *)

Section EnsureStreamFacts.
Context {B : Type} `{JetStreamManager B}.
Variables (b : topicInterpreter) (topic : string) (js : B).

(** The stream is there: no creation, no error. *)
Lemma ensureStream_exists (js1 : B) (info : StreamConfig) :
  StreamInfo js topic = (js1, inl info) →
  ensureStream b topic js = (js1, None).
Proof. intros Hinfo. unfold ensureStream. rewrite Hinfo. reflexivity. Qed.

(** The lookup fails and the creation succeeds: no error. *)
Lemma ensureStream_created (js1 js2 : B) (e : error) (info : StreamConfig) :
  StreamInfo js topic = (js1, inr e) →
  AddStream js1 (streamConfigFor b topic) = (js2, inl info) →
  ensureStream b topic js = (js2, None).
Proof.
  intros Hinfo Hadd. unfold ensureStream. rewrite Hinfo, Hadd. reflexivity.
Qed.

(** The lookup fails and the creation fails: the error of the creation,
    whatever it is. *)
Lemma ensureStream_failed (js1 js2 : B) (e err : error) :
  StreamInfo js topic = (js1, inr e) →
  AddStream js1 (streamConfigFor b topic) = (js2, inr err) →
  ensureStream b topic js = (js2, Some err).
Proof.
  intros Hinfo Hadd. unfold ensureStream. rewrite Hinfo, Hadd. reflexivity.
Qed.

(** An error of [ensureStream] is the error of a creation that followed a
    failed lookup. *)
Lemma ensureStream_error_inv (js' : B) (err : error) :
  ensureStream b topic js = (js', Some err) →
  ∃ js1 e, StreamInfo js topic = (js1, inr e) ∧
           AddStream js1 (streamConfigFor b topic) = (js', inr err).
Proof.
  unfold ensureStream.
  destruct (StreamInfo js topic) as [js1 [info|e]] eqn:Hinfo;
    [discriminate|].
  destruct (AddStream js1 (streamConfigFor b topic)) as [js2 [info|e2]]
    eqn:Hadd; [discriminate|].
  intros [= <- <-]. eauto.
Qed.
End EnsureStreamFacts.

(** ** Configuration and construction *)

Lemma setDefaults_SubscribersCount (c : SSC.t) :
  1 < SSC.SubscribersCount (setDefaults c) ↔ 1 < SSC.SubscribersCount c.
Proof. simpl. destruct (Z.leb_spec (SSC.SubscribersCount c) 0); lia. Qed.

Lemma Validate_error_iff (c : SSC.t) :
  (∃ e, Validate c = Some e) ↔
  SSC.Unmarshaler c = None ∨
  (1 < SSC.SubscribersCount c ∧ SSC.QueueGroup c = "").
Proof.
  unfold Validate. destruct (SSC.Unmarshaler c) as [u|].
  - destruct (String.eqb_spec (SSC.QueueGroup c) "") as [Hq|Hq];
      destruct (Z.ltb_spec 1 (SSC.SubscribersCount c)) as [Hn|Hn]; simpl.
    + split; eauto.
    + split; [intros [e [=]]|]. intros [[=]|[? ?]]. lia.
    + split; [intros [e [=]]|]. intros [[=]|[? ?]]. congruence.
    + split; [intros [e [=]]|]. intros [[=]|[? ?]]. lia.
  - split; eauto.
Qed.

Lemma Validate_error_is_config (c : SSC.t) (e : error) :
  Validate c = Some e → isConfigError e = true.
Proof.
  unfold Validate. destruct (SSC.Unmarshaler c).
  - destruct (_ && _); intros [= <-]. reflexivity.
  - intros [= <-]. reflexivity.
Qed.

Lemma NewSubscriberWithNatsConn_rejects_iff (env : Env) (c : SSC.t) :
  rejectedBeforeBroker (NewSubscriberWithNatsConn env c) ↔ invalidConfig c.
Proof.
  unfold invalidConfig, rejectedBeforeBroker, NewSubscriberWithNatsConn.
  pose proof (Validate_error_iff (setDefaults c)) as Hv.
  change (SSC.Unmarshaler (setDefaults c)) with (SSC.Unmarshaler c) in Hv.
  change (SSC.QueueGroup (setDefaults c)) with (SSC.QueueGroup c) in Hv.
  rewrite <- Hv.
  destruct (Validate (setDefaults c)) as [err|] eqn:Hval.
  - split; [eauto|]. intros _. exists err. simpl.
    split; [reflexivity|]. split; [|reflexivity].
    eapply Validate_error_is_config; eauto.
  - split; [|intros [e [=]]].
    destruct (jetStreamResult env) as [je|]; simpl; intros (e & _ & _ & [=]).
Qed.

(** C6, as the claim reads: construction fails with a configuration error
    before any broker interaction when the unmarshaler is missing.
    [NewSubscriber] connects to the broker before it validates. *)
Lemma NewSubscriber_connects_before_validating :
  invalidConfig (GetStreamingSubscriberSubscriptionConfig noUnmarshaler) ∧
  NewSubscriber okEnv noUnmarshaler
    = ((None, Some errUnmarshalerMissing),
       [EvConnect "nats://localhost:4222" []]) ∧
  ¬ rejectedBeforeBroker (NewSubscriber okEnv noUnmarshaler).
Proof.
  split; [left; reflexivity|]. split; [reflexivity|].
  intros (e & _ & _ & [=]).
Qed.

(** C6, amended: construction from a connection,
    [NewSubscriberWithNatsConn], fails with a configuration error, before
    any call on the connection, exactly when the unmarshaler is missing or
    when (after defaulting) SubscribersCount > 1 and the queue group is
    empty; otherwise validation succeeds.  [NewSubscriber] connects to the
    broker first: it returns the wrapped connection error when that fails,
    and otherwise continues as [NewSubscriberWithNatsConn]. *)
Theorem construction_validates (env : Env) :
  (∀ c : SSC.t,
     rejectedBeforeBroker (NewSubscriberWithNatsConn env c) ↔
     SSC.Unmarshaler c = None ∨
     (1 < SSC.SubscribersCount (setDefaults c) ∧ SSC.QueueGroup c = "")) ∧
  (∀ c : SSC.t,
     Validate (setDefaults c) = None ↔
     ¬ (SSC.Unmarshaler c = None ∨
        (1 < SSC.SubscribersCount (setDefaults c) ∧ SSC.QueueGroup c = ""))) ∧
  (∀ c : SSC.t,
     1 < SSC.SubscribersCount (setDefaults c) ↔ 1 < SSC.SubscribersCount c) ∧
  (∀ (c : SubscriberConfig.t) (e : error), connectResult env = Some e →
     NewSubscriber env c
       = ((None, Some (ErrWrap e "cannot connect to NATS")),
          [EvConnect (SubscriberConfig.URL c) (SubscriberConfig.NatsOptions c)])) ∧
  (∀ c : SubscriberConfig.t, connectResult env = None →
     NewSubscriber env c
       = ((NewSubscriberWithNatsConn env
             (GetStreamingSubscriberSubscriptionConfig c)).1,
          EvConnect (SubscriberConfig.URL c) (SubscriberConfig.NatsOptions c)
            :: (NewSubscriberWithNatsConn env
                  (GetStreamingSubscriberSubscriptionConfig c)).2)).
Proof.
  split; [apply NewSubscriberWithNatsConn_rejects_iff|].
  split.
  { intros c. pose proof (Validate_error_iff (setDefaults c)) as Hv.
    change (SSC.Unmarshaler (setDefaults c)) with (SSC.Unmarshaler c) in Hv.
    change (SSC.QueueGroup (setDefaults c)) with (SSC.QueueGroup c) in Hv.
    rewrite <- Hv. destruct (Validate (setDefaults c)) as [e|].
    - split; [discriminate|]. intros Hn. exfalso. eauto.
    - split; [|reflexivity]. intros _ [e [=]]. }
  split; [apply setDefaults_SubscribersCount|].
  split.
  - intros c e He. unfold NewSubscriber. rewrite He. reflexivity.
  - intros c He. unfold NewSubscriber. rewrite He.
    destruct (NewSubscriberWithNatsConn env _) as [r t]. reflexivity.
Qed.

Lemma construction_validates_witness :
  NewSubscriber okEnv noUnmarshaler
    = ((None, Some errUnmarshalerMissing),
       [EvConnect "nats://localhost:4222" []]).
Proof.
  pose proof (construction_validates okEnv) as (_ & _ & _ & _ & Hok).
  rewrite (Hok noUnmarshaler); reflexivity.
Defined.

(** ** subscribe *)

Lemma string_app_length (a b : string) :
  String.length (a +:+ b) = (String.length a + String.length b)%nat.
Proof. induction a as [|c a IH]; simpl; [reflexivity|]. rewrite IH; reflexivity. Qed.

Lemma subTopic_is_not_topic (topic : string) : topic +:+ ".*" ≠ topic.
Proof.
  intros Heq. apply (f_equal String.length) in Heq.
  rewrite string_app_length in Heq. simpl in Heq. lia.
Qed.

(** The option of the request: the durable name when there is one, else
    the stream to bind to, which is the subject [<topic>.*]. *)
Lemma subscribeRequest_opts (cfg : SSC.t) (topic : string) :
  ReqOpts (subscribeRequest cfg topic)
    = if String.eqb (SSC.DurableName cfg) ""
      then [BindStream (topic +:+ ".*")]
      else [Durable (SSC.DurableName cfg)].
Proof.
  unfold subscribeRequest.
  destruct (String.eqb (SSC.DurableName cfg) "");
    destruct (String.eqb (SSC.QueueGroup cfg) ""); reflexivity.
Qed.

(** C4: without a durable name, the worker for topic [orders] subscribes to
    [orders.*] and binds to the stream named [orders.*], where the claim has
    the stream [orders], the name under which [ensureStream] creates it.
    For every topic the option is the durable name when there is one, and
    otherwise the bound stream [<topic>.*], never the stream of the
    topic. *)
Theorem subscribe_binds_subject_as_stream :
  subscribeRequest (setDefaults oneWorker) "orders"
    = {| ReqSubject := "orders.*"; ReqQueue := None;
         ReqOpts := [BindStream "orders.*"] |} ∧
  Name (streamConfigFor (newTopicInterpreter None) "orders") = "orders" ∧
  ∀ (cfg : SSC.t) (topic : string),
    ReqOpts (subscribeRequest cfg topic)
      = (if String.eqb (SSC.DurableName cfg) ""
         then [BindStream (topic +:+ ".*")]
         else [Durable (SSC.DurableName cfg)]) ∧
    String.eqb (topic +:+ ".*")
      (Name (streamConfigFor (newTopicInterpreter None) topic)) = false.
Proof.
  split; [reflexivity|]. split; [reflexivity|].
  intros cfg topic. split; [apply subscribeRequest_opts|].
  apply String.eqb_neq. exact (subTopic_is_not_topic topic).
Qed.

(** C5, as the claim reads: [ensureStream] fails only when the creation
    fails for a reason other than "already exists".  Here the lookup times
    out, the creation fails because the name is taken, and [ensureStream]
    returns that error. *)
Lemma ensureStream_already_exists_is_returned :
  (StreamInfo takenBroker "orders").2 = inr (ErrNats "nats: timeout") ∧
  (AddStream takenBroker
     (streamConfigFor (newTopicInterpreter None) "orders")).2
    = inr ErrStreamNameAlreadyInUse ∧
  ensureStream (newTopicInterpreter None) "orders" takenBroker
    = (takenBroker, Some ErrStreamNameAlreadyInUse).
Proof. repeat split; vm_compute; reflexivity. Qed.

(** C5, amended: [ensureStream] asks the broker for the stream named after
    the topic; when the lookup succeeds it returns nil; when the lookup
    fails, for any reason, it creates the stream named after the topic with
    the subjects [subjectCalculator(topic).All()] (by default
    ["<topic>.*"]) and returns nil when the creation succeeds and the error
    of the creation when it fails, whatever the reason, "already exists"
    included.  With a broker whose lookups leave it unchanged and find the
    streams it has created, a call that follows a successful call returns
    nil and leaves the broker unchanged. *)
Theorem ensureStream_spec {B : Type} `{JetStreamManager B}
    (b : topicInterpreter) (topic : string) (js : B) :
  streamConfigFor b topic
    = {| Name := topic; Description := "";
         StreamSubjects := Primary (subjectCalculator b topic)
                             :: Additional (subjectCalculator b topic) |} ∧
  StreamSubjects (streamConfigFor (newTopicInterpreter None) topic)
    = [topic +:+ ".*"] ∧
  (∀ js1 info, StreamInfo js topic = (js1, inl info) →
     ensureStream b topic js = (js1, None)) ∧
  (∀ js1 e js2 info, StreamInfo js topic = (js1, inr e) →
     AddStream js1 (streamConfigFor b topic) = (js2, inl info) →
     ensureStream b topic js = (js2, None)) ∧
  (∀ js' err, ensureStream b topic js = (js', Some err) ↔
     ∃ js1 e, StreamInfo js topic = (js1, inr e) ∧
              AddStream js1 (streamConfigFor b topic) = (js', inr err)) ∧
  ((∀ s name, (StreamInfo s name).1 = s) →
   (∀ s cfg s' info, AddStream s cfg = (s', inl info) →
      ∃ info', StreamInfo s' (Name cfg) = (s', inl info')) →
   ∀ js', ensureStream b topic js = (js', None) →
          ensureStream b topic js' = (js', None)).
Proof.
  split; [reflexivity|]. split; [reflexivity|].
  split; [intros; eapply ensureStream_exists; eauto|].
  split; [intros; eapply ensureStream_created; eauto|].
  split.
  - intros js' err. split.
    + apply ensureStream_error_inv.
    + intros (js1 & e & Hinfo & Hadd). eapply ensureStream_failed; eauto.
  - intros Hquery Hfind js'. unfold ensureStream at 1.
    destruct (StreamInfo js topic) as [js1 [info|e]] eqn:Hinfo.
    + intros [= <-]. pose proof (Hquery js topic) as Hs.
      rewrite Hinfo in Hs. simpl in Hs. subst js1.
      eapply ensureStream_exists. exact Hinfo.
    + destruct (AddStream js1 (streamConfigFor b topic)) as [js2 [info|e2]]
        eqn:Hadd; [|discriminate].
      intros [= <-]. destruct (Hfind _ _ _ _ Hadd) as [info' Hinfo'].
      eapply ensureStream_exists. exact Hinfo'.
Qed.

Lemma MemBroker_lookup_pure (s : MemBroker) (name : string) :
  (StreamInfo s name).1 = s.
Proof. simpl. destruct (streams s !! name); reflexivity. Qed.

Lemma MemBroker_added_is_found (s : MemBroker) (cfg : StreamConfig)
    (s' : MemBroker) (info : StreamConfig) :
  AddStream s cfg = (s', inl info) →
  ∃ info', StreamInfo s' (Name cfg) = (s', inl info').
Proof.
  simpl. destruct (streams s !! Name cfg) as [c|] eqn:Hc.
  - destruct (decide (c = cfg)); [|discriminate].
    intros [= <- <-]. exists c. rewrite Hc. reflexivity.
  - intros [= <- <-]. exists cfg. simpl.
    rewrite lookup_insert_eq. reflexivity.
Qed.

Lemma ensureStream_spec_witness :
  ensureStream (newTopicInterpreter None) "orders" emptyBroker
    = ({| streams :=
            {[ "orders" := {| Name := "orders"; Description := "";
                              StreamSubjects := ["orders.*"] |} ]} |}, None) ∧
  ensureStream (newTopicInterpreter None) "orders"
    (ensureStream (newTopicInterpreter None) "orders" emptyBroker).1
    = ((ensureStream (newTopicInterpreter None) "orders" emptyBroker).1, None).
Proof.
  split; [vm_compute; reflexivity|].
  apply (ensureStream_spec (newTopicInterpreter None) "orders" emptyBroker).
  - exact MemBroker_lookup_pure.
  - exact MemBroker_added_is_found.
  - vm_compute. reflexivity.
Defined.

(** ** processMessage *)

Ltac unfold_M :=
  unfold traceOf, valueOf, worldOf, onWorld, log, emitAll, emit, modify, get,
    bind, ret in *.

(** The three ways in which [processMessage] leaves before the first
    [select]. *)
Lemma processMessage_closed (env : Env) (m : Msg) (call : nat)
    (fwd : ForwardSelect) (wt : Wait) (w : World) :
  closed (subscriber w) = true →
  processMessage env m call fwd wt w = (Ok tt, w, []).
Proof.
  intros Hc. unfold processMessage, isClosed. unfold_M. rewrite Hc.
  reflexivity.
Qed.

Lemma processMessage_unmarshal_error (env : Env) (m : Msg) (call : nat)
    (fwd : ForwardSelect) (wt : Wait) (w : World)
    (u : Unmarshaler) (err : error) :
  closed (subscriber w) = false →
  SSC.Unmarshaler (config (subscriber w)) = Some u →
  Unmarshal u m = inr err →
  processMessage env m call fwd wt w
    = (Ok tt, w,
       [EvLog LTrace "Received message" None; EvUnmarshal m;
        EvLog LError "Cannot unmarshal message" (Some err)]).
Proof.
  intros Hc Hu Herr. unfold processMessage, isClosed. unfold_M.
  rewrite Hc, Hu, Herr. reflexivity.
Qed.

Lemma awaitAck_trace (env : Env) (m : Msg) (sel : AckSelect) (w : World) :
  let r := awaitAck env m sel w in
  valueOf r = Ok tt ∧ worldOf r = w ∧
  sends (traceOf r) = [] ∧
  outcomes (traceOf r) = [outcomeOfSelect sel] ∧
  brokerCalls (traceOf r)
    = match sel with
      | SelAcked => [EvAck m]
      | SelNacked => [EvNak m]
      | SelTimeout | SelClosing | SelCtxDone => []
      end.
Proof.
  destruct sel; unfold awaitAck; unfold_M; simpl;
    try destruct (ackResult env m); try destruct (nakResult env m);
    repeat split; reflexivity.
Qed.

(** The five ends of the wait, by what arrives and when. *)
Lemma selectAck_cases (timeout : Z) (wt : Wait) :
  match arrival wt with
  | None => selectAck timeout wt = SelTimeout
  | Some (sig, d) =>
      (d < timeout → selectAck timeout wt = caseOfSignal sig) ∧
      (timeout < d → selectAck timeout wt = SelTimeout) ∧
      (d = timeout →
         selectAck timeout wt
           = if timerWinsTie wt then SelTimeout else caseOfSignal sig)
  end.
Proof.
  unfold selectAck. destruct (arrival wt) as [[sig d]|]; [|reflexivity].
  destruct (Z.ltb_spec d timeout), (Z.eqb_spec d timeout); simpl;
    repeat split; intros; try lia; try reflexivity;
    destruct (timerWinsTie wt); reflexivity.
Qed.

Lemma processMessage_sent (env : Env) (m : Msg) (call : nat)
    (wt : Wait) (w : World) (u : Unmarshaler) (msg : Message) :
  closed (subscriber w) = false →
  SSC.Unmarshaler (config (subscriber w)) = Some u →
  Unmarshal u m = inl msg →
  outputOpen w call = true →
  traceOf (processMessage env m call FwdSent wt w)
    = [EvLog LTrace "Received message" None; EvUnmarshal m;
       EvLog LTrace "Unmarshaled message" None; EvSend call msg;
       EvLog LTrace "Message sent to consumer" None]
      ++ traceOf (awaitAck env m (ackCase w wt) w) ∧
  valueOf (processMessage env m call FwdSent wt w) = Ok tt ∧
  worldOf (processMessage env m call FwdSent wt w) = w.
Proof.
  intros Hc Hu Hmsg Hopen.
  pose proof (awaitAck_trace env m (ackCase w wt) w) as (Hv & Hw & _).
  unfold processMessage, isClosed. unfold_M. rewrite Hc, Hu, Hmsg, Hopen.
  fold (ackCase w wt).
  destruct (awaitAck env m (ackCase w wt) w) as [[v w'] t]. simpl in *.
  subst. repeat split; reflexivity.
Qed.

(** The send case runs and the output channel is closed: the panic of the
    send, after the decoding. *)
Lemma processMessage_send_closed (env : Env) (m : Msg) (call : nat)
    (wt : Wait) (w : World) (u : Unmarshaler) (msg : Message) :
  closed (subscriber w) = false →
  SSC.Unmarshaler (config (subscriber w)) = Some u →
  Unmarshal u m = inl msg →
  outputOpen w call = false →
  processMessage env m call FwdSent wt w
    = (Panic "send on closed channel", w,
       [EvLog LTrace "Received message" None; EvUnmarshal m;
        EvLog LTrace "Unmarshaled message" None]).
Proof.
  intros Hc Hu Hmsg Hopen.
  unfold processMessage, isClosed. unfold_M. rewrite Hc, Hu, Hmsg, Hopen.
  reflexivity.
Qed.

(** The closing signal or the cancelled context wins the first [select]:
    the message is dropped. *)
Lemma processMessage_discarded (env : Env) (m : Msg) (call : nat)
    (fwd : ForwardSelect) (wt : Wait) (w : World)
    (u : Unmarshaler) (msg : Message) :
  closed (subscriber w) = false →
  SSC.Unmarshaler (config (subscriber w)) = Some u →
  Unmarshal u m = inl msg →
  fwd ≠ FwdSent →
  ∃ line,
    processMessage env m call fwd wt w
      = (Ok tt, w,
         [EvLog LTrace "Received message" None; EvUnmarshal m;
          EvLog LTrace "Unmarshaled message" None; EvLog LTrace line None]).
Proof.
  intros Hc Hu Hmsg Hfwd.
  unfold processMessage, isClosed. unfold_M. rewrite Hc, Hu, Hmsg.
  destruct fwd; [contradiction| |]; eauto.
Qed.

(** A message is on the output channel only if the subscriber was open,
    the message decoded, the send won the first [select] and the channel
    was open. *)
Lemma processMessage_send_inv (env : Env) (m : Msg) (call : nat)
    (fwd : ForwardSelect) (wt : Wait) (w : World)
    (c : nat) (msg : Message) :
  In (EvSend c msg) (traceOf (processMessage env m call fwd wt w)) →
  closed (subscriber w) = false ∧ fwd = FwdSent ∧ c = call ∧
  outputOpen w call = true ∧
  ∃ u, SSC.Unmarshaler (config (subscriber w)) = Some u ∧
       Unmarshal u m = inl msg.
Proof.
  destruct (closed (subscriber w)) eqn:Hc.
  { rewrite processMessage_closed by exact Hc. intros []. }
  destruct (SSC.Unmarshaler (config (subscriber w))) as [u|] eqn:Hu.
  2:{ unfold processMessage, isClosed. unfold_M. rewrite Hc, Hu. simpl.
      intros [[=]|[]]. }
  destruct (Unmarshal u m) as [msg'|err] eqn:Hmsg.
  2:{ rewrite (processMessage_unmarshal_error _ _ _ _ _ _ _ _ Hc Hu Hmsg).
      simpl. intros [[=]|[[=]|[[=]|[]]]]. }
  assert (Hfs : fwd = FwdSent ∨ fwd ≠ FwdSent)
    by (destruct fwd; auto; right; discriminate).
  destruct Hfs as [->|Hfwd].
  2:{ destruct (processMessage_discarded env m call fwd wt w u msg'
                  Hc Hu Hmsg Hfwd) as [line ->].
      simpl. intros [[=]|[[=]|[[=]|[[=]|[]]]]]. }
  destruct (outputOpen w call) eqn:Hopen.
  2:{ rewrite (processMessage_send_closed env m call wt w u msg'
                 Hc Hu Hmsg Hopen).
      simpl. intros [[=]|[[=]|[[=]|[]]]]. }
  destruct (processMessage_sent env m call wt w u msg' Hc Hu Hmsg Hopen)
    as (-> & _ & _).
  pose proof (awaitAck_trace env m (ackCase w wt) w) as (_ & _ & Hs & _).
  intros Hin. apply in_app_or in Hin as [Hin|Hin].
  - simpl in Hin.
    destruct Hin as [[=]|[[=]|[[=]|[[= <- <-]|[[=]|[]]]]]].
    repeat split; eauto.
  - exfalso.
    assert (Hf : In (EvSend c msg)
                   (sends (traceOf (awaitAck env m (ackCase w wt) w)))).
    { apply filter_In. split; [exact Hin|reflexivity]. }
    rewrite Hs in Hf. exact Hf.
Qed.

(** C1: a message that [processMessage] has decoded and sent on the output
    channel is sent once, and its wait ends once, in one of four ways.  If
    the consumer's ack is the first signal and comes before the timer
    fires, the broker's [Ack] is called, once, and nothing else; if the
    nack is, [Nak] is called, once; if the closing signal or the cancelled
    context is, or if no signal comes before AckWaitTimeout has passed, no
    broker call is made.  When the signal and the timer come together,
    the case that [select] picks decides.  No trace holds two broker
    calls, and [processMessage] returns: nothing waits again. *)
Theorem processMessage_resolves_once (env : Env) (m : Msg) (call : nat)
    (fwd : ForwardSelect) (wt : Wait) (w : World) (msg : Message) :
  In (EvSend call msg) (traceOf (processMessage env m call fwd wt w)) →
  let r := processMessage env m call fwd wt w in
  let timeout := SSC.AckWaitTimeout (config (subscriber w)) in
  sends (traceOf r) = [EvSend call msg] ∧
  (length (brokerCalls (traceOf r)) <= 1)%nat ∧
  valueOf r = Ok tt ∧ worldOf r = w ∧
  match arrival wt with
  | None =>
      outcomes (traceOf r) = [TimedOut] ∧ brokerCalls (traceOf r) = []
  | Some (sig, d) =>
      (d < timeout ∨ (d = timeout ∧ timerWinsTie wt = false) →
       match sig with
       | SigAcked =>
           outcomes (traceOf r) = [Acked] ∧
           brokerCalls (traceOf r) = [EvAck m]
       | SigNacked =>
           outcomes (traceOf r) = [Nacked] ∧
           brokerCalls (traceOf r) = [EvNak m]
       | SigClosing | SigCtxDone =>
           outcomes (traceOf r) = [Discarded] ∧
           brokerCalls (traceOf r) = []
       end) ∧
      (timeout < d ∨ (d = timeout ∧ timerWinsTie wt = true) →
       outcomes (traceOf r) = [TimedOut] ∧ brokerCalls (traceOf r) = [])
  end.
Proof.
  intros Hin.
  apply processMessage_send_inv in Hin
    as (Hc & -> & _ & Hopen & u & Hu & Hmsg).
  destruct (processMessage_sent env m call wt w u msg Hc Hu Hmsg Hopen)
    as (Ht & Hv & Hw).
  pose proof (awaitAck_trace env m (ackCase w wt) w) as (_ & _ & Hs & Ho & Hb).
  assert (Hsends : sends (traceOf (processMessage env m call FwdSent wt w))
                   = [EvSend call msg]).
  { rewrite Ht. unfold sends in *. rewrite List.filter_app, Hs. reflexivity. }
  assert (Hout : outcomes (traceOf (processMessage env m call FwdSent wt w))
                 = [outcomeOfSelect (ackCase w wt)]).
  { rewrite Ht. unfold outcomes in *. rewrite omap_app, Ho. reflexivity. }
  assert (Hbc : brokerCalls (traceOf (processMessage env m call FwdSent wt w))
                = match ackCase w wt with
                  | SelAcked => [EvAck m]
                  | SelNacked => [EvNak m]
                  | SelTimeout | SelClosing | SelCtxDone => []
                  end).
  { rewrite Ht. unfold brokerCalls in *. rewrite List.filter_app, Hb.
    reflexivity. }
  cbv zeta. rewrite Hsends, Hout, Hbc.
  split; [reflexivity|].
  split; [destruct (ackCase w wt); simpl; lia|].
  split; [exact Hv|]. split; [exact Hw|].
  pose proof (selectAck_cases (SSC.AckWaitTimeout (config (subscriber w))) wt)
    as Hcases.
  unfold ackCase. destruct (arrival wt) as [[sig d]|].
  - destruct Hcases as (Hlt & Hgt & Heq). split.
    + intros [Hd|[Hd Htie]].
      * rewrite (Hlt Hd). destruct sig; split; reflexivity.
      * rewrite (Heq Hd), Htie. destruct sig; split; reflexivity.
    + intros [Hd|[Hd Htie]].
      * rewrite (Hgt Hd). split; reflexivity.
      * rewrite (Heq Hd), Htie. split; reflexivity.
  - rewrite Hcases. split; reflexivity.
Qed.

Lemma processMessage_resolves_once_witness :
  brokerCalls (traceOf (processMessage okEnv order 0 FwdSent ackedInTime
                          subscribedWorld))
    = [EvAck order].
Proof.
  pose proof (processMessage_resolves_once okEnv order 0 FwdSent ackedInTime
                subscribedWorld
                {| UUID := "orders.abc123"; Payload := "payload" |}) as H.
  cbv zeta in H.
  destruct H as (_ & _ & _ & _ & [Hin _]).
  { vm_compute. tauto. }
  destruct Hin as [_ Hb]; [left; reflexivity|exact Hb].
Defined.

(** C9: when [Unmarshal] fails for a raw message, [processMessage] sends
    nothing on the output channel and calls neither [Ack] nor [Nak]; and
    whenever it has called [Unmarshal] (the subscriber was not closed), it
    logs the error and does nothing more. *)
Theorem processMessage_drops_undecodable (env : Env) (m : Msg) (call : nat)
    (fwd : ForwardSelect) (wt : Wait) (w : World)
    (u : Unmarshaler) (err : error) :
  SSC.Unmarshaler (config (subscriber w)) = Some u →
  Unmarshal u m = inr err →
  let r := processMessage env m call fwd wt w in
  sends (traceOf r) = [] ∧
  brokerCalls (traceOf r) = [] ∧
  (In (EvUnmarshal m) (traceOf r) →
   traceOf r = [EvLog LTrace "Received message" None; EvUnmarshal m;
                EvLog LError "Cannot unmarshal message" (Some err)]) ∧
  (closed (subscriber w) = false → In (EvUnmarshal m) (traceOf r)) ∧
  valueOf r = Ok tt ∧ worldOf r = w.
Proof.
  intros Hu Herr. simpl. destruct (closed (subscriber w)) eqn:Hc.
  - rewrite processMessage_closed by exact Hc. unfold_M. simpl.
    repeat split; try reflexivity; try discriminate. intros [].
  - rewrite (processMessage_unmarshal_error _ _ _ _ _ _ _ _ Hc Hu Herr).
    unfold_M. simpl. repeat split; try reflexivity. intros _. tauto.
Qed.

Lemma processMessage_drops_undecodable_witness :
  traceOf (processMessage okEnv emptyOrder 0 FwdSent ackedInTime
             (newWorld (subscriberOf oneWorker)))
    = [EvLog LTrace "Received message" None; EvUnmarshal emptyOrder;
       EvLog LError "Cannot unmarshal message" (Some (ErrNew "empty payload"))].
Proof.
  apply (processMessage_drops_undecodable okEnv emptyOrder 0 FwdSent
           ackedInTime (newWorld (subscriberOf oneWorker)) testUnmarshaler
           (ErrNew "empty payload")); [reflexivity|reflexivity|].
  vm_compute. tauto.
Defined.

(** ** The goroutines and the wait group of Close *)

Lemma finishers_delete (p : list goroutine) (i : nat) (g : goroutine) :
  p !! i = Some g →
  finishers p = finishers (delete i p) + (if isFinisher g then 1 else 0).
Proof.
  unfold finishers. revert i. induction p as [|x p IH]; intros i Hi.
  - discriminate.
  - destruct i as [|i]; simpl in *.
    + injection Hi as ->. destruct (isFinisher g); simpl; lia.
    + specialize (IH i Hi). destruct (isFinisher x); simpl; lia.
Qed.

Lemma finishers_nonneg (p : list goroutine) : 0 <= finishers p.
Proof. unfold finishers. lia. Qed.

Lemma finishers_snoc (p : list goroutine) (g : goroutine) :
  finishers (p ++ [g]) = finishers p + (if isFinisher g then 1 else 0).
Proof.
  unfold finishers. rewrite List.filter_app, length_app. simpl.
  destruct (isFinisher g); simpl; lia.
Qed.

Lemma runGoroutine_spec (env : Env) (i : nat) (w : World) :
  let r := runGoroutine env i w in
  forallb byGoroutine (traceOf r) = true ∧
  sameSubscriber w (worldOf r) ∧
  surplus (worldOf r) = surplus w.
Proof.
  unfold runGoroutine, sameSubscriber, surplus. unfold_M.
  destruct (pool w !! i) as [g|] eqn:Hg; [|simpl; auto].
  pose proof (finishers_delete _ _ _ Hg) as Hdel.
  destruct g as [call sub ctx|call]; simpl in Hdel.
  - unfold runMonitor. unfold_M.
    destruct (closing (subscriber w) || bool_decide (ctx ∈ cancelled w));
      [|simpl; auto].
    destruct (unsubscribeResult env sub); simpl; repeat split; lia.
  - unfold runFinisher. unfold_M.
    destruct (calls w !! call) as [c|]; [|simpl; auto].
    destruct (outputWg c =? 0); simpl; repeat split; lia.
Qed.

Lemma run_spec (env : Env) (sched : list nat) (w : World) :
  let r := run env sched w in
  forallb byGoroutine (traceOf r) = true ∧
  sameSubscriber w (worldOf r) ∧
  surplus (worldOf r) = surplus w.
Proof.
  revert w. induction sched as [|i rest IH]; intros w.
  - unfold sameSubscriber. simpl. auto.
  - pose proof (runGoroutine_spec env i w) as (Ht & (Hc1 & Hc2 & Hc3) & Hs).
    cbn [run]. unfold bind.
    destruct (runGoroutine env i w) as [[[] w1] t1].
    specialize (IH w1) as (Ht' & (Hd1 & Hd2 & Hd3) & Hs').
    destruct (run env rest w1) as [[[] w2] t2].
    unfold sameSubscriber, traceOf, worldOf in *. simpl in *.
    rewrite forallb_app, Ht, Ht'.
    repeat split; congruence.
Qed.

Lemma run_cons (env : Env) (i : nat) (rest : list nat) (w : World) :
  worldOf (run env (i :: rest) w)
    = worldOf (run env rest (worldOf (runGoroutine env i w))) ∧
  traceOf (run env (i :: rest) w)
    = traceOf (runGoroutine env i w)
        ++ traceOf (run env rest (worldOf (runGoroutine env i w))).
Proof.
  cbn [run]. unfold bind, worldOf, traceOf.
  destruct (runGoroutine env i w) as [[[] w1] t1]. simpl.
  destruct (run env rest w1) as [[[] w2] t2]. auto.
Qed.

(** The turns taken up to a limit are turns of the pool. *)
Lemma runUntil_run (env : Env) (limit : Z) (sched : list (Z * nat)) :
  ∃ turns, ∀ w, runUntil env limit sched w = run env turns w.
Proof.
  induction sched as [|[at_ i] rest [turns IH]].
  - exists []. reflexivity.
  - cbn [runUntil]. destruct (limit <=? at_).
    + exists []. reflexivity.
    + exists (i :: turns). intros w. cbn [run]. unfold bind.
      destruct (runGoroutine env i w) as [[[] w1] t1]. rewrite IH.
      reflexivity.
Qed.

Lemma WaitGroupTimeout_eq (env : Env) (timeout now : Z)
    (sched : list (Z * nat)) (w : World) :
  WaitGroupTimeout env timeout now sched w
    = if outputsWg (subscriber w) =? 0 then
        if (now + wgWaitDelay env <? timeout)
           || ((now + wgWaitDelay env =? timeout)
               && negb (wgTimerWinsTie env))
        then (false, worldOf (runUntil env (now + wgWaitDelay env) sched w),
              traceOf (runUntil env (now + wgWaitDelay env) sched w))
        else (true, worldOf (runUntil env timeout sched w),
              traceOf (runUntil env timeout sched w))
      else
        match sched with
        | [] => (true, w, [])
        | (at_, i) :: rest =>
            if timeout <=? at_ then (true, w, [])
            else
              let r := WaitGroupTimeout env timeout at_ rest
                         (worldOf (runGoroutine env i w)) in
              (valueOf r, worldOf r,
               traceOf (runGoroutine env i w) ++ traceOf r)
        end.
Proof.
  destruct sched as [|[at_ i] rest]; cbn [WaitGroupTimeout]; unfold_M;
    destruct (outputsWg (subscriber w) =? 0); try reflexivity.
  - destruct (_ || _); reflexivity.
  - destruct (_ || _);
      destruct (runUntil env _ ((at_, i) :: rest) w) as [[[] w1] t1];
      simpl; rewrite app_nil_r; reflexivity.
  - destruct (timeout <=? at_); [reflexivity|].
    destruct (runGoroutine env i w) as [[[] w1] t1]. simpl.
    destruct (WaitGroupTimeout env timeout at_ rest w1) as [[v w2] t2].
    reflexivity.
Qed.

(** What the wait of [Close] does to the world is what the turns that it
    lets through do. *)
Lemma WaitGroupTimeout_run (env : Env) (timeout now : Z)
    (sched : list (Z * nat)) (w : World) :
  ∃ turns,
    worldOf (WaitGroupTimeout env timeout now sched w)
      = worldOf (run env turns w) ∧
    traceOf (WaitGroupTimeout env timeout now sched w)
      = traceOf (run env turns w).
Proof.
  revert now w. induction sched as [|[at_ i] rest IH]; intros now w;
    rewrite WaitGroupTimeout_eq;
    destruct (outputsWg (subscriber w) =? 0).
  - exists []. destruct (_ || _); split; reflexivity.
  - exists []. split; reflexivity.
  - destruct (_ || _);
      [destruct (runUntil_run env (now + wgWaitDelay env) ((at_, i) :: rest))
         as [turns Hr]
      |destruct (runUntil_run env timeout ((at_, i) :: rest)) as [turns Hr]];
      exists turns; rewrite Hr; split; reflexivity.
  - destruct (timeout <=? at_).
    + exists []. split; reflexivity.
    + destruct (IH at_ (worldOf (runGoroutine env i w))) as (turns & Hw & Ht).
      exists (i :: turns).
      destruct (run_cons env i turns w) as [-> ->].
      rewrite <- Hw, <- Ht. split; reflexivity.
Qed.

Lemma WaitGroupTimeout_spec (env : Env) (timeout now : Z)
    (sched : list (Z * nat)) (w : World) :
  let r := WaitGroupTimeout env timeout now sched w in
  forallb byGoroutine (traceOf r) = true ∧
  sameSubscriber w (worldOf r) ∧
  surplus (worldOf r) = surplus w.
Proof.
  cbv zeta.
  destruct (WaitGroupTimeout_run env timeout now sched w)
    as (turns & -> & ->).
  apply run_spec.
Qed.

(** The wait does not time out only if the counter gets to zero: with a
    surplus in the counter, the wait of [Close] times out whatever the
    timeout and whatever turns the goroutines get. *)
Lemma WaitGroupTimeout_surplus (env : Env) (timeout now : Z)
    (sched : list (Z * nat)) (w : World) :
  0 < surplus w →
  valueOf (WaitGroupTimeout env timeout now sched w) = true.
Proof.
  revert now w. induction sched as [|[at_ i] rest IH]; intros now w Hs;
    rewrite WaitGroupTimeout_eq;
    destruct (Z.eqb_spec (outputsWg (subscriber w)) 0) as [Hz|Hz];
    try (exfalso; unfold surplus in Hs;
         pose proof (finishers_nonneg (pool w)); lia);
    try reflexivity.
  destruct (timeout <=? at_); [reflexivity|].
  pose proof (runGoroutine_spec env i w) as (_ & _ & Hs1).
  cbv zeta. apply IH. rewrite Hs1. exact Hs.
Qed.

Lemma byGoroutine_not_Drain (t : list event) :
  forallb byGoroutine t = true → ¬ In EvDrain t.
Proof.
  intros H Hin. rewrite forallb_forall in H. specialize (H _ Hin).
  discriminate.
Qed.

Lemma byGoroutine_no_closing (t : list event) :
  forallb byGoroutine t = true →
  count_occ event_eq_dec t (EvCloseChan ChClosing) = 0%nat.
Proof.
  intros H. apply count_occ_not_In. intros Hin.
  rewrite forallb_forall in H. specialize (H _ Hin). discriminate.
Qed.

(** ** Close *)

Lemma Close_closed (env : Env) (sched : list (Z * nat)) (w : World) :
  closed (subscriber w) = true → Close env sched w = (Ok None, w, []).
Proof. intros Hc. unfold Close. unfold_M. rewrite Hc. reflexivity. Qed.

Lemma Close_open (env : Env) (sched : list (Z * nat)) (w : World) :
  closed (subscriber w) = false → closing (subscriber w) = false →
  let r := closeWait env sched w in
  Close env sched w
    = (if valueOf r then Ok (Some errOutputWaitGroup)
       else match drainResult env with
            | Some err => Ok (Some (ErrWrap err "cannot close conn"))
            | None => Ok None
            end,
       worldOf r,
       [EvLog LDebug "Closing subscriber" None; EvCloseChan ChClosing]
         ++ traceOf r
         ++ (if valueOf r then [EvLog LInfo "Subscriber closed" None]
             else [EvDrain; EvLog LInfo "Subscriber closed" None])).
Proof.
  intros Hc Hg. unfold Close, closeWait. unfold_M. rewrite Hc, Hg.
  change (setSubscriber (setClosing true) (setSubscriber (setClosed true) w))
    with (closingWorld w).
  destruct (WaitGroupTimeout env _ 0 sched (closingWorld w)) as [[v w1] t1].
  simpl. destruct v; [reflexivity|].
  destruct (drainResult env); reflexivity.
Qed.

Lemma closeWait_spec (env : Env) (sched : list (Z * nat)) (w : World) :
  let r := closeWait env sched w in
  forallb byGoroutine (traceOf r) = true ∧
  sameSubscriber (closingWorld w) (worldOf r) ∧
  surplus (worldOf r) = surplus w.
Proof.
  pose proof (WaitGroupTimeout_spec env
                (SSC.CloseTimeout (config (subscriber w))) 0 sched
                (closingWorld w)) as (Ht & Hsame & Hs).
  auto.
Qed.

Lemma CloseAgain_closed (env : Env) (scheds : list (list (Z * nat)))
    (w : World) :
  closed (subscriber w) = true →
  CloseAgain env scheds w = (List.repeat (Ok None) (length scheds), w, []).
Proof.
  intros Hc. induction scheds as [|sched rest IH]; [reflexivity|].
  cbn [CloseAgain]. unfold bind. rewrite (Close_closed _ _ _ Hc), IH.
  reflexivity.
Qed.

(** C7: the first [Close] on a subscriber that is not closed returns, sets
    the closed flag and closes the closing channel, once; every later
    [Close] returns nil, changes nothing and calls nothing. *)
Theorem Close_single_shot (env : Env) (sched : list (Z * nat)) (w : World) :
  closed (subscriber w) = false → closedIffClosing w →
  let r := Close env sched w in
  (∃ e, valueOf r = Ok e) ∧
  closed (subscriber (worldOf r)) = true ∧
  closing (subscriber (worldOf r)) = true ∧
  count_occ event_eq_dec (traceOf r) (EvCloseChan ChClosing) = 1%nat ∧
  ∀ scheds : list (list (Z * nat)),
    CloseAgain env scheds (worldOf r)
      = (List.repeat (Ok None) (length scheds), worldOf r, []).
Proof.
  intros Hc Hinv. unfold closedIffClosing in Hinv. rewrite Hc in Hinv.
  cbv zeta. rewrite (Close_open env sched w Hc (eq_sym Hinv)).
  pose proof (closeWait_spec env sched w) as (Ht & (_ & Hcl & Hcg) & _).
  destruct (closeWait env sched w) as [[v w1] t1].
  unfold traceOf, worldOf, valueOf in *. simpl in Ht, Hcl, Hcg |- *.
  assert (Hclosed : closed (subscriber w1) = true) by exact Hcl.
  split; [destruct v; [|destruct (drainResult env)]; eauto|].
  split; [exact Hclosed|]. split; [exact Hcg|]. split.
  - rewrite count_occ_app, (byGoroutine_no_closing _ Ht).
    destruct v; reflexivity.
  - intros scheds. apply CloseAgain_closed. exact Hclosed.
Qed.

Lemma Close_single_shot_witness :
  closed (subscriber (worldOf (Close okEnv promptTurns subscribedWorld)))
    = true ∧
  CloseAgain okEnv [[]; promptTurns]
    (worldOf (Close okEnv promptTurns subscribedWorld))
    = ([Ok None; Ok None],
       worldOf (Close okEnv promptTurns subscribedWorld), []).
Proof.
  pose proof (Close_single_shot okEnv promptTurns subscribedWorld
                eq_refl eq_refl) as (_ & Hc & _ & _ & Hagain).
  split; [exact Hc|]. exact (Hagain [[]; promptTurns]).
Defined.

(** C3, as the claim reads: when the wait group does not finish in time,
    [Close] returns an error and still attempts the drain.  One worker is
    subscribed, CloseTimeout is 30 s, and the worker's monitor gets its
    turn after 31 s: [Close] returns the error and the connection is not
    drained. *)
Lemma Close_timeout_skips_drain :
  valueOf (closeWait okEnv lateTurns subscribedWorld) = true ∧
  Close okEnv lateTurns subscribedWorld
    = (Ok (Some errOutputWaitGroup),
       closingWorld subscribedWorld,
       [EvLog LDebug "Closing subscriber" None; EvCloseChan ChClosing;
        EvLog LInfo "Subscriber closed" None]) ∧
  ¬ In EvDrain (traceOf (Close okEnv lateTurns subscribedWorld)).
Proof.
  split; [reflexivity|]. split; [reflexivity|].
  intros [[=]|[[=]|[[=]|[]]]].
Qed.

(** A [Close] whose wait times out: the error, and no drain. *)
Lemma Close_timed_out (env : Env) (sched : list (Z * nat)) (w : World) :
  closed (subscriber w) = false → closedIffClosing w →
  valueOf (closeWait env sched w) = true →
  valueOf (Close env sched w) = Ok (Some errOutputWaitGroup) ∧
  ¬ In EvDrain (traceOf (Close env sched w)) ∧
  closed (subscriber (worldOf (Close env sched w))) = true.
Proof.
  intros Hc Hinv Htimeout. unfold closedIffClosing in Hinv.
  rewrite Hc in Hinv.
  rewrite (Close_open env sched w Hc (eq_sym Hinv)).
  pose proof (closeWait_spec env sched w) as (Ht & (_ & Hcl & _) & _).
  destruct (closeWait env sched w) as [[v w1] t1].
  unfold traceOf, worldOf, valueOf in *. simpl in Htimeout, Ht, Hcl |- *.
  subst v. split; [reflexivity|]. split; [|exact Hcl].
  intros [[=]|[[=]|Hin]]. apply in_app_or in Hin as [Hin|[[=]|[]]].
  exact (byGoroutine_not_Drain _ Ht Hin).
Qed.

(** C3, amended: when the first [Close] on a subscriber that is not closed
    finds that the wait group does not finish within CloseTimeout, it
    returns the error "output wait group did not finish" and returns
    without attempting the drain of the connection; the closed flag stays
    set. *)
Theorem Close_timeout_returns_error (env : Env) (sched : list (Z * nat))
    (w : World) :
  closed (subscriber w) = false → closedIffClosing w →
  valueOf (closeWait env sched w) = true →
  valueOf (Close env sched w) = Ok (Some errOutputWaitGroup) ∧
  traceOf (Close env sched w)
    = [EvLog LDebug "Closing subscriber" None; EvCloseChan ChClosing]
        ++ traceOf (closeWait env sched w)
        ++ [EvLog LInfo "Subscriber closed" None] ∧
  forallb byGoroutine (traceOf (closeWait env sched w)) = true ∧
  ¬ In EvDrain (traceOf (Close env sched w)) ∧
  closed (subscriber (worldOf (Close env sched w))) = true.
Proof.
  intros Hc Hinv Htimeout.
  destruct (Close_timed_out env sched w Hc Hinv Htimeout) as (Hv & Hd & Hcl).
  pose proof (closeWait_spec env sched w) as (Ht & _).
  split; [exact Hv|]. split; [|auto].
  unfold closedIffClosing in Hinv. rewrite Hc in Hinv.
  rewrite (Close_open env sched w Hc (eq_sym Hinv)).
  cbv zeta. rewrite Htimeout. reflexivity.
Qed.

Lemma Close_timeout_returns_error_witness :
  valueOf (Close okEnv lateTurns subscribedWorld)
    = Ok (Some errOutputWaitGroup).
Proof.
  apply (Close_timeout_returns_error okEnv lateTurns subscribedWorld);
    reflexivity.
Defined.

(** When the wait group finishes in time, the drain is attempted. *)
Lemma Close_finished_drains (env : Env) (sched : list (Z * nat)) (w : World) :
  closed (subscriber w) = false → closedIffClosing w →
  valueOf (closeWait env sched w) = false →
  In EvDrain (traceOf (Close env sched w)) ∧
  valueOf (Close env sched w) = Ok (Wrap (drainResult env) "cannot close conn").
Proof.
  intros Hc Hinv Hfin. unfold closedIffClosing in Hinv. rewrite Hc in Hinv.
  rewrite (Close_open env sched w Hc (eq_sym Hinv)).
  destruct (closeWait env sched w) as [[v w1] t1].
  unfold traceOf, worldOf, valueOf in *. simpl in Hfin |- *. subst v.
  split.
  - right. right. apply in_or_app. right. left. reflexivity.
  - destruct (drainResult env); reflexivity.
Qed.

(** The same worker, its turns one and two seconds into the wait: [Close]
    finishes and drains. *)
Lemma Close_in_time_drains :
  Close okEnv promptTurns subscribedWorld
    = (Ok None,
       {| subscriber := {| config := setDefaults oneWorker; closed := true;
                           closing := true; outputsWg := 0 |};
          calls := [{| outputWg := 0; outputClosed := true |}];
          pool := []; requests := 1; cancelled := ∅ |},
       [EvLog LDebug "Closing subscriber" None; EvCloseChan ChClosing;
        EvUnsubscribe 0; EvCloseChan (ChOutput 0); EvDrain;
        EvLog LInfo "Subscriber closed" None]).
Proof. vm_compute. reflexivity. Qed.

(** ** Subscribe *)

Lemma subscribe_spec (env : Env) (topic : string) (w : World) :
  let r := subscribe env topic w in
  subscriber (worldOf r) = subscriber w ∧
  pool (worldOf r) = pool w ∧
  valueOf r = match subscribeResult env (requests w) with
              | Some err => inr err
              | None => inl (requests w)
              end.
Proof.
  unfold subscribe. unfold_M.
  destruct (subscribeResult env (requests w)); simpl; auto.
Qed.

(** The loop touches neither the subscriber nor the finishers. *)
Lemma startSubscribers_spec (env : Env) (ctx : nat) (topic : string)
    (call n : nat) (w : World) :
  let r := startSubscribers env ctx topic call n w in
  subscriber (worldOf r) = subscriber w ∧
  finishers (pool (worldOf r)) = finishers (pool w).
Proof.
  revert w. induction n as [|n IH]; intros w; [simpl; auto|].
  pose proof (subscribe_spec env topic (onCall call (outputWgAdd 1) w))
    as (Hs & Hp & _).
  cbn [startSubscribers]. unfold_M.
  destruct (subscribe env topic (onCall call (outputWgAdd 1) w))
    as [[[sub|err] w1] t1]; simpl in Hs, Hp |- *.
  - specialize (IH (setPool (λ p, p ++ [monitor call sub ctx]) w1))
      as (Hs' & Hp').
    unfold_M.
    destruct (startSubscribers env ctx topic call n _) as [[v w2] t2].
    simpl in *.
    rewrite Hs', Hs, Hp', finishers_snoc, Hp. simpl. split; [reflexivity|lia].
  - rewrite Hs, Hp. auto.
Qed.

(** A [Subscribe] that succeeds leaves the surplus of the wait group as it
    was; a [Subscribe] that fails returns no channel and adds one to it. *)
Lemma Subscribe_surplus (env : Env) (ctx : nat) (topic : string) (w : World) :
  let r := Subscribe env ctx topic w in
  sameSubscriber w (worldOf r) ∧
  match (valueOf r).2 with
  | Some _ => (valueOf r).1 = None ∧ surplus (worldOf r) = surplus w + 1
  | None => (valueOf r).1 = Some (length (calls w)) ∧
            surplus (worldOf r) = surplus w
  end.
Proof.
  pose proof (startSubscribers_spec env ctx topic (length (calls w))
                (Z.to_nat (SSC.SubscribersCount (config (subscriber w))))
                (setSubscriber (outputsWgAdd 1)
                   (setCalls (λ cs, cs ++ [{| outputWg := 0;
                                              outputClosed := false |}]) w)))
    as (Hs & Hp).
  unfold Subscribe, sameSubscriber, surplus. unfold_M.
  destruct (startSubscribers env ctx topic _ _ _) as [[[err|] w1] t1];
    simpl in Hs, Hp |- *.
  - rewrite Hs, Hp. simpl. repeat split; lia.
  - rewrite finishers_snoc, Hs, Hp. simpl. repeat split; lia.
Qed.

(** A failed [Subscribe] on a subscriber whose wait group was balanced:
    whatever turns the goroutines get afterwards, [Close] times out. *)
Lemma Subscribe_failure_blocks_Close (env : Env) (ctx : nat) (topic : string)
    (w : World) (err : error) (before : list nat) (sched : list (Z * nat)) :
  closed (subscriber w) = false → closedIffClosing w → surplus w = 0 →
  (valueOf (Subscribe env ctx topic w)).2 = Some err →
  let w1 := worldOf (run env before (worldOf (Subscribe env ctx topic w))) in
  valueOf (Close env sched w1) = Ok (Some errOutputWaitGroup) ∧
  ¬ In EvDrain (traceOf (Close env sched w1)).
Proof.
  intros Hc Hinv Hbal Herr w1.
  pose proof (Subscribe_surplus env ctx topic w) as ((_ & Hc1 & Hg1) & Hsur).
  cbv zeta in Hsur. rewrite Herr in Hsur. destruct Hsur as [_ Hsur].
  pose proof (run_spec env before (worldOf (Subscribe env ctx topic w)))
    as (_ & (_ & Hc2 & Hg2) & Hsur2).
  fold w1 in Hc2, Hg2, Hsur2.
  assert (Hclosed : closed (subscriber w1) = false) by congruence.
  assert (Hinv1 : closedIffClosing w1).
  { unfold closedIffClosing in *. congruence. }
  destruct (Close_timed_out env sched w1 Hclosed Hinv1)
    as (Hv & Hd & _); [|auto].
  apply WaitGroupTimeout_surplus.
  change (surplus (closingWorld w1)) with (surplus w1). lia.
Qed.

(** C2: two workers are asked for and the broker refuses the second
    subscription.  [Subscribe] returns no channel and the error; one
    monitor is left in the pool; the counter of the wait group of [Close]
    stays at 1 with no goroutine left to take it back.  After any turns of
    the monitor, [Close] times out, returns "output wait group did not
    finish" and does not drain the connection. *)
Theorem Subscribe_failure_leaves_wait_group :
  valueOf halfSubscribed
    = (None, Some (ErrWrap (ErrNats "nats: timeout") "cannot subscribe")) ∧
  pool (worldOf halfSubscribed) = [monitor 0 0 7] ∧
  outputsWg (subscriber (worldOf halfSubscribed)) = 1 ∧
  ∀ (before : list nat) (sched : list (Z * nat)),
    let w1 := worldOf (run secondFailsEnv before (worldOf halfSubscribed)) in
    valueOf (Close secondFailsEnv sched w1) = Ok (Some errOutputWaitGroup) ∧
    ¬ In EvDrain (traceOf (Close secondFailsEnv sched w1)).
Proof.
  split; [reflexivity|]. split; [reflexivity|]. split; [reflexivity|].
  intros before sched.
  apply (Subscribe_failure_blocks_Close secondFailsEnv 7 "orders"
           (newWorld (subscriberOf twoWorkers))
           (ErrWrap (ErrNats "nats: timeout") "cannot subscribe"));
    reflexivity.
Qed.

(** The same two workers with a broker that accepts both: the wait group
    is taken back and [Close] drains the connection. *)
Lemma Subscribe_success_lets_Close_finish :
  let r := Subscribe okEnv 7 "orders" (newWorld (subscriberOf twoWorkers)) in
  valueOf r = (Some 0%nat, None) ∧
  pool (worldOf r) = [monitor 0 0 7; monitor 0 1 7; finisher 0] ∧
  Close okEnv [(1, 0%nat); (2, 0%nat); (3, 0%nat)] (worldOf r)
    = (Ok None,
       {| subscriber := {| config := setDefaults twoWorkers; closed := true;
                           closing := true; outputsWg := 0 |};
          calls := [{| outputWg := 0; outputClosed := true |}];
          pool := []; requests := 2; cancelled := ∅ |},
       [EvLog LDebug "Closing subscriber" None; EvCloseChan ChClosing;
        EvUnsubscribe 0; EvUnsubscribe 1; EvCloseChan (ChOutput 0);
        EvDrain; EvLog LInfo "Subscriber closed" None]).
Proof. repeat split; vm_compute; reflexivity. Qed.

(** ** The closed flag and the closing channel *)

Lemma closedIffClosing_new (env : Env) (c : SSC.t) (s : Subscriber) :
  (NewSubscriberWithNatsConn env c).1.1 = Some s →
  closed s = false ∧ closedIffClosing (newWorld s).
Proof.
  unfold NewSubscriberWithNatsConn, closedIffClosing.
  destruct (Validate (setDefaults c)); [discriminate|].
  destruct (jetStreamResult env); [discriminate|].
  simpl. intros [= <-]. auto.
Qed.

Lemma closedIffClosing_same (w w' : World) :
  sameSubscriber w w' → closedIffClosing w → closedIffClosing w'.
Proof. unfold sameSubscriber, closedIffClosing. intros (_ & -> & ->). auto. Qed.

Lemma closedIffClosing_Close (env : Env) (sched : list (Z * nat))
    (w : World) :
  closedIffClosing w → closedIffClosing (worldOf (Close env sched w)).
Proof.
  intros Hinv. destruct (closed (subscriber w)) eqn:Hc.
  - rewrite Close_closed by exact Hc. exact Hinv.
  - unfold closedIffClosing in Hinv. rewrite Hc in Hinv.
    rewrite (Close_open env sched w Hc (eq_sym Hinv)).
    pose proof (closeWait_spec env sched w) as (_ & Hsame & _).
    eapply closedIffClosing_same; [exact Hsame|reflexivity].
Qed.

(** [processMessage] and [SubscribeInitialize] leave the subscriber as it
    is. *)
Lemma processMessage_world (env : Env) (m : Msg) (call : nat)
    (fwd : ForwardSelect) (wt : Wait) (w : World) :
  worldOf (processMessage env m call fwd wt w) = w.
Proof.
  destruct (closed (subscriber w)) eqn:Hc.
  { rewrite processMessage_closed by exact Hc. reflexivity. }
  destruct (SSC.Unmarshaler (config (subscriber w))) as [u|] eqn:Hu.
  2:{ unfold processMessage, isClosed. unfold_M. rewrite Hc, Hu.
      reflexivity. }
  destruct (Unmarshal u m) as [msg|err] eqn:Hmsg.
  2:{ rewrite (processMessage_unmarshal_error _ _ _ _ _ _ _ _ Hc Hu Hmsg).
      reflexivity. }
  assert (Hfs : fwd = FwdSent ∨ fwd ≠ FwdSent)
    by (destruct fwd; auto; right; discriminate).
  destruct Hfs as [->|Hfwd].
  2:{ destruct (processMessage_discarded env m call fwd wt w u msg
                  Hc Hu Hmsg Hfwd) as [line ->]. reflexivity. }
  destruct (outputOpen w call) eqn:Hopen.
  - apply (processMessage_sent env m call wt w u msg Hc Hu Hmsg Hopen).
  - rewrite (processMessage_send_closed env m call wt w u msg
               Hc Hu Hmsg Hopen). reflexivity.
Qed.

Lemma nakDelivered_world (env : Env) (delivered : list Msg) (w : World) :
  worldOf (nakDelivered env delivered w) = w.
Proof.
  induction delivered as [|m rest IH]; [reflexivity|].
  cbn [nakDelivered]. unfold_M.
  destruct (nakResult env m); simpl;
    destruct (nakDelivered env rest w) as [[v w'] t]; exact IH.
Qed.

(** The callback emits the same events whatever the world. *)
Lemma nakDelivered_trace_any (env : Env) (delivered : list Msg) (w w' : World) :
  traceOf (nakDelivered env delivered w)
    = traceOf (nakDelivered env delivered w').
Proof.
  induction delivered as [|m rest IH]; [reflexivity|].
  cbn [nakDelivered]. unfold_M. unfold traceOf in IH.
  destruct (nakResult env m); simpl;
    destruct (nakDelivered env rest w) as [[v1 w1] t1];
    destruct (nakDelivered env rest w') as [[v2 w2] t2];
    simpl in *; rewrite IH; reflexivity.
Qed.

(** [SubscribeInitialize], path by path. *)
Lemma SubscribeInitialize_run (env : Env)
    (initStream : string -> list event * option error)
    (topic : string) (delivered : list Msg) (early : nat) (w : World) :
  SubscribeInitialize env initStream topic delivered early w
    = match (initStream topic).2, subscribeResult env (requests w) with
      | Some e, _ =>
          (Some (ErrWrap e "cannot initialize subscribe"), w,
           (initStream topic).1)
      | None, Some e =>
          (Some (ErrWrap e "cannot initialize subscribe"), nextRequest w,
           (initStream topic).1
             ++ [EvSubscribeReq
                   (subscribeRequest (config (subscriber w)) topic)])
      | None, None =>
          let callback := traceOf (nakDelivered env delivered w) in
          (Wrap (unsubscribeResult env (requests w))
             "cannot close after subscribe initialize",
           nextRequest w,
           (initStream topic).1
             ++ [EvSubscribeReq
                   (subscribeRequest (config (subscriber w)) topic)]
             ++ take early callback
             ++ [EvUnsubscribe (requests w)]
             ++ drop early callback)
      end.
Proof.
  unfold SubscribeInitialize.
  destruct (initStream topic) as [t0 [e|]]; simpl.
  { unfold_M. simpl. rewrite app_nil_r. reflexivity. }
  pose proof (nakDelivered_trace_any env delivered (nextRequest w) w) as Hcb.
  unfold subscribe. unfold_M. simpl.
  destruct (subscribeResult env (requests w)) as [e|]; simpl.
  { reflexivity. }
  rewrite Hcb, app_nil_r. reflexivity.
Qed.


(** ** SubscribeTimeout *)

Section Oblivious.
Variable T : World -> World.

Lemma oblivious_ret {A : Type} (a : A) : oblivious T (ret a).
Proof. intros w. reflexivity. Qed.

Lemma oblivious_emit (e : event) : oblivious T (emit e).
Proof. intros w. reflexivity. Qed.

Lemma oblivious_emitAll (es : list event) : oblivious T (emitAll es).
Proof. intros w. reflexivity. Qed.

Lemma oblivious_log (lvl : LogLevel) (text : string) (err : option error) :
  oblivious T (log lvl text err).
Proof. intros w. reflexivity. Qed.

Lemma oblivious_modify (f : World -> World) :
  (∀ w, f (T w) = T (f w)) → oblivious T (modify f).
Proof. intros Hf w. unfold modify, onWorld. simpl. rewrite Hf. reflexivity. Qed.

Lemma oblivious_bind {A B : Type} (m : M A) (k : A -> M B) :
  oblivious T m → (∀ a, oblivious T (k a)) → oblivious T (bind m k).
Proof.
  intros Hm Hk w. unfold bind. rewrite Hm.
  destruct (m w) as [[a w1] t1]. unfold onWorld, valueOf, worldOf, traceOf.
  simpl. rewrite Hk. destruct (k a w1) as [[b w2] t2]. reflexivity.
Qed.

(** Reading the world is allowed when what is done with it does not
    depend on the change. *)
Lemma oblivious_get {A : Type} (k : World -> M A) :
  (∀ w, k (T w) = k w) → (∀ w, oblivious T (k w)) →
  oblivious T (bind get k).
Proof.
  intros Hsame Hk w. unfold bind, get. rewrite Hsame, Hk.
  destruct (k w w) as [[b w2] t2]. reflexivity.
Qed.
End Oblivious.

Create HintDb oblivious.

(** Splits a sequence [m ;;; k] without unfolding what [m] and [k] are. *)
Ltac ob_bind :=
  lazymatch goal with
  | |- oblivious _ (bind _ _) => apply oblivious_bind; [|intros ?]
  end.

#[local] Hint Resolve oblivious_ret oblivious_emit oblivious_emitAll
  oblivious_log oblivious_bind : oblivious.

Section SubscribeTimeout.
Variable t : Z.
Variable env : Env.
Let T : World -> World := withSubscribeTimeoutW t.

Lemma oblivious_subscribe (topic : string) : oblivious T (subscribe env topic).
Proof.
  unfold subscribe. apply oblivious_get; [reflexivity|]. intros w.
  repeat ob_bind; auto with oblivious.
  - apply oblivious_modify. reflexivity.
  - destruct (subscribeResult env (requests w)); auto with oblivious.
Qed.

Lemma oblivious_startSubscribers (ctx : nat) (topic : string) (call n : nat) :
  oblivious T (startSubscribers env ctx topic call n).
Proof.
  induction n as [|n IH]; cbn [startSubscribers]; auto with oblivious.
  repeat ob_bind; auto with oblivious.
  - apply oblivious_modify. reflexivity.
  - apply oblivious_subscribe.
  - match goal with r : (_ + _)%type |- _ => destruct r end;
      auto with oblivious.
    apply oblivious_bind; [|intros ?; exact IH].
    apply oblivious_modify. reflexivity.
Qed.

Lemma oblivious_Subscribe (ctx : nat) (topic : string) :
  oblivious T (Subscribe env ctx topic).
Proof.
  unfold Subscribe. apply oblivious_get; [reflexivity|]. intros w.
  repeat ob_bind; auto with oblivious.
  - apply oblivious_modify. reflexivity.
  - apply oblivious_modify. reflexivity.
  - apply oblivious_startSubscribers.
  - match goal with r : option error |- _ => destruct r end;
      auto with oblivious.
    apply oblivious_bind; [|intros ?; auto with oblivious].
    apply oblivious_modify. reflexivity.
Qed.

Lemma oblivious_runMonitor (call sub ctx : nat) :
  oblivious T (runMonitor env call sub ctx).
Proof.
  unfold runMonitor. apply oblivious_get; [reflexivity|]. intros w.
  destruct (closing (subscriber w) || bool_decide (ctx ∈ cancelled w));
    auto with oblivious.
  repeat ob_bind; auto with oblivious.
  - destruct (unsubscribeResult env sub); auto with oblivious.
  - apply oblivious_modify. reflexivity.
Qed.

Lemma oblivious_runFinisher (call : nat) : oblivious T (runFinisher call).
Proof.
  unfold runFinisher. apply oblivious_get; [reflexivity|]. intros w.
  destruct (calls w !! call) as [c|]; auto with oblivious.
  destruct (outputWg c =? 0); auto with oblivious.
  repeat ob_bind; auto with oblivious;
    apply oblivious_modify; reflexivity.
Qed.

Lemma oblivious_runGoroutine (i : nat) : oblivious T (runGoroutine env i).
Proof.
  unfold runGoroutine. apply oblivious_get; [reflexivity|]. intros w.
  destruct (pool w !! i) as [g|]; auto with oblivious.
  apply oblivious_bind.
  - destruct g; [apply oblivious_runMonitor|apply oblivious_runFinisher].
  - intros [|]; auto with oblivious. apply oblivious_modify. reflexivity.
Qed.

Lemma oblivious_runUntil (limit : Z) (sched : list (Z * nat)) :
  oblivious T (runUntil env limit sched).
Proof.
  induction sched as [|[at_ i] rest IH]; cbn [runUntil]; auto with oblivious.
  destruct (limit <=? at_); auto with oblivious.
  apply oblivious_bind; [apply oblivious_runGoroutine|intros ?; exact IH].
Qed.

Lemma oblivious_WaitGroupTimeout (timeout now : Z) (sched : list (Z * nat)) :
  oblivious T (WaitGroupTimeout env timeout now sched).
Proof.
  revert now.
  induction sched as [|[at_ i] rest IH]; intros now; cbn [WaitGroupTimeout];
    (apply oblivious_get; [reflexivity|]); intros w;
    destruct (outputsWg (subscriber w) =? 0); auto with oblivious.
  - destruct (_ || _);
      (apply oblivious_bind; [apply oblivious_runUntil|intros ?]);
      auto with oblivious.
  - destruct (_ || _);
      (apply oblivious_bind; [apply oblivious_runUntil|intros ?]);
      auto with oblivious.
  - destruct (timeout <=? at_); auto with oblivious.
    apply oblivious_bind;
      [apply oblivious_runGoroutine|intros ?; apply IH].
Qed.

Lemma oblivious_Close (sched : list (Z * nat)) :
  oblivious T (Close env sched).
Proof.
  unfold Close. apply oblivious_get; [reflexivity|]. intros w.
  destruct (closed (subscriber w)); auto with oblivious.
  apply oblivious_bind; [apply oblivious_modify; reflexivity|intros ?].
  apply oblivious_bind; [auto with oblivious|intros ?].
  destruct (closing (subscriber w)); auto with oblivious.
  apply oblivious_bind; [apply oblivious_modify; reflexivity|intros ?].
  apply oblivious_bind; [auto with oblivious|intros ?].
  apply oblivious_bind; [apply oblivious_WaitGroupTimeout|intros [|]];
    auto with oblivious.
  apply oblivious_bind; [auto with oblivious|intros ?].
  destruct (drainResult env); auto with oblivious.
Qed.

Lemma oblivious_awaitAck (m : Msg) (sel : AckSelect) :
  oblivious T (awaitAck env m sel).
Proof.
  destruct sel; unfold awaitAck; auto with oblivious.
  - apply oblivious_bind; [auto with oblivious|intros ?].
    destruct (ackResult env m); auto with oblivious.
  - apply oblivious_bind; [auto with oblivious|intros ?].
    destruct (nakResult env m); auto with oblivious.
Qed.

Lemma oblivious_processMessage (m : Msg) (call : nat)
    (fwd : ForwardSelect) (wt : Wait) :
  oblivious T (processMessage env m call fwd wt).
Proof.
  unfold processMessage. apply oblivious_bind.
  { unfold isClosed. apply oblivious_get; [reflexivity|].
    auto with oblivious. }
  intros [|]; auto with oblivious.
  apply oblivious_bind; [auto with oblivious|intros ?].
  apply oblivious_get; [reflexivity|]. intros w.
  destruct (SSC.Unmarshaler (config (subscriber w))) as [u|];
    auto with oblivious.
  apply oblivious_bind; [auto with oblivious|intros ?].
  destruct (Unmarshal u m) as [msg|err]; auto with oblivious.
  apply oblivious_bind; [auto with oblivious|intros ?].
  destruct fwd; auto with oblivious.
  destruct (outputOpen w call); auto with oblivious.
  apply oblivious_bind; [auto with oblivious|intros ?].
  apply oblivious_bind; [auto with oblivious|intros ?].
  apply oblivious_awaitAck.
Qed.

Lemma oblivious_nakDelivered (delivered : list Msg) :
  oblivious T (nakDelivered env delivered).
Proof.
  induction delivered as [|m rest IH]; cbn [nakDelivered];
    auto with oblivious.
  repeat ob_bind; auto with oblivious.
  destruct (nakResult env m); auto with oblivious.
Qed.

Lemma oblivious_SubscribeInitialize
    (initStream : string -> list event * option error)
    (topic : string) (delivered : list Msg) (early : nat) :
  oblivious T (SubscribeInitialize env initStream topic delivered early).
Proof.
  intros w. rewrite !SubscribeInitialize_run. cbv zeta.
  rewrite (nakDelivered_trace_any env delivered (T w) w).
  change (requests (T w)) with (requests w).
  destruct (initStream topic).2; [reflexivity|].
  destruct (subscribeResult env (requests w)); reflexivity.
Qed.
End SubscribeTimeout.

Lemma setDefaults_withSubscribeTimeout (t : Z) (c : SSC.t) :
  setDefaults (withSubscribeTimeout t c)
    = withSubscribeTimeout (if t <=? 0 then Second * 30 else t) (setDefaults c).
Proof. reflexivity. Qed.

Lemma Validate_withSubscribeTimeout (t : Z) (c : SSC.t) :
  Validate (withSubscribeTimeout t c) = Validate c.
Proof. reflexivity. Qed.

(** The two other timeouts are read: an ack that comes after 40 s is late
    for the default AckWaitTimeout and in time for 60 s; turns that come
    after 31 s are late for the default CloseTimeout and in time for
    60 s. *)
Lemma AckWaitTimeout_is_read :
  brokerCalls (traceOf (processMessage okEnv order 0 FwdSent ackedLate
                          (worldOf (Subscribe okEnv 7 "orders"
                                      (newWorld (subscriberOf oneWorker))))))
    = [] ∧
  brokerCalls (traceOf (processMessage okEnv order 0 FwdSent ackedLate
                          (worldOf (Subscribe okEnv 7 "orders"
                                      (newWorld (subscriberOf patientWorker))))))
    = [EvAck order].
Proof. split; reflexivity. Qed.

Lemma CloseTimeout_is_read :
  valueOf (Close okEnv lateTurns
             (worldOf (Subscribe okEnv 7 "orders"
                         (newWorld (subscriberOf oneWorker)))))
    = Ok (Some errOutputWaitGroup) ∧
  valueOf (Close okEnv lateTurns
             (worldOf (Subscribe okEnv 7 "orders"
                         (newWorld (subscriberOf patientWorker)))))
    = Ok None.
Proof. split; reflexivity. Qed.

(** C10: SubscribeTimeout has no effect.  A subscriber built from a
    configuration with another SubscribeTimeout is the same subscriber up
    to that field of its configuration, built with the same calls and the
    same error; and from worlds that differ in that field only,
    [Subscribe], [SubscribeInitialize], [processMessage], [Close] and the
    goroutines return the same values, emit the same events and end in
    worlds that differ in that field only. *)
Theorem SubscribeTimeout_has_no_effect (t : Z) (env : Env) :
  (∀ c : SSC.t,
     NewSubscriberWithNatsConn env (withSubscribeTimeout t c)
       = ((setConfig (withSubscribeTimeout
                        (if t <=? 0 then Second * 30 else t))
             <$> (NewSubscriberWithNatsConn env c).1.1,
           (NewSubscriberWithNatsConn env c).1.2),
          (NewSubscriberWithNatsConn env c).2)) ∧
  (∀ ctx topic w,
     Subscribe env ctx topic (withSubscribeTimeoutW t w)
       = onWorld (withSubscribeTimeoutW t) (Subscribe env ctx topic w)) ∧
  (∀ initStream topic delivered early w,
     SubscribeInitialize env initStream topic delivered early
       (withSubscribeTimeoutW t w)
       = onWorld (withSubscribeTimeoutW t)
           (SubscribeInitialize env initStream topic delivered early w)) ∧
  (∀ m call fwd wt w,
     processMessage env m call fwd wt (withSubscribeTimeoutW t w)
       = onWorld (withSubscribeTimeoutW t)
           (processMessage env m call fwd wt w)) ∧
  (∀ sched w,
     Close env sched (withSubscribeTimeoutW t w)
       = onWorld (withSubscribeTimeoutW t) (Close env sched w)) ∧
  (∀ i w,
     runGoroutine env i (withSubscribeTimeoutW t w)
       = onWorld (withSubscribeTimeoutW t) (runGoroutine env i w)).
Proof.
  split.
  { intros c. unfold NewSubscriberWithNatsConn.
    rewrite setDefaults_withSubscribeTimeout, Validate_withSubscribeTimeout.
    destruct (Validate (setDefaults c)); [reflexivity|].
    destruct (jetStreamResult env); reflexivity. }
  split; [intros; apply oblivious_Subscribe|].
  split; [intros; apply oblivious_SubscribeInitialize|].
  split; [intros; apply oblivious_processMessage|].
  split; [intros; apply oblivious_Close|].
  intros; apply oblivious_runGoroutine.
Qed.


(** * Further properties *)

(** ** Defaults and validation *)

Lemma setDefaults_positive (c : SSC.t) :
  1 <= SSC.SubscribersCount (setDefaults c).
Proof. simpl. destruct (Z.leb_spec (SSC.SubscribersCount c) 0); lia. Qed.

(** Defaulting does not change the verdict of [Validate]. *)
Lemma Validate_setDefaults (c : SSC.t) :
  Validate (setDefaults c) = Validate c.
Proof.
  unfold Validate. simpl. destruct (SSC.Unmarshaler c); [|reflexivity].
  destruct (Z.leb_spec (SSC.SubscribersCount c) 0) as [Hn|Hn];
    [|reflexivity].
  replace (1 <? SSC.SubscribersCount c) with false
    by (symmetry; apply Z.ltb_ge; lia).
  reflexivity.
Qed.

(** X1: [setDefaults] leaves a configuration with at least one subscriber
    and three positive timeouts; it keeps every value that was positive
    and puts 1, or 30 s, where it was not; a second application changes
    nothing; and it does not change the verdict of [Validate]: a
    configuration is rejected after defaulting exactly when it would be
    rejected before, with the same error. *)
Theorem setDefaults_idempotent (c : SSC.t) :
  setDefaults (setDefaults c) = setDefaults c ∧
  Validate (setDefaults c) = Validate c ∧
  1 <= SSC.SubscribersCount (setDefaults c) ∧
  0 < SSC.CloseTimeout (setDefaults c) ∧
  0 < SSC.AckWaitTimeout (setDefaults c) ∧
  0 < SSC.SubscribeTimeout (setDefaults c) ∧
  SSC.SubscribersCount (setDefaults c)
    = (if 0 <? SSC.SubscribersCount c then SSC.SubscribersCount c else 1) ∧
  SSC.CloseTimeout (setDefaults c)
    = (if 0 <? SSC.CloseTimeout c then SSC.CloseTimeout c else Second * 30) ∧
  SSC.AckWaitTimeout (setDefaults c)
    = (if 0 <? SSC.AckWaitTimeout c then SSC.AckWaitTimeout c
       else Second * 30) ∧
  SSC.SubscribeTimeout (setDefaults c)
    = (if 0 <? SSC.SubscribeTimeout c then SSC.SubscribeTimeout c
       else Second * 30).
Proof.
  split; [|split; [apply Validate_setDefaults|]];
  destruct c as [u q d n a cl st]; unfold setDefaults, Second; simpl;
  destruct (Z.leb_spec n 0), (Z.leb_spec a 0), (Z.leb_spec cl 0),
    (Z.leb_spec st 0);
    repeat match goal with
           | |- context [?x <=? 0] => destruct (Z.leb_spec x 0); try lia
           | |- context [0 <? ?x] => destruct (Z.ltb_spec 0 x); try lia
           end;
    repeat split; try lia; reflexivity.
Qed.

(** What a subscriber that [NewSubscriberWithNatsConn] returns is made
    of. *)
Lemma NewSubscriberWithNatsConn_built (env : Env) (c : SSC.t) (s : Subscriber) :
  (NewSubscriberWithNatsConn env c).1.1 = Some s →
  s = subscriberOf c ∧ Validate c = None ∧ jetStreamResult env = None.
Proof.
  unfold NewSubscriberWithNatsConn. rewrite Validate_setDefaults.
  destruct (Validate c); [discriminate|].
  destruct (jetStreamResult env); [discriminate|].
  simpl. intros [= <-]. auto.
Qed.


(** X2: [NewSubscriberWithNatsConn] returns either a subscriber or an
    error, never both and never neither.  It returns a subscriber exactly
    when the configuration is valid and [conn.JetStream()] succeeds; that
    subscriber holds the defaulted configuration, is not closed, has an
    empty wait group, an unmarshaler, at least one worker, and a queue
    group whenever it has more than one worker. *)
Theorem NewSubscriberWithNatsConn_result (env : Env) (c : SSC.t) :
  let r := NewSubscriberWithNatsConn env c in
  (r.1.1 = None ↔ r.1.2 ≠ None) ∧
  (r.1.1 ≠ None ↔ Validate c = None ∧ jetStreamResult env = None) ∧
  (∀ e, Validate c = None → jetStreamResult env = Some e →
        r = ((None, Some e), [EvJetStream])) ∧
  (∀ s, r.1.1 = Some s →
        s = subscriberOf c ∧
        SSC.Unmarshaler (config s) ≠ None ∧
        1 <= SSC.SubscribersCount (config s) ∧
        (1 < SSC.SubscribersCount (config s) → SSC.QueueGroup (config s) ≠ "")).
Proof.
  cbv zeta. unfold NewSubscriberWithNatsConn.
  rewrite Validate_setDefaults.
  destruct (Validate c) as [ve|] eqn:Hv.
  { simpl. naive_solver. }
  destruct (jetStreamResult env) as [je|] eqn:Hj; simpl.
  { naive_solver. }
  split; [naive_solver|]. split; [naive_solver|]. split; [naive_solver|].
  intros s [= <-]. split; [reflexivity|].
  pose proof (setDefaults_positive c) as Hn.
  unfold Validate in Hv. simpl.
  destruct (SSC.Unmarshaler c) as [u|]; [|discriminate].
  split; [discriminate|]. split; [exact Hn|].
  intros Hgt Hq. rewrite Hq in Hv. simpl in Hv.
  apply setDefaults_SubscribersCount in Hgt.
  apply Z.ltb_lt in Hgt. rewrite Hgt in Hv. discriminate.
Qed.

Lemma NewSubscriberWithNatsConn_result_witness :
  (NewSubscriberWithNatsConn okEnv twoWorkers).1.1
    = Some (subscriberOf twoWorkers) ∧
  SSC.QueueGroup (config (subscriberOf twoWorkers)) ≠ "".
Proof.
  pose proof (NewSubscriberWithNatsConn_result okEnv twoWorkers)
    as (_ & _ & _ & Hs).
  destruct (Hs (subscriberOf twoWorkers) eq_refl) as (_ & _ & _ & Hq).
  split; [reflexivity|]. apply Hq. reflexivity.
Defined.


(** ** The calculators *)

Lemma hasDot_app (a b : string) : hasDot (a +:+ b) = hasDot a || hasDot b.
Proof.
  induction a as [|c a IH]; simpl; [reflexivity|].
  rewrite IH, orb_assoc. reflexivity.
Qed.

Lemma replace_dots_no_dot (s : string) : hasDot (replace_dots s) = false.
Proof.
  induction s as [|c s IH]; simpl; [reflexivity|].
  rewrite IH, orb_false_r.
  destruct (Ascii.eqb c ".") eqn:Hc; [reflexivity|exact Hc].
Qed.

Lemma replace_dots_length (s : string) :
  String.length (replace_dots s) = String.length s.
Proof. induction s as [|c s IH]; simpl; [reflexivity|]. rewrite IH; reflexivity. Qed.

Lemma replace_dots_id (s : string) : hasDot s = false → replace_dots s = s.
Proof.
  induction s as [|c s IH]; simpl; [reflexivity|].
  intros [Hc Hs]%orb_false_iff. rewrite Hc, (IH Hs). reflexivity.
Qed.

(** X3: the default durable name is the given name, an underscore and the
    topic with every dot turned into an underscore: the topic adds no dot
    to it, it is as long as its parts, a topic without dots is kept as it
    is, and two topics that differ only in dots against underscores get
    the same durable name. *)
Theorem defaultDurableNameCalculator_dots (durableName topic : string) :
  hasDot (defaultDurableNameCalculator durableName topic) = hasDot durableName ∧
  String.length (defaultDurableNameCalculator durableName topic)
    = (String.length durableName + 1 + String.length topic)%nat ∧
  (hasDot topic = false →
   defaultDurableNameCalculator durableName topic
     = durableName +:+ "_" +:+ topic) ∧
  defaultDurableNameCalculator durableName (replace_dots topic)
    = defaultDurableNameCalculator durableName topic.
Proof.
  unfold defaultDurableNameCalculator. cbv zeta.
  split; [|split; [|split]].
  - rewrite !hasDot_app, replace_dots_no_dot. simpl.
    rewrite orb_false_r. try reflexivity.
  - rewrite !string_app_length, replace_dots_length. simpl. lia.
  - intros Hd. rewrite (replace_dots_id _ Hd). reflexivity.
  - rewrite (replace_dots_id (replace_dots topic)
               (replace_dots_no_dot topic)). reflexivity.
Qed.

Lemma defaultDurableNameCalculator_dots_witness :
  defaultDurableNameCalculator "consumer" "orders"
    = "consumer" +:+ "_" +:+ "orders".
Proof.
  pose proof (defaultDurableNameCalculator_dots "consumer" "orders")
    as (_ & _ & H & _).
  apply H. reflexivity.
Defined.

Lemma string_app_nil_l (s : string) : "" +:+ s = s.
Proof. reflexivity. Qed.

Lemma string_app_cons (c : ascii) (a s : string) :
  String c a +:+ s = String c (a +:+ s).
Proof. reflexivity. Qed.

(** Two strings joined by a dot come apart in one way when the part after
    the dot has none; and when the part before it has none. *)
Lemma dot_join_inj_r (a1 a2 b1 b2 : string) :
  hasDot b1 = false → hasDot b2 = false →
  a1 +:+ "." +:+ b1 = a2 +:+ "." +:+ b2 → a1 = a2 ∧ b1 = b2.
Proof.
  intros Hb1 Hb2. revert a2.
  induction a1 as [|c a1 IH]; intros [|c2 a2] H;
    repeat (rewrite string_app_nil_l in H || rewrite string_app_cons in H).
  - injection H as H. auto.
  - injection H as Hc H. subst b1. rewrite hasDot_app in Hb1.
    simpl in Hb1. rewrite orb_true_r in Hb1. discriminate.
  - injection H as Hc H. subst b2. rewrite hasDot_app in Hb2.
    simpl in Hb2. rewrite orb_true_r in Hb2. discriminate.
  - injection H as Hc H. destruct (IH _ H) as [-> ->]. subst. auto.
Qed.

Lemma dot_join_inj_l (a1 a2 b1 b2 : string) :
  hasDot a1 = false → hasDot a2 = false →
  a1 +:+ "." +:+ b1 = a2 +:+ "." +:+ b2 → a1 = a2 ∧ b1 = b2.
Proof.
  revert a2.
  induction a1 as [|c a1 IH]; intros [|c2 a2] H1 H2 H; simpl in H1, H2;
    repeat (rewrite string_app_nil_l in H || rewrite string_app_cons in H).
  - injection H as H. auto.
  - injection H as Hc H. subst c2.
    apply orb_false_iff in H2 as [H2 _]. discriminate.
  - injection H as Hc H. subst c.
    apply orb_false_iff in H1 as [H1 _]. discriminate.
  - injection H as Hc H. subst c2.
    apply orb_false_iff in H1 as [_ H1]. apply orb_false_iff in H2 as [_ H2].
    destruct (IH _ H1 H2 H) as [-> ->]. auto.
Qed.

(** X4: for message ids without a dot, the publish subject tells the topic
    and the id: two publish subjects are equal only for the same topic and
    the same id.  For one topic this holds for every id. *)
Theorem PublishSubject_injective (topic1 topic2 id1 id2 : string) :
  (hasDot id1 = false → hasDot id2 = false →
   PublishSubject topic1 id1 = PublishSubject topic2 id2 →
   topic1 = topic2 ∧ id1 = id2) ∧
  (PublishSubject topic1 id1 = PublishSubject topic1 id2 → id1 = id2).
Proof.
  split.
  - apply dot_join_inj_r.
  - unfold PublishSubject. intros H.
    induction topic1 as [|c t IH];
      repeat (rewrite string_app_nil_l in H || rewrite string_app_cons in H);
      injection H as H.
    + exact H.
    + exact (IH H).
Qed.

Lemma PublishSubject_injective_witness :
  hasDot "a1" = false ∧
  PublishSubject "orders" "a1" = "orders.a1" ∧
  ("orders" = "orders" ∧ "a1" = "a1").
Proof.
  split; [reflexivity|]. split; [reflexivity|].
  apply (PublishSubject_injective "orders" "orders" "a1" "a1"); reflexivity.
Defined.

(** X5: the default queue group is the configured group, a dot and the
    topic.  For groups without a dot it tells the group and the topic
    apart: two are equal only for the same group and the same topic; so
    one group gives different topics different queue groups. *)
Theorem defaultQueueGroupCalculator_injective
    (group1 group2 topic1 topic2 : string) :
  hasDot group1 = false → hasDot group2 = false →
  defaultQueueGroupCalculator group1 topic1
    = defaultQueueGroupCalculator group2 topic2 →
  group1 = group2 ∧ topic1 = topic2.
Proof. apply dot_join_inj_l. Qed.

Lemma defaultQueueGroupCalculator_injective_witness :
  hasDot "g1" = false ∧
  defaultQueueGroupCalculator "g1" "orders" = "g1.orders" ∧
  ("g1" = "g1" ∧ "orders" = "orders").
Proof.
  split; [reflexivity|]. split; [reflexivity|].
  apply (defaultQueueGroupCalculator_injective "g1" "g1" "orders" "orders");
    reflexivity.
Defined.

(** ** More on processMessage *)

Lemma Close_sets_closed (env : Env) (sched : list (Z * nat)) (w : World) :
  closed (subscriber (worldOf (Close env sched w))) = true.
Proof.
  destruct (closed (subscriber w)) eqn:Hc.
  { rewrite Close_closed by exact Hc. exact Hc. }
  destruct (closing (subscriber w)) eqn:Hg.
  - unfold Close. unfold_M. rewrite Hc, Hg. reflexivity.
  - rewrite (Close_open env sched w Hc Hg).
    pose proof (closeWait_spec env sched w) as (_ & (_ & Hcl & _) & _).
    exact Hcl.
Qed.

(** X6: after [Close], whatever it returned, a delivery is ignored:
    [processMessage] returns at once, without calling [Unmarshal], without
    logging, without sending and without a broker call. *)
Theorem processMessage_after_Close (env env' : Env) (sched : list (Z * nat))
    (m : Msg) (call : nat) (fwd : ForwardSelect) (wt : Wait) (w : World) :
  let w' := worldOf (Close env sched w) in
  processMessage env' m call fwd wt w' = (Ok tt, w', []).
Proof.
  cbv zeta. apply processMessage_closed. apply Close_sets_closed.
Qed.



(** ** SubscribeInitialize *)

Lemma nakDelivered_trace (env : Env) (delivered : list Msg) (w : World) :
  brokerCalls (traceOf (nakDelivered env delivered w)) = map EvNak delivered ∧
  forallb isNakOrLog (traceOf (nakDelivered env delivered w)) = true.
Proof.
  induction delivered as [|m rest [IHb IHf]]; [split; reflexivity|].
  cbn [nakDelivered]. unfold_M. unfold brokerCalls in *.
  destruct (nakResult env m); simpl;
    destruct (nakDelivered env rest w) as [[v w'] t]; simpl in *;
    rewrite IHb, IHf; split; reflexivity.
Qed.

(** X9: [SubscribeInitialize] starts no goroutine and leaves the
    subscriber and its wait groups alone.  When [initStream] fails it makes
    no subscription request; when the request fails it returns that error,
    wrapped.  When the request succeeds it calls [Unsubscribe] on the
    throwaway subscription, once, and returns the error of that call,
    wrapped, or nil.  The callback naks every message that the client hands
    to it, once and in order, acks none and sends none to any output
    channel; [SubscribeInitialize] does not wait for it, so the call of
    [Unsubscribe] comes anywhere among the events of the callback: after
    the first [early] of them. *)
Theorem SubscribeInitialize_spec (env : Env)
    (initStream : string -> list event * option error)
    (topic : string) (delivered : list Msg) (early : nat) (w : World) :
  let r := SubscribeInitialize env initStream topic delivered early w in
  let req := EvSubscribeReq (subscribeRequest (config (subscriber w)) topic) in
  subscriber (worldOf r) = subscriber w ∧
  pool (worldOf r) = pool w ∧
  calls (worldOf r) = calls w ∧
  match (initStream topic).2, subscribeResult env (requests w) with
  | Some e, _ =>
      valueOf r = Some (ErrWrap e "cannot initialize subscribe") ∧
      worldOf r = w ∧ traceOf r = (initStream topic).1
  | None, Some e =>
      valueOf r = Some (ErrWrap e "cannot initialize subscribe") ∧
      traceOf r = (initStream topic).1 ++ [req]
  | None, None =>
      valueOf r = Wrap (unsubscribeResult env (requests w))
                    "cannot close after subscribe initialize" ∧
      ∃ before after,
        traceOf r = (initStream topic).1 ++ [req] ++ before
                      ++ [EvUnsubscribe (requests w)] ++ after ∧
        brokerCalls (before ++ after) = map EvNak delivered ∧
        forallb isNakOrLog (before ++ after) = true ∧
        length before = Nat.min early (length (before ++ after))
  end.
Proof.
  cbv zeta. rewrite SubscribeInitialize_run.
  destruct (initStream topic).2 as [e|].
  { repeat split; reflexivity. }
  destruct (subscribeResult env (requests w)) as [e|].
  { repeat split; reflexivity. }
  cbv zeta. unfold valueOf, worldOf, traceOf at 1. cbn [fst snd].
  split; [reflexivity|]. split; [reflexivity|]. split; [reflexivity|].
  split; [reflexivity|].
  pose proof (nakDelivered_trace env delivered w) as [Hb Hf].
  exists (take early (traceOf (nakDelivered env delivered w))),
    (drop early (traceOf (nakDelivered env delivered w))).
  rewrite take_drop. split; [reflexivity|]. split; [exact Hb|].
  split; [exact Hf|]. apply length_take.
Qed.

(** ** More on Close *)

(** X10: when the wait group finishes in time, [Close] drains the
    connection once and returns the error of the drain, wrapped, or nil.
    A failed drain is not taken back and not tried again: the closed flag
    stays set, and every later [Close] returns nil without a call, even
    where a drain would now succeed. *)
Theorem Close_drain_is_final (env env' : Env) (sched sched' : list (Z * nat))
    (w : World) :
  closed (subscriber w) = false → closedIffClosing w →
  valueOf (closeWait env sched w) = false →
  let r := Close env sched w in
  valueOf r = Ok (Wrap (drainResult env) "cannot close conn") ∧
  count_occ event_eq_dec (traceOf r) EvDrain = 1%nat ∧
  closed (subscriber (worldOf r)) = true ∧
  Close env' sched' (worldOf r) = (Ok None, worldOf r, []).
Proof.
  intros Hc Hinv Hfin. cbv zeta.
  pose proof (Close_sets_closed env sched w) as Hclosed.
  split; [|split; [|split; [exact Hclosed|]]].
  - apply Close_finished_drains; assumption.
  - unfold closedIffClosing in Hinv. rewrite Hc in Hinv.
    rewrite (Close_open env sched w Hc (eq_sym Hinv)).
    pose proof (closeWait_spec env sched w) as (Ht & _).
    cbv zeta. rewrite Hfin. unfold traceOf at 1. simpl.
    rewrite count_occ_app.
    assert (Hno : count_occ event_eq_dec (traceOf (closeWait env sched w))
                    EvDrain = 0%nat).
    { apply count_occ_not_In. apply byGoroutine_not_Drain. exact Ht. }
    rewrite Hno. reflexivity.
  - apply Close_closed. exact Hclosed.
Qed.

Lemma Close_drain_is_final_witness :
  valueOf (Close okEnv promptTurns subscribedWorld) = Ok None.
Proof.
  apply (Close_drain_is_final okEnv okEnv promptTurns [] subscribedWorld);
    reflexivity.
Defined.

(** ** More on Subscribe *)

Lemma monitorsFrom_S (call first ctx n : nat) :
  monitorsFrom call first ctx (S n)
    = monitor call first ctx :: monitorsFrom call (S first) ctx n.
Proof.
  unfold monitorsFrom. simpl. rewrite Nat.add_0_r. f_equal.
  rewrite <- seq_shift, map_map. apply map_ext. intros i.
  f_equal. lia.
Qed.

(** The loop, when the broker accepts every request. *)
Lemma startSubscribers_accepted (env : Env) (ctx : nat) (topic : string)
    (call n : nat) (w : World) (c : Subscription) :
  (∀ i, subscribeResult env i = None) →
  calls w !! call = Some c →
  startSubscribers env ctx topic call n w
    = (None,
       {| subscriber := subscriber w;
          calls := <[call := outputWgAdd (Z.of_nat n) c]> (calls w);
          pool := pool w ++ monitorsFrom call (requests w) ctx n;
          requests := (requests w + n)%nat;
          cancelled := cancelled w |},
       concat (replicate n (startEvents (config (subscriber w)) topic))).
Proof.
  intros Hok. revert w c. induction n as [|n IH]; intros w c Hc.
  - simpl. unfold ret. f_equal. f_equal. destruct w as [s cs p r cn].
    simpl in *. f_equal.
    + rewrite list_insert_id; [reflexivity|].
      rewrite Hc. f_equal. destruct c. unfold outputWgAdd. simpl.
      f_equal. lia.
    + unfold monitorsFrom. simpl. rewrite app_nil_r. reflexivity.
    + lia.
  - cbn [startSubscribers]. unfold subscribe. unfold_M.
    unfold onCall at 1 2 3. unfold setCalls at 1 2 3. simpl.
    rewrite Hc, Hok. simpl.
    set (w1 := setPool _ _).
    assert (Hc1 : calls w1 !! call = Some (outputWgAdd 1 c)).
    { subst w1. simpl. apply list_lookup_insert_eq.
      apply lookup_lt_Some in Hc. exact Hc. }
    rewrite (IH w1 _ Hc1). subst w1. simpl.
    f_equal. f_equal.
    rewrite list_insert_insert_eq, monitorsFrom_S, <- app_assoc. simpl.
    f_equal; [|lia].
    f_equal. unfold outputWgAdd. simpl. f_equal. lia.
Qed.

(** X11: when the broker accepts every subscription request, [Subscribe]
    returns the new output channel and no error; it has sent one request
    per configured subscriber, each the request of [subscribe] for the
    topic, and nothing else but the log line before each; it leaves one
    monitor per subscription and one finisher in the pool, the call's wait
    group at the number of subscribers, and the wait group of [Close] one
    up. *)
Theorem Subscribe_accepted (env : Env) (ctx : nat) (topic : string)
    (w : World) :
  (∀ i, subscribeResult env i = None) →
  let n := Z.to_nat (SSC.SubscribersCount (config (subscriber w))) in
  let call := length (calls w) in
  Subscribe env ctx topic w
    = ((Some call, None),
       {| subscriber := outputsWgAdd 1 (subscriber w);
          calls := calls w ++ [{| outputWg := Z.of_nat n;
                                  outputClosed := false |}];
          pool := pool w ++ monitorsFrom call (requests w) ctx n
                         ++ [finisher call];
          requests := (requests w + n)%nat;
          cancelled := cancelled w |},
       concat (replicate n (startEvents (config (subscriber w)) topic))).
Proof.
  intros Hok. cbv zeta. unfold Subscribe. unfold_M. simpl.
  rewrite (startSubscribers_accepted env ctx topic (length (calls w)) _ _
             {| outputWg := 0; outputClosed := false |} Hok).
  2:{ simpl. rewrite lookup_app_r by lia.
      rewrite Nat.sub_diag. reflexivity. }
  simpl. rewrite app_nil_r. f_equal. f_equal.
  rewrite insert_app_r_alt by lia. rewrite Nat.sub_diag.
  unfold setPool, outputWgAdd. simpl. rewrite <- app_assoc.
  reflexivity.
Qed.

Lemma Subscribe_accepted_witness :
  valueOf (Subscribe okEnv 7 "orders" (newWorld (subscriberOf twoWorkers)))
    = (Some 0%nat, None) ∧
  pool (worldOf (Subscribe okEnv 7 "orders"
                   (newWorld (subscriberOf twoWorkers))))
    = [monitor 0 0 7; monitor 0 1 7; finisher 0].
Proof.
  rewrite (Subscribe_accepted okEnv 7 "orders"
             (newWorld (subscriberOf twoWorkers))).
  - split; reflexivity.
  - reflexivity.
Defined.

(** ** The calls and their goroutines *)

Lemma count_nonneg (f : goroutine -> bool) (p : list goroutine) :
  0 <= count f p.
Proof. unfold count. lia. Qed.

Lemma count_app (f : goroutine -> bool) (p q : list goroutine) :
  count f (p ++ q) = count f p + count f q.
Proof. unfold count. rewrite List.filter_app, length_app. lia. Qed.

Lemma count_delete (f : goroutine -> bool) (p : list goroutine) (i : nat)
    (g : goroutine) :
  p !! i = Some g →
  count f p = count f (delete i p) + (if f g then 1 else 0).
Proof.
  unfold count. revert i. induction p as [|x p IH]; intros i Hi.
  - discriminate.
  - destruct i as [|i]; simpl in *.
    + injection Hi as ->. destruct (f g); simpl; lia.
    + specialize (IH i Hi). destruct (f x); simpl; lia.
Qed.

Lemma count_none (f : goroutine -> bool) (p : list goroutine) :
  Forall (fun g => f g = false) p → count f p = 0.
Proof.
  unfold count. induction 1 as [|x p Hx _ IH]; [reflexivity|].
  simpl. rewrite Hx. exact IH.
Qed.

Lemma count_all (f : goroutine -> bool) (p : list goroutine) :
  Forall (fun g => f g = true) p → count f p = Z.of_nat (length p).
Proof.
  unfold count. induction 1 as [|x p Hx _ IH]; [reflexivity|].
  simpl. rewrite Hx. simpl. lia.
Qed.

(** What a turn does: nothing, when the goroutine is blocked or the index
    is out of the pool; or a monitor that is unblocked unsubscribes, leaves
    the pool and takes one from the wait group of its call; or a finisher
    whose wait group is at zero closes the output channel, leaves the pool
    and takes one from the wait group of [Close]. *)
Lemma runGoroutine_cases (env : Env) (i : nat) (w : World) :
  runGoroutine env i w = (tt, w, []) ∨
  (∃ call sub ctx,
     pool w !! i = Some (monitor call sub ctx) ∧
     closing (subscriber w) || bool_decide (ctx ∈ cancelled w) = true ∧
     worldOf (runGoroutine env i w)
       = setPool (delete i) (onCall call (outputWgAdd (-1)) w) ∧
     traceOf (runGoroutine env i w)
       = EvUnsubscribe sub
           :: match unsubscribeResult env sub with
              | Some err => [EvLog LError "Cannot unsubscribe" (Some err)]
              | None => []
              end) ∨
  (∃ call c,
     pool w !! i = Some (finisher call) ∧
     calls w !! call = Some c ∧ outputWg c = 0 ∧
     worldOf (runGoroutine env i w)
       = setPool (delete i)
           (setSubscriber (outputsWgAdd (-1)) (onCall call closeOutput w)) ∧
     traceOf (runGoroutine env i w) = [EvCloseChan (ChOutput call)]).
Proof.
  unfold runGoroutine. unfold_M.
  destruct (pool w !! i) as [[call sub ctx|call]|] eqn:Hg; [| |left; reflexivity].
  - unfold runMonitor. unfold_M.
    destruct (closing (subscriber w) || bool_decide (ctx ∈ cancelled w))
      eqn:Hready; [|left; reflexivity].
    right. left. exists call, sub, ctx.
    destruct (unsubscribeResult env sub); simpl; auto.
  - unfold runFinisher. unfold_M.
    destruct (calls w !! call) as [c|] eqn:Hc; [|left; reflexivity].
    destruct (Z.eqb_spec (outputWg c) 0) as [Hz|Hz]; [|left; reflexivity].
    right. right. exists call, c. simpl. auto.
Qed.

Lemma onCall_calls (call : nat) (f : Subscription -> Subscription) (w : World) :
  calls (onCall call f w)
    = match calls w !! call with
      | Some c => <[call := f c]> (calls w)
      | None => calls w
      end.
Proof. reflexivity. Qed.

Lemma onCall_length (call : nat) (f : Subscription -> Subscription) (w : World) :
  length (calls (onCall call f w)) = length (calls w).
Proof.
  rewrite onCall_calls. destruct (calls w !! call); [|reflexivity].
  apply length_insert.
Qed.

Lemma onCall_lookup_eq (call : nat) (f : Subscription -> Subscription)
    (w : World) :
  calls (onCall call f w) !! call = f <$> (calls w !! call).
Proof.
  rewrite onCall_calls. destruct (calls w !! call) as [c|] eqn:Hc.
  - simpl. apply list_lookup_insert_eq. apply lookup_lt_Some in Hc. exact Hc.
  - rewrite Hc. reflexivity.
Qed.

Lemma onCall_lookup_ne (call k : nat) (f : Subscription -> Subscription)
    (w : World) :
  call ≠ k → calls (onCall call f w) !! k = calls w !! k.
Proof.
  intros Hne. rewrite onCall_calls. destruct (calls w !! call); [|reflexivity].
  apply list_lookup_insert_ne. exact Hne.
Qed.

Lemma inRange_lookup (w : World) (i : nat) (g : goroutine) :
  inRange w → pool w !! i = Some g → ∃ c, calls w !! callOf g = Some c.
Proof.
  intros Hr Hg. unfold inRange in Hr. rewrite Forall_lookup in Hr.
  apply lookup_lt_is_Some_2. exact (Hr i g Hg).
Qed.

(** A turn of a goroutine keeps the calls in their states or moves a
    serving call to finished. *)
Lemma runGoroutine_callsOk (strict : bool) (env : Env) (i : nat) (w : World) :
  inRange w → callsOk strict w →
  inRange (worldOf (runGoroutine env i w)) ∧
  callsOk strict (worldOf (runGoroutine env i w)).
Proof.
  intros Hr Hok.
  destruct (runGoroutine_cases env i w)
    as [->|[(call & sub & ctx & Hg & _ & -> & _)
           |(call & c & Hg & Hc & Hz & -> & _)]];
    [auto| |].
  - (* a monitor has run *)
    split.
    { unfold inRange in *. cbn [setPool setSubscriber pool calls].
      rewrite onCall_length. apply Forall_delete. exact Hr. }
    destruct (inRange_lookup w i _ Hr Hg) as [c Hc]. simpl in Hc.
    intros k c' Hk. cbn [setPool setSubscriber pool calls] in Hk |- *.
    pose proof (count_delete (isMonitorOf k) _ _ _ Hg) as Hm.
    pose proof (count_delete (isFinisherOf k) _ _ _ Hg) as Hf.
    simpl in Hm, Hf.
    destruct (decide (call = k)) as [<-|Hne].
    + rewrite onCall_lookup_eq, Hc in Hk. simpl in Hk. injection Hk as <-.
      rewrite Nat.eqb_refl in Hm.
      destruct (Hok call c Hc) as (st & Hal & Hst).
      pose proof (count_nonneg (isMonitorOf call) (delete i (pool w))).
      exists st. split; [exact Hal|].
      destruct st; simpl in Hst |- *; repeat split; try tauto; lia.
    + rewrite onCall_lookup_ne in Hk by exact Hne.
      apply Nat.eqb_neq in Hne. rewrite Hne in Hm.
      destruct (Hok k c' Hk) as (st & Hal & Hst).
      exists st. split; [exact Hal|].
      destruct st; simpl in Hst |- *; repeat split; try tauto; lia.
  - (* a finisher has run *)
    split.
    { unfold inRange in *. cbn [setPool setSubscriber pool calls].
      rewrite onCall_length. apply Forall_delete. exact Hr. }
    intros k c' Hk. cbn [setPool setSubscriber pool calls] in Hk |- *.
    pose proof (count_delete (isMonitorOf k) _ _ _ Hg) as Hm.
    pose proof (count_delete (isFinisherOf k) _ _ _ Hg) as Hf.
    simpl in Hm, Hf.
    destruct (decide (call = k)) as [<-|Hne].
    + rewrite onCall_lookup_eq, Hc in Hk. simpl in Hk. injection Hk as <-.
      rewrite Nat.eqb_refl in Hf.
      destruct (Hok call c Hc) as (st & Hal & Hst).
      pose proof (count_nonneg (isFinisherOf call) (delete i (pool w))).
      exists Finished. split; [reflexivity|].
      destruct st; simpl in Hst |- *; repeat split; try tauto; lia.
    + rewrite onCall_lookup_ne in Hk by exact Hne.
      apply Nat.eqb_neq in Hne. rewrite Hne in Hf.
      destruct (Hok k c' Hk) as (st & Hal & Hst).
      exists st. split; [exact Hal|].
      destruct st; simpl in Hst |- *; repeat split; try tauto; lia.
Qed.

Lemma subscribe_run (env : Env) (topic : string) (w : World) :
  subscribe env topic w
    = (match subscribeResult env (requests w) with
       | Some err => inr err
       | None => inl (requests w)
       end,
       nextRequest w,
       [EvSubscribeReq (subscribeRequest (config (subscriber w)) topic)]).
Proof.
  unfold subscribe. unfold_M.
  destruct (subscribeResult env (requests w)); reflexivity.
Qed.

(** One iteration of the loop. *)
Lemma startSubscribers_S (env : Env) (ctx : nat) (topic : string)
    (call n : nat) (w : World) :
  startSubscribers env ctx topic call (S n) w
    = match subscribeResult env (requests w) with
      | Some err =>
          (Some (ErrWrap err "cannot subscribe"),
           nextRequest (onCall call (outputWgAdd 1) w),
           startEvents (config (subscriber w)) topic)
      | None =>
          let r := startSubscribers env ctx topic call n
                     (setPool (λ p, p ++ [monitor call (requests w) ctx])
                        (nextRequest (onCall call (outputWgAdd 1) w))) in
          (valueOf r, worldOf r,
           startEvents (config (subscriber w)) topic ++ traceOf r)
      end.
Proof.
  cbn [startSubscribers]. unfold bind, modify, log, emit, ret.
  rewrite subscribe_run.
  change (requests (onCall call (outputWgAdd 1) w)) with (requests w).
  change (config (subscriber (onCall call (outputWgAdd 1) w)))
    with (config (subscriber w)).
  destruct (subscribeResult env (requests w)); [reflexivity|].
  cbv zeta.
  destruct (startSubscribers env ctx topic call n _) as [[v w'] t].
  reflexivity.
Qed.

(** The loop of [Subscribe], whatever the broker answers: it adds
    monitors of the call to the pool, one for each subscription made, and
    the wait group of the call counts them, and one more when the loop
    ends with an error. *)
Lemma startSubscribers_shape (env : Env) (ctx : nat) (topic : string)
    (call n : nat) (w : World) (c : Subscription) :
  calls w !! call = Some c →
  let r := startSubscribers env ctx topic call n w in
  ∃ ms,
    Forall (fun g => isMonitorOf call g = true) ms ∧
    (length ms <= n)%nat ∧
    (valueOf r = None → length ms = n) ∧
    subscriber (worldOf r) = subscriber w ∧
    cancelled (worldOf r) = cancelled w ∧
    pool (worldOf r) = pool w ++ ms ∧
    calls (worldOf r)
      = <[call := outputWgAdd
                    (Z.of_nat (length ms) + oneIfError (valueOf r)) c]>
          (calls w).
Proof.
  revert w c. induction n as [|n IH]; intros w c Hc; cbv zeta.
  - exists []. cbn [startSubscribers]. unfold_M. cbn [fst snd].
    repeat split; auto using Forall.
    + rewrite app_nil_r. reflexivity.
    + rewrite list_insert_id; [reflexivity|]. rewrite Hc. f_equal.
      destruct c. unfold outputWgAdd. simpl. f_equal. lia.
  - assert (Hc0 : calls (onCall call (outputWgAdd 1) w) !! call
                  = Some (outputWgAdd 1 c)).
    { rewrite onCall_lookup_eq, Hc. reflexivity. }
    assert (Hcs0 : calls (onCall call (outputWgAdd 1) w)
                   = <[call := outputWgAdd 1 c]> (calls w)).
    { rewrite onCall_calls, Hc. reflexivity. }
    rewrite startSubscribers_S.
    destruct (subscribeResult env (requests w)) as [e|].
    + exists []. unfold valueOf, worldOf. cbn [fst snd].
      split; [constructor|]. split; [simpl; lia|]. split; [discriminate|].
      split; [reflexivity|]. split; [reflexivity|]. split.
      * cbn [pool nextRequest]. rewrite app_nil_r. reflexivity.
      * cbn [calls nextRequest]. rewrite Hcs0. reflexivity.
    + set (w2 := setPool _ _).
      assert (Hc2 : calls w2 !! call = Some (outputWgAdd 1 c)) by exact Hc0.
      destruct (IH w2 _ Hc2) as (ms & Hms & Hlen & Hnone & Hs & Hcn & Hp & Hcs).
      cbv zeta. unfold valueOf, worldOf in *.
      destruct (startSubscribers env ctx topic call n w2) as [[v w3] t3].
      cbn [fst snd] in *.
      exists (monitor call (requests w) ctx :: ms).
      split; [constructor; [simpl; apply Nat.eqb_refl|exact Hms]|].
      split; [simpl; lia|].
      split; [intros Hv; simpl; rewrite (Hnone Hv); reflexivity|].
      split; [rewrite Hs; reflexivity|]. split; [rewrite Hcn; reflexivity|].
      split.
      * rewrite Hp. subst w2. cbn [pool setPool nextRequest].
        rewrite <- app_assoc. reflexivity.
      * rewrite Hcs. subst w2. cbn [calls setPool nextRequest].
        rewrite Hcs0, list_insert_insert_eq.
        f_equal. unfold outputWgAdd. simpl. f_equal.
        rewrite Nat2Z.inj_succ. lia.
Qed.

(** [Subscribe], whatever the broker answers. *)
Lemma Subscribe_shape (env : Env) (ctx : nat) (topic : string) (w : World) :
  let r := Subscribe env ctx topic w in
  let call := length (calls w) in
  let failed := bool_decide ((valueOf r).2 ≠ None) in
  ∃ ms,
    Forall (fun g => isMonitorOf call g = true) ms ∧
    subscriber (worldOf r) = outputsWgAdd 1 (subscriber w) ∧
    cancelled (worldOf r) = cancelled w ∧
    pool (worldOf r)
      = pool w ++ ms ++ (if failed then [] else [finisher call]) ∧
    calls (worldOf r)
      = calls w ++ [{| outputWg := Z.of_nat (length ms)
                                   + oneIfError (valueOf r).2;
                       outputClosed := false |}] ∧
    (valueOf r).1 = (if failed then None else Some call).
Proof.
  cbv zeta.
  pose proof (startSubscribers_shape env ctx topic (length (calls w))
                (Z.to_nat (SSC.SubscribersCount (config (subscriber w))))
                (setSubscriber (outputsWgAdd 1)
                   (setCalls (λ cs, cs ++ [{| outputWg := 0;
                                              outputClosed := false |}]) w))
                {| outputWg := 0; outputClosed := false |}) as Hshape.
  destruct Hshape as (ms & Hms & _ & _ & Hs & Hcn & Hp & Hcs).
  { simpl. rewrite lookup_app_r by lia. rewrite Nat.sub_diag. reflexivity. }
  exists ms. unfold Subscribe. unfold_M.
  destruct (startSubscribers env ctx topic _ _ _) as [[[err|] w1] t1];
    cbn [fst snd] in *; simpl in Hs, Hcn, Hp, Hcs |- *;
    rewrite ?Hs, ?Hcn, ?Hp, ?Hcs;
    rewrite ?app_nil_r, <- ?app_assoc;
    (split; [exact Hms|]); repeat split; try reflexivity;
    rewrite insert_app_r_alt by lia; rewrite Nat.sub_diag; reflexivity.
Qed.

Lemma isMonitorOf_true (call : nat) (g : goroutine) :
  isMonitorOf call g = true →
  callOf g = call ∧ isFinisher g = false ∧
  (∀ k, isFinisherOf k g = false) ∧
  (∀ k, isMonitorOf k g = Nat.eqb call k).
Proof.
  destruct g as [c s x|c]; simpl; [|discriminate].
  intros ->%Nat.eqb_eq. auto.
Qed.

Lemma count_out_of_range (w : World) (f : nat -> goroutine -> bool) (k : nat) :
  (∀ g, f (callOf g) g = true → callOf g = callOf g) →
  (∀ g, f k g = true → callOf g = k) →
  inRange w → (length (calls w) <= k)%nat → count (f k) (pool w) = 0.
Proof.
  intros _ Hf Hr Hk. apply count_none. unfold inRange in Hr.
  eapply Forall_impl; [exact Hr|]. intros g Hg. simpl in Hg.
  destruct (f k g) eqn:Hfg; [|reflexivity].
  apply Hf in Hfg. lia.
Qed.

Lemma isMonitorOf_callOf (k : nat) (g : goroutine) :
  isMonitorOf k g = true → callOf g = k.
Proof. destruct g; simpl; [intros ->%Nat.eqb_eq; reflexivity|discriminate]. Qed.

Lemma isFinisherOf_callOf (k : nat) (g : goroutine) :
  isFinisherOf k g = true → callOf g = k.
Proof. destruct g; simpl; [discriminate|intros ->%Nat.eqb_eq; reflexivity]. Qed.

(** [Subscribe] adds a call, serving when it succeeds and abandoned when
    it fails, and leaves the other calls as they are. *)
Lemma Subscribe_callsOk (strict : bool) (env : Env) (ctx : nat)
    (topic : string) (w : World) :
  inRange w → callsOk strict w →
  (strict = true → (valueOf (Subscribe env ctx topic w)).2 = None) →
  inRange (worldOf (Subscribe env ctx topic w)) ∧
  callsOk strict (worldOf (Subscribe env ctx topic w)).
Proof.
  intros Hr Hok Hstrict.
  destruct (Subscribe_shape env ctx topic w)
    as (ms & Hms & _ & _ & Hp & Hcs & _).
  set (call := length (calls w)) in *.
  assert (Hfin : ∀ k, count (isFinisherOf k) ms = 0).
  { intros k. apply count_none. eapply Forall_impl; [exact Hms|].
    intros g Hg. apply (isMonitorOf_true _ _ Hg). }
  assert (Hmon : ∀ k, count (isMonitorOf k) ms
                      = if Nat.eqb call k then Z.of_nat (length ms) else 0).
  { intros k. destruct (call =? k)%nat eqn:Hk.
    - apply count_all. eapply Forall_impl; [exact Hms|]. intros g Hg.
      destruct (isMonitorOf_true _ _ Hg) as (_ & _ & _ & ->). exact Hk.
    - apply count_none. eapply Forall_impl; [exact Hms|]. intros g Hg.
      destruct (isMonitorOf_true _ _ Hg) as (_ & _ & _ & ->). exact Hk. }
  set (w' := worldOf (Subscribe env ctx topic w)) in *.
  set (failed := bool_decide ((valueOf (Subscribe env ctx topic w)).2 ≠ None))
    in *.
  assert (Hcf : ∀ k, count (isFinisherOf k) (pool w')
                     = count (isFinisherOf k) (pool w)
                       + (if failed then 0
                          else if Nat.eqb call k then 1 else 0)).
  { intros k. rewrite Hp, !count_app, Hfin.
    destruct failed; unfold count; simpl; [lia|].
    destruct (call =? k)%nat; simpl; lia. }
  assert (Hcm : ∀ k, count (isMonitorOf k) (pool w')
                     = count (isMonitorOf k) (pool w)
                       + (if Nat.eqb call k then Z.of_nat (length ms) else 0)).
  { intros k. rewrite Hp, !count_app, Hmon.
    destruct failed; unfold count; simpl; lia. }
  split.
  - unfold inRange. rewrite Hp, Hcs, length_app. simpl.
    rewrite !Forall_app. split; [|split].
    + eapply Forall_impl; [exact Hr|]. intros g Hg. simpl in Hg |- *. lia.
    + eapply Forall_impl; [exact Hms|]. intros g Hg.
      apply isMonitorOf_callOf in Hg. simpl. fold call. lia.
    + destruct failed; constructor; [simpl; fold call; lia|constructor].
  - intros k c Hk. rewrite Hcs in Hk.
    destruct (decide (k < call)%nat) as [Hlt|Hge].
    + rewrite lookup_app_l in Hk by exact Hlt.
      destruct (Hok k c Hk) as (st & Hal & Hst).
      specialize (Hcf k). specialize (Hcm k).
      replace (call =? k)%nat with false in Hcf, Hcm
        by (symmetry; apply Nat.eqb_neq; lia).
      assert (Hcf' : count (isFinisherOf k) (pool w')
                     = count (isFinisherOf k) (pool w))
        by (destruct failed; lia).
      exists st. split; [exact Hal|].
      destruct st; simpl in Hst |- *; rewrite Hcf', Hcm;
        repeat split; try tauto; lia.
    + rewrite lookup_app_r in Hk by lia.
      fold call in Hk.
      destruct (k - call)%nat as [|d] eqn:Hd; [|simpl in Hk; discriminate].
      assert (k = call) by lia. subst k. simpl in Hk. injection Hk as <-.
      specialize (Hcf call). specialize (Hcm call).
      rewrite Nat.eqb_refl in Hcf, Hcm.
      rewrite (count_out_of_range w isFinisherOf call) in Hcf
        by (auto using isFinisherOf_callOf).
      rewrite (count_out_of_range w isMonitorOf call) in Hcm
        by (auto using isMonitorOf_callOf).
      subst failed.
      destruct ((valueOf (Subscribe env ctx topic w)).2) as [err|] eqn:Herr.
      * rewrite bool_decide_eq_true_2 in Hcf by discriminate.
        exists Abandoned. split.
        { destruct strict; [|reflexivity]. specialize (Hstrict eq_refl).
          discriminate. }
        simpl. rewrite Hcf, Hcm. repeat split; try reflexivity; lia.
      * rewrite bool_decide_eq_false_2 in Hcf
          by (intros H; apply H; reflexivity).
        exists Serving. split; [reflexivity|].
        simpl. rewrite Hcf, Hcm. repeat split; try reflexivity; lia.
Qed.

Lemma callsOk_frame (strict : bool) (w w' : World) :
  pool w' = pool w → calls w' = calls w →
  inRange w → callsOk strict w → inRange w' ∧ callsOk strict w'.
Proof.
  unfold inRange, callsOk. intros -> ->. auto.
Qed.

Lemma surplus_frame (w w' : World) :
  pool w' = pool w → outputsWg (subscriber w') = outputsWg (subscriber w) →
  surplus w' = surplus w.
Proof. unfold surplus. intros -> ->. reflexivity. Qed.

Lemma run_callsOk (strict : bool) (env : Env) (sched : list nat) (w : World) :
  inRange w → callsOk strict w →
  inRange (worldOf (run env sched w)) ∧
  callsOk strict (worldOf (run env sched w)).
Proof.
  revert w. induction sched as [|i rest IH]; intros w Hr Hok; [auto|].
  destruct (run_cons env i rest w) as [-> _].
  destruct (runGoroutine_callsOk strict env i w Hr Hok) as [Hr1 Hok1].
  apply IH; assumption.
Qed.

Lemma WaitGroupTimeout_callsOk (strict : bool) (env : Env) (timeout now : Z)
    (sched : list (Z * nat)) (w : World) :
  inRange w → callsOk strict w →
  inRange (worldOf (WaitGroupTimeout env timeout now sched w)) ∧
  callsOk strict (worldOf (WaitGroupTimeout env timeout now sched w)).
Proof.
  intros Hr Hok.
  destruct (WaitGroupTimeout_run env timeout now sched w) as (turns & -> & _).
  apply run_callsOk; assumption.
Qed.

(** The world that [Close] leaves: the one it found, when the subscriber
    was closed; the one it found with the flag set, when it panics; or the
    one in which its wait ends. *)
Lemma Close_world (env : Env) (sched : list (Z * nat)) (w : World) :
  worldOf (Close env sched w) = w ∨
  worldOf (Close env sched w) = setSubscriber (setClosed true) w ∨
  worldOf (Close env sched w) = worldOf (closeWait env sched w).
Proof.
  destruct (closed (subscriber w)) eqn:Hc.
  { left. rewrite Close_closed by exact Hc. reflexivity. }
  destruct (closing (subscriber w)) eqn:Hg.
  - right. left. unfold Close. unfold_M. rewrite Hc, Hg. reflexivity.
  - right. right. rewrite (Close_open env sched w Hc Hg). reflexivity.
Qed.

Lemma SubscribeInitialize_frame (env : Env)
    (initStream : string -> list event * option error)
    (topic : string) (delivered : list Msg) (early : nat) (w : World) :
  let w' := worldOf (SubscribeInitialize env initStream topic delivered
                       early w) in
  subscriber w' = subscriber w ∧ pool w' = pool w ∧ calls w' = calls w ∧
  cancelled w' = cancelled w.
Proof.
  cbv zeta. rewrite SubscribeInitialize_run.
  destruct (initStream topic).2; [auto|].
  destruct (subscribeResult env (requests w)); auto.
Qed.

(** Each step keeps the calls in their states and the counter of [Close]
    at or above the number of finishers; and it keeps them without a
    failed call and with nothing above the finishers unless it is a
    [Subscribe] that fails. *)
Lemma step_callsOk (strict : bool) (w w' : World) :
  step w w' → inRange w → callsOk strict w →
  (strict = true →
   ∀ env ctx topic, w' = worldOf (Subscribe env ctx topic w) →
                    (valueOf (Subscribe env ctx topic w)).2 = None) →
  inRange w' ∧ callsOk strict w'.
Proof.
  intros Hstep Hr Hok Hstrict. destruct Hstep.
  - apply Subscribe_callsOk; eauto.
  - destruct (SubscribeInitialize_frame env initStream topic delivered
                early w) as (_ & Hp & Hc & _).
    eapply callsOk_frame; eauto.
  - rewrite processMessage_world. auto.
  - apply runGoroutine_callsOk; auto.
  - destruct (Close_world env sched w) as [->|[->| ->]]; auto.
    apply WaitGroupTimeout_callsOk.
    + exact Hr.
    + exact Hok.
  - auto.
Qed.

Lemma step_surplus (w w' : World) :
  step w w' →
  surplus w' = surplus w ∨
  (surplus w' = surplus w + 1 ∧
   ∃ env ctx topic, w' = worldOf (Subscribe env ctx topic w) ∧
                    (valueOf (Subscribe env ctx topic w)).2 ≠ None).
Proof.
  intros Hstep. destruct Hstep.
  - pose proof (Subscribe_surplus env ctx topic w) as [_ Hs]. cbv zeta in Hs.
    destruct ((valueOf (Subscribe env ctx topic w)).2) as [e|] eqn:He.
    + right. split; [tauto|]. exists env, ctx, topic.
      split; [reflexivity|]. rewrite He. discriminate.
    + left. tauto.
  - left.
    destruct (SubscribeInitialize_frame env initStream topic delivered
                early w) as (Hs & Hp & _).
    apply surplus_frame; [exact Hp|]. rewrite Hs. reflexivity.
  - left. rewrite processMessage_world. reflexivity.
  - left. apply runGoroutine_spec.
  - left. destruct (Close_world env sched w) as [->|[->| ->]];
      [reflexivity|reflexivity|].
    apply (closeWait_spec env sched w).
  - left. reflexivity.
Qed.

Lemma consistent_new (s : Subscriber) :
  outputsWg s = 0 → consistent (newWorld s) ∧ healthy (newWorld s).
Proof.
  intros Hz. unfold consistent, healthy, inRange, callsOk, surplus. simpl.
  rewrite Hz. repeat split; try constructor; try reflexivity;
    intros k c Hk; rewrite lookup_nil in Hk; discriminate.
Qed.

Lemma consistent_step (w w' : World) :
  consistent w → step w w' → consistent w'.
Proof.
  intros (Hr & Hok & Hs) Hstep.
  destruct (step_callsOk false w w' Hstep Hr Hok) as [Hr' Hok'];
    [discriminate|].
  destruct (step_surplus w w' Hstep) as [Hs'|[Hs' _]];
    unfold consistent; repeat split; auto; lia.
Qed.

(** A world stays healthy until a [Subscribe] fails. *)
Lemma healthy_step (w w' : World) :
  healthy w → step w w' →
  healthy w' ∨
  ∃ env ctx topic, w' = worldOf (Subscribe env ctx topic w) ∧
                   (valueOf (Subscribe env ctx topic w)).2 ≠ None.
Proof.
  intros (Hr & Hok & Hs) Hstep.
  destruct (step_surplus w w' Hstep) as [Hs'|[_ Hfail]]; [|right; exact Hfail].
  left.
  assert (Hnofail : ∀ env ctx topic,
            w' = worldOf (Subscribe env ctx topic w) →
            (valueOf (Subscribe env ctx topic w)).2 = None).
  { intros env ctx topic ->.
    pose proof (Subscribe_surplus env ctx topic w) as [_ Hsub].
    cbv zeta in Hsub.
    destruct ((valueOf (Subscribe env ctx topic w)).2); [|reflexivity].
    lia. }
  destruct (step_callsOk true w w' Hstep Hr Hok) as [Hr' Hok']; [auto|].
  unfold healthy. repeat split; auto. lia.
Qed.

Lemma reachable_is_consistent (w : World) : reachable w → consistent w.
Proof.
  intros (env & c & s & Hs & Hrtc).
  destruct (NewSubscriberWithNatsConn_built env c s Hs) as (-> & _).
  assert (Hnew : consistent (newWorld (subscriberOf c)))
    by (apply consistent_new; reflexivity).
  clear Hs. induction Hrtc as [|x y z Hxy _ IH]; [exact Hnew|].
  apply IH. eapply consistent_step; eauto.
Qed.

Lemma elem_of_delete_other (p : list goroutine) (i : nat) (g g' : goroutine) :
  g ∈ p → p !! i = Some g' → g ≠ g' → g ∈ delete i p.
Proof.
  intros [j Hj]%list_elem_of_lookup_1 Hi Hne.
  destruct (decide (j < i)%nat) as [Hlt|Hge].
  - apply (list_elem_of_lookup_2 _ j).
    rewrite list_lookup_delete_lt by exact Hlt. exact Hj.
  - assert (j ≠ i) by congruence.
    destruct j as [|j]; [lia|].
    apply (list_elem_of_lookup_2 _ j).
    rewrite list_lookup_delete_ge by lia. exact Hj.
Qed.

Lemma count_pos (f : goroutine -> bool) (p : list goroutine) (g : goroutine) :
  g ∈ p → f g = true → 1 <= count f p.
Proof.
  intros [i Hi]%list_elem_of_lookup_1 Hf.
  rewrite (count_delete f p i g Hi), Hf.
  pose proof (count_nonneg f (delete i p)). lia.
Qed.

Lemma count_zero_Forall (f : goroutine -> bool) (p : list goroutine) :
  count f p = 0 → Forall (fun g => f g = false) p.
Proof.
  intros Hz. apply Forall_forall. intros g Hg.
  destruct (f g) eqn:Hf; [|reflexivity].
  pose proof (count_pos f p g Hg Hf). lia.
Qed.

(** X12: in every world that a subscriber built by the constructor can get
    to, through any calls of its operations, any turns of its goroutines
    and any cancellations: no wait group counter is negative; a call has
    at most one finisher; a finisher whose wait group is at zero finds no
    monitor of its call left in the pool and the output channel still
    open, so that the channel is closed once, after every worker of the
    call has unsubscribed; and once the channel is closed no goroutine of
    the call is left. *)
Theorem reachable_wait_groups (w : World) :
  reachable w →
  0 <= outputsWg (subscriber w) ∧
  (∀ k c, calls w !! k = Some c → 0 <= outputWg c) ∧
  (∀ k, count (isFinisherOf k) (pool w) <= 1) ∧
  (∀ i k c, pool w !! i = Some (finisher k) → calls w !! k = Some c →
     outputWg c = 0 →
     count (isMonitorOf k) (pool w) = 0 ∧ outputClosed c = false) ∧
  (∀ k c, calls w !! k = Some c → outputClosed c = true →
     Forall (fun g => callOf g ≠ k) (pool w)).
Proof.
  intros (Hr & Hok & Hs)%reachable_is_consistent.
  split; [|split; [|split; [|split]]].
  - unfold surplus in Hs. pose proof (finishers_nonneg (pool w)). lia.
  - intros k c Hk. destruct (Hok k c Hk) as (st & _ & Hst).
    pose proof (count_nonneg (isMonitorOf k) (pool w)).
    destruct st; simpl in Hst; lia.
  - intros k. destruct (calls w !! k) as [c|] eqn:Hk.
    + destruct (Hok k c Hk) as (st & _ & Hst). destruct st; simpl in Hst; lia.
    + rewrite (count_out_of_range w isFinisherOf k);
        auto using isFinisherOf_callOf; [lia|].
      apply lookup_ge_None. exact Hk.
  - intros i k c Hi Hk Hz.
    pose proof (count_delete (isFinisherOf k) _ _ _ Hi) as Hf. simpl in Hf.
    rewrite Nat.eqb_refl in Hf.
    pose proof (count_nonneg (isFinisherOf k) (delete i (pool w))).
    destruct (Hok k c Hk) as (st & _ & Hst).
    destruct st; simpl in Hst; split; try tauto; lia.
  - intros k c Hk Hclosed.
    destruct (Hok k c Hk) as (st & _ & Hst).
    destruct st; simpl in Hst; try (destruct Hst as (_ & Hcl & _); congruence).
    destruct Hst as (Hf & _ & _ & Hm).
    apply count_zero_Forall in Hf. apply count_zero_Forall in Hm.
    apply Forall_forall. intros g Hg Hcall.
    rewrite Forall_forall in Hf, Hm. specialize (Hf g Hg). specialize (Hm g Hg).
    destruct g; simpl in *; subst; rewrite Nat.eqb_refl in *; discriminate.
Qed.

Lemma reachable_wait_groups_witness :
  0 <= outputsWg (subscriber subscribedWorld).
Proof.
  apply (reachable_wait_groups subscribedWorld).
  exists okEnv, oneWorker, (subscriberOf oneWorker).
  split; [reflexivity|].
  apply rtc_once. apply (step_Subscribe _ okEnv 7 "orders").
Defined.

(** One turn, next to a monitor that is blocked. *)
Lemma blocked_monitor_turn (env : Env) (i : nat) (w : World) (k s x : nat) :
  consistent w → closing (subscriber w) = false →
  monitor k s x ∈ pool w → x ∉ cancelled w →
  let r := runGoroutine env i w in
  consistent (worldOf r) ∧ closing (subscriber (worldOf r)) = false ∧
  monitor k s x ∈ pool (worldOf r) ∧ cancelled (worldOf r) = cancelled w ∧
  ¬ In (EvCloseChan (ChOutput k)) (traceOf r).
Proof.
  intros Hcons Hcl Hin Hx. cbv zeta.
  assert (Hcons' : consistent (worldOf (runGoroutine env i w))).
  { eapply consistent_step; [exact Hcons|]. constructor. }
  split; [exact Hcons'|].
  destruct Hcons as (Hr & Hok & _).
  destruct (runGoroutine_cases env i w)
    as [->|[(call & sub & ctx & Hg & Hready & -> & ->)
           |(call & c & Hg & Hc & Hz & -> & ->)]].
  - unfold worldOf, traceOf. simpl. auto.
  - rewrite Hcl in Hready. simpl in Hready.
    apply bool_decide_eq_true_1 in Hready.
    split; [exact Hcl|]. split; [|split; [reflexivity|]].
    + cbn [setPool pool].
      apply (elem_of_delete_other _ i _ (monitor call sub ctx));
        [exact Hin|exact Hg|].
      intros [= _ _ ->]. contradiction.
    + destruct (unsubscribeResult env sub); simpl; intuition discriminate.
  - assert (Hne : call ≠ k).
    { intros ->. destruct (Hok k c Hc) as (st & _ & Hst).
      pose proof (count_pos (isMonitorOf k) _ _ Hin) as Hm. simpl in Hm.
      rewrite Nat.eqb_refl in Hm. specialize (Hm eq_refl).
      pose proof (count_delete (isFinisherOf k) _ _ _ Hg) as Hf. simpl in Hf.
      rewrite Nat.eqb_refl in Hf.
      pose proof (count_nonneg (isFinisherOf k) (delete i (pool w))).
      destruct st; simpl in Hst; lia. }
    split; [exact Hcl|]. split; [|split; [reflexivity|]].
    + cbn [setPool pool].
      apply (elem_of_delete_other _ i _ (finisher call));
        [exact Hin|exact Hg|discriminate].
    + simpl. intros [[= ->]|[]]. contradiction.
Qed.

(** X13: while the subscriber is not closing, a subscription whose context
    is not cancelled stays as it is whatever turns the goroutines get, those
    of other subscriptions included: its monitor stays in the pool, so its
    worker is not unsubscribed by it, and its output channel is not
    closed. *)
Theorem subscription_stays_open (env : Env) (sched : list nat) (w : World)
    (k s x : nat) :
  reachable w → closing (subscriber w) = false →
  monitor k s x ∈ pool w → x ∉ cancelled w →
  let r := run env sched w in
  monitor k s x ∈ pool (worldOf r) ∧
  ¬ In (EvCloseChan (ChOutput k)) (traceOf r) ∧
  (∀ c, calls (worldOf r) !! k = Some c → outputClosed c = false).
Proof.
  intros Hcons%reachable_is_consistent Hcl Hin Hx. cbv zeta.
  assert (Hgen :
    consistent (worldOf (run env sched w)) ∧
    monitor k s x ∈ pool (worldOf (run env sched w)) ∧
    ¬ In (EvCloseChan (ChOutput k)) (traceOf (run env sched w))).
  { revert w Hcons Hcl Hin Hx.
    induction sched as [|i rest IH]; intros w Hcons Hcl Hin Hx.
    - simpl. auto.
    - destruct (blocked_monitor_turn env i w k s x Hcons Hcl Hin Hx)
        as (Hcons1 & Hcl1 & Hin1 & Hcn1 & Ht1).
      cbn [run]. unfold bind. unfold worldOf, traceOf in *.
      destruct (runGoroutine env i w) as [[[] w1] t1]. simpl in *.
      rewrite <- Hcn1 in Hx.
      specialize (IH w1 Hcons1 Hcl1 Hin1 Hx).
      destruct (run env rest w1) as [[[] w2] t2]. simpl in *.
      destruct IH as (H1 & H2 & H3).
      split; [exact H1|]. split; [exact H2|].
      intros [H|H]%in_app_or; auto. }
  destruct Hgen as ((_ & Hok & _) & Hin' & Ht).
  split; [exact Hin'|]. split; [exact Ht|].
  intros c Hc. destruct (Hok k c Hc) as (st & _ & Hst).
  pose proof (count_pos (isMonitorOf k) _ _ Hin') as Hm. simpl in Hm.
  rewrite Nat.eqb_refl in Hm. specialize (Hm eq_refl).
  destruct st; simpl in Hst; try tauto. lia.
Qed.

Lemma subscription_stays_open_witness :
  monitor 0 0 7 ∈ pool (worldOf (run okEnv [0; 1; 0]%nat subscribedWorld)).
Proof.
  apply (subscription_stays_open okEnv [0; 1; 0]%nat subscribedWorld 0 0 7).
  - exists okEnv, oneWorker, (subscriberOf oneWorker).
    split; [reflexivity|].
    apply rtc_once. apply (step_Subscribe _ okEnv 7 "orders").
  - reflexivity.
  - apply list_elem_of_here.
  - exact (not_elem_of_empty (C := gset nat) 7%nat).
Defined.

(** ** The send of processMessage *)







(** ** Shutting down *)

Lemma runGoroutine_healthy (env : Env) (i : nat) (w : World) :
  healthy w → healthy (worldOf (runGoroutine env i w)).
Proof.
  intros (Hr & Hok & Hs).
  destruct (runGoroutine_callsOk true env i w Hr Hok) as [Hr' Hok'].
  pose proof (runGoroutine_spec env i w) as (_ & _ & Hs').
  unfold healthy. repeat split; auto. lia.
Qed.

Lemma runGoroutine_monitor_runs (env : Env) (i : nat) (w : World)
    (call sub ctx : nat) :
  pool w !! i = Some (monitor call sub ctx) →
  unblocked w (monitor call sub ctx) = true →
  worldOf (runGoroutine env i w)
    = setPool (delete i) (onCall call (outputWgAdd (-1)) w).
Proof.
  intros Hg Hready. simpl in Hready.
  unfold runGoroutine, runMonitor. unfold_M. rewrite Hg, Hready.
  destruct (unsubscribeResult env sub); reflexivity.
Qed.

Lemma runGoroutine_finisher_runs (env : Env) (i : nat) (w : World)
    (call : nat) (c : Subscription) :
  pool w !! i = Some (finisher call) → calls w !! call = Some c →
  outputWg c = 0 →
  worldOf (runGoroutine env i w)
    = setPool (delete i)
        (setSubscriber (outputsWgAdd (-1)) (onCall call closeOutput w)).
Proof.
  intros Hg Hc Hz.
  unfold runGoroutine, runFinisher. unfold_M. rewrite Hg, Hc, Hz.
  reflexivity.
Qed.

Lemma monitor_or_finishers (p : list goroutine) :
  (∃ i call sub ctx, p !! i = Some (monitor call sub ctx)) ∨
  Forall (fun g => isFinisher g = true) p.
Proof.
  induction p as [|g p [(i & call & sub & ctx & Hi)|Hall]].
  - right. constructor.
  - left. exists (S i), call, sub, ctx. exact Hi.
  - destruct g as [call sub ctx|call].
    + left. exists 0%nat, call, sub, ctx. reflexivity.
    + right. constructor; [reflexivity|exact Hall].
Qed.

Lemma isFinisher_not_monitorOf (k : nat) (p : list goroutine) :
  Forall (fun g => isFinisher g = true) p → count (isMonitorOf k) p = 0.
Proof.
  intros H. apply count_none. eapply Forall_impl; [exact H|].
  intros [c s x|c]; simpl; [discriminate|reflexivity].
Qed.

Lemma pool_head (w : World) :
  pool w ≠ [] → ∃ g, pool w !! 0%nat = Some g.
Proof. destruct (pool w) as [|g p]; [contradiction|]. eauto. Qed.

(** With a goroutine in the pool and all of them unblocked, one of them
    runs at its turn. *)
Lemma healthy_progress (env : Env) (w : World) :
  healthy w → allUnblocked w → pool w ≠ [] →
  ∃ i, S (length (pool (worldOf (runGoroutine env i w))))
       = length (pool w).
Proof.
  intros (Hr & Hok & _) Hun Hne.
  destruct (monitor_or_finishers (pool w))
    as [(i & call & sub & ctx & Hi)|Hall].
  - exists i. unfold allUnblocked in Hun. rewrite Forall_lookup in Hun.
    rewrite (runGoroutine_monitor_runs env i w call sub ctx Hi (Hun _ _ Hi)).
    cbn [setPool pool]. change (pool (onCall call _ w)) with (pool w).
    rewrite length_delete by (rewrite Hi; eauto).
    apply lookup_lt_Some in Hi. lia.
  - destruct (pool_head w Hne) as [g H0].
    rewrite Forall_lookup in Hall. pose proof (Hall _ _ H0) as Hg.
    destruct g as [|call]; [discriminate|].
    destruct (inRange_lookup w 0 _ Hr H0) as [c Hc]. simpl in Hc.
    assert (Hz : outputWg c = 0).
    { destruct (Hok call c Hc) as (st & Hal & Hst).
      assert (Hm : count (isMonitorOf call) (pool w) = 0).
      { apply isFinisher_not_monitorOf. apply Forall_lookup. exact Hall. }
      pose proof (count_delete (isFinisherOf call) _ _ _ H0) as Hf.
      simpl in Hf. rewrite Nat.eqb_refl in Hf.
      pose proof (count_nonneg (isFinisherOf call) (delete 0%nat (pool w))).
      destruct st; simpl in Hst, Hal; try discriminate; lia. }
    exists 0%nat.
    rewrite (runGoroutine_finisher_runs env 0 w call c H0 Hc Hz).
    cbn [setPool pool setSubscriber]. change (pool (onCall call _ w)) with (pool w).
    rewrite length_delete by (rewrite H0; eauto).
    apply lookup_lt_Some in H0. lia.
Qed.

Lemma runGoroutine_allUnblocked (env : Env) (i : nat) (w : World) :
  allUnblocked w → allUnblocked (worldOf (runGoroutine env i w)).
Proof.
  intros Hun. unfold allUnblocked in *.
  destruct (runGoroutine_cases env i w)
    as [->|[(call & sub & ctx & _ & _ & -> & _)
           |(call & c & _ & _ & _ & -> & _)]].
  - exact Hun.
  - cbn [setPool pool]. apply Forall_delete. exact Hun.
  - cbn [setPool pool]. apply Forall_delete. exact Hun.
Qed.

Lemma count_finisherOf_le (k : nat) (p : list goroutine) :
  count (isFinisherOf k) p <= finishers p.
Proof.
  unfold count, finishers. induction p as [|g p IH]; simpl; [lia|].
  destruct g as [c s x|c]; simpl; [exact IH|].
  destruct (c =? k)%nat; simpl; lia.
Qed.

(** In a healthy world the wait group of [Close] is at zero only when the
    pool is empty. *)
Lemma healthy_zero_pool (w : World) :
  healthy w → outputsWg (subscriber w) = 0 → pool w = [].
Proof.
  intros (Hr & Hok & Hs) Hz. unfold surplus in Hs.
  assert (Hfin : finishers (pool w) = 0) by lia.
  destruct (decide (pool w = [])) as [Hp|Hne]; [exact Hp|]. exfalso.
  destruct (pool_head w Hne) as [g H0].
  destruct (inRange_lookup w 0 g Hr H0) as [c Hc].
  destruct (Hok _ c Hc) as (st & Hal & Hst).
  pose proof (count_finisherOf_le (callOf g) (pool w)) as Hle.
  pose proof (count_delete (isFinisherOf (callOf g)) _ _ _ H0) as Hf.
  pose proof (count_delete (isMonitorOf (callOf g)) _ _ _ H0) as Hm.
  pose proof (count_nonneg (isFinisherOf (callOf g)) (delete 0%nat (pool w))).
  pose proof (count_nonneg (isMonitorOf (callOf g)) (delete 0%nat (pool w))).
  destruct g as [call sub ctx|call]; simpl in *; rewrite Nat.eqb_refl in *;
    destruct st; simpl in Hst, Hal; try discriminate; lia.
Qed.

Lemma healthy_empty_pool (w : World) :
  healthy w → pool w = [] →
  outputsWg (subscriber w) = 0 ∧
  ∀ k c, calls w !! k = Some c → outputClosed c = true ∧ outputWg c = 0.
Proof.
  intros (Hr & Hok & Hs) Hp. unfold surplus in Hs. rewrite Hp in Hs.
  split; [unfold finishers in Hs; simpl in Hs; lia|]. intros k c Hk.
  destruct (Hok k c Hk) as (st & Hal & Hst). rewrite Hp in Hst.
  destruct st; simpl in Hst, Hal; try discriminate.
  - destruct Hst as (Hf & _). discriminate.
  - tauto.
Qed.

(** From a healthy world whose goroutines are all unblocked, one turn for
    each goroutine, well chosen, empties the pool; and a wait in which
    these turns come early enough for the waiting goroutine to report
    before the timer fires does not time out. *)
Lemma drain_pool (env : Env) (n : nat) (w : World) :
  length (pool w) = n → healthy w → allUnblocked w →
  ∃ sched,
    length sched = n ∧
    pool (worldOf (run env sched w)) = [] ∧
    healthy (worldOf (run env sched w)) ∧
    sameSubscriber w (worldOf (run env sched w)) ∧
    forallb byGoroutine (traceOf (run env sched w)) = true ∧
    ∀ timeout now times,
      length times = length sched →
      0 <= wgWaitDelay env →
      now + wgWaitDelay env < timeout →
      Forall (fun t => t + wgWaitDelay env < timeout) times →
      WaitGroupTimeout env timeout now (zip times sched) w
        = (false, worldOf (run env sched w), traceOf (run env sched w)).
Proof.
  revert w. induction n as [|n IH]; intros w Hlen Hh Hun.
  - exists []. pose proof (nil_length_inv _ Hlen) as Hnil.
    destruct (healthy_empty_pool w Hh Hnil) as [Hz _].
    split; [reflexivity|]. split; [exact Hnil|].
    split; [exact Hh|]. split; [unfold sameSubscriber; auto|].
    split; [reflexivity|].
    intros timeout now times Hl _ Hnow _.
    destruct times; [|discriminate]. rewrite WaitGroupTimeout_eq, Hz.
    replace (now + wgWaitDelay env <? timeout) with true
      by (symmetry; apply Z.ltb_lt; exact Hnow).
    reflexivity.
  - assert (Hne : pool w ≠ []) by (intros H; rewrite H in Hlen; discriminate).
    destruct (healthy_progress env w Hh Hun Hne) as (i & Hlen1).
    pose proof (runGoroutine_healthy env i w Hh) as Hh1.
    pose proof (runGoroutine_allUnblocked env i w Hun) as Hun1.
    pose proof (runGoroutine_spec env i w) as (Ht1 & Hsame1 & _).
    assert (Hnz : outputsWg (subscriber w) ≠ 0).
    { intros Hz. apply Hne. apply healthy_zero_pool; assumption. }
    destruct (IH (worldOf (runGoroutine env i w)))
      as (sched & Hsl & Hp & Hh2 & Hsame2 & Ht2 & Hwait);
      [lia|exact Hh1|exact Hun1|].
    exists (i :: sched).
    destruct (run_cons env i sched w) as [Hw Htr].
    rewrite Hw, Htr.
    split; [simpl; lia|]. split; [exact Hp|]. split; [exact Hh2|].
    split.
    { destruct Hsame1 as (A1 & A2 & A3). destruct Hsame2 as (B1 & B2 & B3).
      unfold sameSubscriber. rewrite B1, B2, B3. auto. }
    split; [rewrite forallb_app, Ht1, Ht2; reflexivity|].
    intros timeout now times Hl Hd Hnow Htimes.
    destruct times as [|t times]; [discriminate|].
    apply Forall_cons in Htimes as [Ht Htimes].
    rewrite WaitGroupTimeout_eq. cbn [zip_with].
    destruct (Z.eqb_spec (outputsWg (subscriber w)) 0); [contradiction|].
    replace (timeout <=? t) with false by (symmetry; apply Z.leb_gt; lia).
    cbv zeta. rewrite (Hwait timeout t times); auto.
Qed.

Lemma closingWorld_healthy (w : World) :
  healthy w → healthy (closingWorld w) ∧ allUnblocked (closingWorld w).
Proof.
  intros Hh. split; [exact Hh|].
  unfold allUnblocked. apply Forall_forall. intros [call sub ctx|call] _;
    reflexivity.
Qed.

(** X14: [Close] can complete.  On a subscriber that is not closed, with
    no failed [Subscribe] behind it, there is an order for the goroutines,
    one turn each, with which [Close] does not time out, whenever the turns
    come early enough: each of them, and the start of the wait, so long
    before CloseTimeout that the goroutine of [WaitGroupTimeout] reports
    the counter at zero before the timer fires.  [Close] then returns the
    result of the drain, every worker has been unsubscribed and has left
    the pool, every output channel is closed, and all the wait groups are
    at zero. *)
Theorem Close_can_complete (env : Env) (w : World) :
  healthy w → closed (subscriber w) = false → closedIffClosing w →
  ∃ order,
    length order = length (pool w) ∧
    ∀ times,
      length times = length order →
      0 < wgWaitDelay env →
      wgWaitDelay env < SSC.CloseTimeout (config (subscriber w)) →
      Forall (fun t => 0 <= t ∧
                       t + wgWaitDelay env
                         < SSC.CloseTimeout (config (subscriber w))) times →
      let r := Close env (zip times order) w in
      valueOf r = Ok (Wrap (drainResult env) "cannot close conn") ∧
      pool (worldOf r) = [] ∧
      outputsWg (subscriber (worldOf r)) = 0 ∧
      (∀ k c, calls (worldOf r) !! k = Some c →
              outputClosed c = true ∧ outputWg c = 0) ∧
      count_occ event_eq_dec (traceOf r) EvDrain = 1%nat.
Proof.
  intros Hh Hc Hinv.
  destruct (closingWorld_healthy w Hh) as [Hh0 Hun0].
  destruct (drain_pool env (length (pool w)) (closingWorld w) eq_refl Hh0 Hun0)
    as (order & Hlen & Hp & Hh1 & _ & Ht & Hwait).
  exists order. split; [exact Hlen|].
  intros times Hl Hd Hstart Htimes. cbv zeta.
  assert (Hcw : closeWait env (zip times order) w
                = (false, worldOf (run env order (closingWorld w)),
                   traceOf (run env order (closingWorld w)))).
  { unfold closeWait. apply Hwait; [exact Hl|lia|lia|].
    eapply Forall_impl; [exact Htimes|]. intros t [_ H]. exact H. }
  unfold closedIffClosing in Hinv. rewrite Hc in Hinv.
  rewrite (Close_open env (zip times order) w Hc (eq_sym Hinv)).
  cbv zeta. rewrite Hcw. unfold valueOf, worldOf, traceOf. cbn [fst snd].
  destruct (healthy_empty_pool _ Hh1 Hp) as [Hz Hcalls].
  split; [destruct (drainResult env); reflexivity|].
  split; [exact Hp|]. split; [exact Hz|]. split; [exact Hcalls|].
  simpl. rewrite count_occ_app.
  assert (Hno : count_occ event_eq_dec
                  (run env order (closingWorld w)).2 EvDrain = 0%nat).
  { apply count_occ_not_In. apply byGoroutine_not_Drain. exact Ht. }
  rewrite Hno. reflexivity.
Qed.

Lemma subscribedTwice_healthy : healthy subscribedTwice.
Proof.
  unfold subscribedTwice.
  assert (H0 : healthy (newWorld (subscriberOf twoWorkers)))
    by (apply consistent_new; reflexivity).
  assert (Hstep : ∀ ctx topic w,
            healthy w →
            (valueOf (Subscribe okEnv ctx topic w)).2 = None →
            healthy (worldOf (Subscribe okEnv ctx topic w))).
  { intros ctx topic w Hh Hnone.
    destruct (healthy_step w _ Hh (step_Subscribe w okEnv ctx topic))
      as [H|(env & ctx' & topic' & Heq & Hfail)]; [exact H|].
    exfalso.
    pose proof (Subscribe_surplus okEnv ctx topic w) as [_ H1].
    pose proof (Subscribe_surplus env ctx' topic' w) as [_ H2].
    cbv zeta in H1, H2. rewrite Hnone in H1. rewrite <- Heq in H2.
    destruct ((valueOf (Subscribe env ctx' topic' w)).2); [lia|].
    apply Hfail. reflexivity. }
  apply Hstep; [apply Hstep; [exact H0|]|].
  - vm_compute. reflexivity.
  - vm_compute. reflexivity.
Qed.

Lemma Close_can_complete_witness :
  ∃ order,
    length order = length (pool subscribedTwice) ∧
    valueOf (Close okEnv
               (zip [Second; Second; Second * 2; Second * 2; Second * 3;
                     Second * 3] order) subscribedTwice) = Ok None.
Proof.
  assert (Hc : closed (subscriber subscribedTwice) = false)
    by (vm_compute; reflexivity).
  assert (Hinv : closedIffClosing subscribedTwice)
    by (vm_compute; reflexivity).
  destruct (Close_can_complete okEnv subscribedTwice subscribedTwice_healthy
              Hc Hinv) as (order & Hlen & H).
  exists order. split; [exact Hlen|].
  apply H.
  - rewrite Hlen. vm_compute. reflexivity.
  - vm_compute. reflexivity.
  - vm_compute. reflexivity.
  - repeat constructor; vm_compute; first [reflexivity|discriminate].
Defined.

Lemma allCancelled_unblocked (w : World) : allCancelled w → allUnblocked w.
Proof.
  unfold allCancelled, allUnblocked. intros H.
  eapply Forall_impl; [exact H|]. intros [call sub ctx|call] Hg; simpl;
    [|reflexivity].
  rewrite bool_decide_eq_true_2 by exact Hg. apply orb_true_r.
Qed.

(** X15: cancellation shuts subscriptions down without [Close].  With no
    failed [Subscribe] behind it, once the contexts of all the monitors in
    the pool are cancelled there are turns, one for each goroutine, after
    which every worker has been unsubscribed and has left the pool, every
    output channel is closed and the wait groups are at zero, while the
    subscriber is as open or closed as it was and the connection has not
    been drained. *)
Theorem cancellation_shuts_down (env : Env) (w : World) :
  healthy w → allCancelled w →
  ∃ sched,
    length sched = length (pool w) ∧
    let r := run env sched w in
    pool (worldOf r) = [] ∧
    outputsWg (subscriber (worldOf r)) = 0 ∧
    (∀ k c, calls (worldOf r) !! k = Some c →
            outputClosed c = true ∧ outputWg c = 0) ∧
    sameSubscriber w (worldOf r) ∧
    ¬ In EvDrain (traceOf r) ∧
    ¬ In (EvCloseChan ChClosing) (traceOf r).
Proof.
  intros Hh Hcan.
  destruct (drain_pool env (length (pool w)) w eq_refl Hh
              (allCancelled_unblocked w Hcan))
    as (sched & Hlen & Hp & Hh1 & Hsame & Ht & _).
  exists sched. split; [exact Hlen|]. cbv zeta.
  destruct (healthy_empty_pool _ Hh1 Hp) as [Hz Hcalls].
  split; [exact Hp|]. split; [exact Hz|]. split; [exact Hcalls|].
  split; [exact Hsame|]. split; [apply byGoroutine_not_Drain; exact Ht|].
  intros Hin. pose proof (byGoroutine_no_closing _ Ht) as Hcount.
  apply (count_occ_not_In event_eq_dec) in Hcount. contradiction.
Qed.

Lemma cancelled_healthy : healthy (cancel 7 subscribedWorld).
Proof.
  assert (H0 : healthy (newWorld (subscriberOf oneWorker)))
    by (apply consistent_new; reflexivity).
  destruct (healthy_step _ _ H0 (step_Subscribe _ okEnv 7 "orders"))
    as [H|(env & ctx & topic & Heq & Hfail)]; [exact H|].
  exfalso.
  pose proof (Subscribe_surplus env ctx topic
                (newWorld (subscriberOf oneWorker))) as [_ H2].
  cbv zeta in H2. rewrite <- Heq in H2.
  destruct ((valueOf (Subscribe env ctx topic _)).2);
    [|apply Hfail; reflexivity].
  destruct H2 as [_ H2]. vm_compute in H2. discriminate.
Qed.

Lemma cancelled_allCancelled : allCancelled (cancel 7 subscribedWorld).
Proof.
  unfold allCancelled.
  change (pool (cancel 7 subscribedWorld)) with [monitor 0 0 7; finisher 0].
  repeat constructor.
Qed.

Lemma cancellation_shuts_down_witness :
  ∃ sched,
    length sched = length (pool (cancel 7 subscribedWorld)) ∧
    pool (worldOf (run okEnv sched (cancel 7 subscribedWorld))) = [].
Proof.
  destruct (cancellation_shuts_down okEnv _ cancelled_healthy
              cancelled_allCancelled) as (sched & Hlen & Hp & _).
  exists sched. split; [exact Hlen|exact Hp].
Defined.

(** ** Subscribe, refused *)

(** The loop, when the [j]-th request from its start is the first that the
    broker refuses. *)
Lemma startSubscribers_refused (env : Env) (ctx : nat) (topic : string)
    (call n j : nat) (w : World) (err : error) :
  (j < n)%nat →
  (∀ i, (i < j)%nat → subscribeResult env (requests w + i) = None) →
  subscribeResult env (requests w + j) = Some err →
  let r := startSubscribers env ctx topic call n w in
  valueOf r = Some (ErrWrap err "cannot subscribe") ∧
  traceOf r
    = concat (replicate (S j) (startEvents (config (subscriber w)) topic)) ∧
  pool (worldOf r) = pool w ++ monitorsFrom call (requests w) ctx j ∧
  requests (worldOf r) = (requests w + S j)%nat.
Proof.
  revert n w. induction j as [|j IH]; intros n w Hlt Hok Herr;
    (destruct n as [|n]; [lia|]); cbv zeta; rewrite startSubscribers_S.
  - rewrite Nat.add_0_r in Herr. rewrite Herr.
    unfold valueOf, traceOf, worldOf. cbn [fst snd].
    split; [reflexivity|]. split; [reflexivity|].
    split; [|simpl; lia].
    unfold monitorsFrom. simpl. rewrite app_nil_r. reflexivity.
  - pose proof (Hok 0%nat ltac:(lia)) as H0. rewrite Nat.add_0_r in H0.
    rewrite H0. cbv zeta.
    set (w1 := setPool _ _).
    assert (Hreq : requests w1 = S (requests w)) by reflexivity.
    destruct (IH n w1) as (Hv & Ht & Hp & Hr).
    + lia.
    + intros i Hi. rewrite Hreq.
      replace (S (requests w) + i)%nat with (requests w + S i)%nat by lia.
      apply Hok. lia.
    + rewrite Hreq.
      replace (S (requests w) + j)%nat with (requests w + S j)%nat by lia.
      exact Herr.
    + unfold valueOf, traceOf, worldOf in *. cbn [fst snd].
      split; [exact Hv|]. split; [|split].
      * rewrite Ht. reflexivity.
      * rewrite Hp, monitorsFrom_S. subst w1. cbn [pool setPool nextRequest].
        rewrite <- app_assoc. rewrite Hreq. reflexivity.
      * rewrite Hr, Hreq. lia.
Qed.

(** X16: [Subscribe] stops at the first subscription that the broker
    refuses: it returns no channel and that error, wrapped as "cannot
    subscribe"; it has sent the requests up to the refused one and none
    after it; the workers subscribed before it are left with their
    monitors in the pool, and no finisher is started. *)
Theorem Subscribe_refused (env : Env) (ctx : nat) (topic : string)
    (w : World) (j : nat) (err : error) :
  (Z.of_nat j < SSC.SubscribersCount (config (subscriber w))) →
  (∀ i, (i < j)%nat → subscribeResult env (requests w + i) = None) →
  subscribeResult env (requests w + j) = Some err →
  let r := Subscribe env ctx topic w in
  valueOf r = (None, Some (ErrWrap err "cannot subscribe")) ∧
  traceOf r
    = concat (replicate (S j) (startEvents (config (subscriber w)) topic)) ∧
  pool (worldOf r)
    = pool w ++ monitorsFrom (length (calls w)) (requests w) ctx j ∧
  requests (worldOf r) = (requests w + S j)%nat.
Proof.
  intros Hlt Hok Herr. cbv zeta.
  pose proof (startSubscribers_refused env ctx topic (length (calls w))
                (Z.to_nat (SSC.SubscribersCount (config (subscriber w)))) j
                (setSubscriber (outputsWgAdd 1)
                   (setCalls (λ cs, cs ++ [{| outputWg := 0;
                                              outputClosed := false |}]) w))
                err ltac:(lia) Hok Herr) as (Hv & Ht & Hp & Hr).
  unfold Subscribe. unfold_M.
  destruct (startSubscribers env ctx topic _ _ _) as [[v w1] t1].
  simpl in Hv, Ht, Hp, Hr. subst v. simpl.
  rewrite app_nil_r. auto.
Qed.

Lemma Subscribe_refused_witness :
  valueOf halfSubscribed
    = (None, Some (ErrWrap (ErrNats "nats: timeout") "cannot subscribe")) ∧
  pool (worldOf halfSubscribed) = [monitor 0 0 7].
Proof.
  destruct (Subscribe_refused secondFailsEnv 7 "orders"
              (newWorld (subscriberOf twoWorkers)) 1
              (ErrNats "nats: timeout")) as (Hv & _ & Hp & _).
  - vm_compute. reflexivity.
  - intros [|i] Hi; [reflexivity|lia].
  - reflexivity.
  - split; [exact Hv|exact Hp].
Defined.

(** ** Every worker is unsubscribed *)

Lemma turn_keeps_or_unsubscribes (env : Env) (i : nat) (w : World)
    (k s x : nat) :
  monitor k s x ∈ pool w →
  monitor k s x ∈ pool (worldOf (runGoroutine env i w)) ∨
  In (EvUnsubscribe s) (traceOf (runGoroutine env i w)).
Proof.
  intros Hin.
  destruct (runGoroutine_cases env i w)
    as [->|[(call & sub & ctx & Hg & _ & -> & ->)
           |(call & c & Hg & _ & _ & -> & ->)]].
  - left. exact Hin.
  - destruct (decide (monitor k s x = monitor call sub ctx)) as [Heq|Hne].
    + right. injection Heq as _ <- _. left. reflexivity.
    + left. cbn [setPool pool].
      apply (elem_of_delete_other _ i _ (monitor call sub ctx));
        [exact Hin|exact Hg|exact Hne].
  - left. cbn [setPool pool].
    apply (elem_of_delete_other _ i _ (finisher call));
      [exact Hin|exact Hg|discriminate].
Qed.

Lemma run_keeps_or_unsubscribes (env : Env) (sched : list nat) (w : World)
    (k s x : nat) :
  monitor k s x ∈ pool w →
  monitor k s x ∈ pool (worldOf (run env sched w)) ∨
  In (EvUnsubscribe s) (traceOf (run env sched w)).
Proof.
  revert w. induction sched as [|i rest IH]; intros w Hin; [left; exact Hin|].
  cbn [run]. unfold bind.
  destruct (turn_keeps_or_unsubscribes env i w k s x Hin) as [H1|H1];
    unfold worldOf, traceOf in *;
    destruct (runGoroutine env i w) as [[[] w1] t1]; simpl in H1.
  - destruct (IH w1 H1) as [H2|H2];
      destruct (run env rest w1) as [[[] w2] t2]; simpl in *.
    + left. exact H2.
    + right. apply in_or_app. right. exact H2.
  - destruct (run env rest w1) as [[[] w2] t2]. simpl.
    right. apply in_or_app. left. exact H1.
Qed.

(** With a goroutine in the pool and all of them unblocked, one of them
    runs at its turn, failed calls or not. *)
Lemma consistent_progress (env : Env) (w : World) :
  consistent w → allUnblocked w → pool w ≠ [] →
  ∃ i, S (length (pool (worldOf (runGoroutine env i w))))
       = length (pool w).
Proof.
  intros (Hr & Hok & _) Hun Hne.
  destruct (monitor_or_finishers (pool w))
    as [(i & call & sub & ctx & Hi)|Hall].
  - exists i. unfold allUnblocked in Hun. rewrite Forall_lookup in Hun.
    rewrite (runGoroutine_monitor_runs env i w call sub ctx Hi (Hun _ _ Hi)).
    cbn [setPool pool]. change (pool (onCall call _ w)) with (pool w).
    rewrite length_delete by (rewrite Hi; eauto).
    apply lookup_lt_Some in Hi. lia.
  - destruct (pool_head w Hne) as [g H0].
    rewrite Forall_lookup in Hall. pose proof (Hall _ _ H0) as Hg.
    destruct g as [|call]; [discriminate|].
    destruct (inRange_lookup w 0 _ Hr H0) as [c Hc]. simpl in Hc.
    assert (Hz : outputWg c = 0).
    { destruct (Hok call c Hc) as (st & Hal & Hst).
      assert (Hm : count (isMonitorOf call) (pool w) = 0).
      { apply isFinisher_not_monitorOf. apply Forall_lookup. exact Hall. }
      pose proof (count_delete (isFinisherOf call) _ _ _ H0) as Hf.
      simpl in Hf. rewrite Nat.eqb_refl in Hf.
      pose proof (count_nonneg (isFinisherOf call) (delete 0%nat (pool w))).
      destruct st; simpl in Hst; lia. }
    exists 0%nat.
    rewrite (runGoroutine_finisher_runs env 0 w call c H0 Hc Hz).
    cbn [setPool pool setSubscriber]. change (pool (onCall call _ w)) with (pool w).
    rewrite length_delete by (rewrite H0; eauto).
    apply lookup_lt_Some in H0. lia.
Qed.

Lemma empty_the_pool (env : Env) (n : nat) (w : World) :
  length (pool w) = n → consistent w → allUnblocked w →
  ∃ sched, length sched = n ∧ pool (worldOf (run env sched w)) = [].
Proof.
  revert w. induction n as [|n IH]; intros w Hlen Hcons Hun.
  - exists []. split; [reflexivity|]. apply nil_length_inv. exact Hlen.
  - assert (Hne : pool w ≠ []) by (intros H; rewrite H in Hlen; discriminate).
    destruct (consistent_progress env w Hcons Hun Hne) as (i & Hlen1).
    destruct (IH (worldOf (runGoroutine env i w))) as (sched & Hsl & Hp).
    + lia.
    + eapply consistent_step; [exact Hcons|constructor].
    + apply runGoroutine_allUnblocked. exact Hun.
    + exists (i :: sched). split; [simpl; lia|].
      cbn [run]. unfold bind, worldOf in *.
      destruct (runGoroutine env i w) as [[[] w1] t1]. simpl in *.
      destruct (run env sched w1) as [[[] w2] t2]. exact Hp.
Qed.

(** X17: every worker is unsubscribed in the end, those of a [Subscribe]
    that failed half way included.  In every world that a constructed
    subscriber can get to, once the subscriber is closing or the contexts
    of the monitors are cancelled, there are turns, one for each
    goroutine, after which the pool is empty and [Unsubscribe] has been
    called on the subscription of every monitor that was in it. *)
Theorem workers_are_unsubscribed (env : Env) (w : World) :
  reachable w → allUnblocked w →
  ∃ sched,
    length sched = length (pool w) ∧
    pool (worldOf (run env sched w)) = [] ∧
    ∀ k s x, monitor k s x ∈ pool w →
             In (EvUnsubscribe s) (traceOf (run env sched w)).
Proof.
  intros Hcons%reachable_is_consistent Hun.
  destruct (empty_the_pool env (length (pool w)) w eq_refl Hcons Hun)
    as (sched & Hlen & Hp).
  exists sched. split; [exact Hlen|]. split; [exact Hp|].
  intros k s x Hin.
  destruct (run_keeps_or_unsubscribes env sched w k s x Hin) as [H|H];
    [|exact H].
  rewrite Hp in H. apply not_elem_of_nil in H. contradiction.
Qed.

Lemma workers_are_unsubscribed_witness :
  ∃ sched,
    length sched = 1%nat ∧
    pool (worldOf (run secondFailsEnv sched
                     (cancel 7 (worldOf halfSubscribed)))) = [].
Proof.
  destruct (workers_are_unsubscribed secondFailsEnv
              (cancel 7 (worldOf halfSubscribed)))
    as (sched & Hlen & Hp & _).
  - exists okEnv, twoWorkers, (subscriberOf twoWorkers).
    split; [reflexivity|].
    eapply rtc_l; [apply (step_Subscribe _ secondFailsEnv 7 "orders")|].
    apply rtc_once. apply step_cancel.
  - unfold allUnblocked.
    change (pool (cancel 7 (worldOf halfSubscribed))) with [monitor 0 0 7].
    repeat constructor.
  - exists sched. split; [exact Hlen|exact Hp].
Defined.

(** ** Subscribing on a closed subscriber *)

Lemma Subscribe_run (env : Env) (ctx : nat) (topic : string) (w : World) :
  Subscribe env ctx topic w
    = let r := startSubscribers env ctx topic (length (calls w))
                 (Z.to_nat (SSC.SubscribersCount (config (subscriber w))))
                 (setSubscriber (outputsWgAdd 1)
                    (setCalls (λ cs, cs ++ [{| outputWg := 0;
                                               outputClosed := false |}]) w)) in
      match valueOf r with
      | Some err => ((None, Some err), worldOf r, traceOf r)
      | None =>
          ((Some (length (calls w)), None),
           setPool (λ p, p ++ [finisher (length (calls w))]) (worldOf r),
           traceOf r)
      end.
Proof.
  unfold Subscribe. unfold_M. cbv zeta.
  destruct (startSubscribers env ctx topic _ _ _) as [[[err|] w1] t1];
    simpl; rewrite app_nil_r; reflexivity.
Qed.

Section ObliviousSubscribe.
Variable T : World -> World.
Hypothesis T_config : ∀ w, config (subscriber (T w)) = config (subscriber w).
Hypothesis T_requests : ∀ w, requests (T w) = requests w.
Hypothesis T_calls : ∀ w, calls (T w) = calls w.
Hypothesis T_nextRequest : ∀ w, nextRequest (T w) = T (nextRequest w).
Hypothesis T_onCall : ∀ k f w, onCall k f (T w) = T (onCall k f w).
Hypothesis T_setPool : ∀ f w, setPool f (T w) = T (setPool f w).
Hypothesis T_setCalls : ∀ f w, setCalls f (T w) = T (setCalls f w).
Hypothesis T_outputsWgAdd :
  ∀ n w, setSubscriber (outputsWgAdd n) (T w)
         = T (setSubscriber (outputsWgAdd n) w).

Lemma subscribe_oblivious (env : Env) (topic : string) :
  oblivious T (subscribe env topic).
Proof.
  intros w. rewrite !subscribe_run, T_config, T_requests, T_nextRequest.
  reflexivity.
Qed.

Lemma startSubscribers_oblivious (env : Env) (ctx : nat) (topic : string)
    (call n : nat) :
  oblivious T (startSubscribers env ctx topic call n).
Proof.
  induction n as [|n IH]; intros w; [reflexivity|].
  rewrite !startSubscribers_S, T_config, T_requests.
  rewrite T_onCall, T_nextRequest.
  destruct (subscribeResult env (requests w)); [reflexivity|].
  cbv zeta. rewrite T_setPool, IH. reflexivity.
Qed.

Lemma Subscribe_oblivious (env : Env) (ctx : nat) (topic : string) :
  oblivious T (Subscribe env ctx topic).
Proof.
  intros w. rewrite !Subscribe_run. cbv zeta.
  rewrite T_calls, T_config, T_setCalls, T_outputsWgAdd.
  rewrite !startSubscribers_oblivious.
  destruct (startSubscribers env ctx topic _ _ _) as [[[err|] w1] t1];
    unfold onWorld, valueOf, worldOf, traceOf; cbn [fst snd].
  - reflexivity.
  - rewrite T_setPool. reflexivity.
Qed.

Lemma SubscribeInitialize_oblivious (env : Env)
    (initStream : string -> list event * option error)
    (topic : string) (delivered : list Msg) (early : nat) :
  oblivious T (SubscribeInitialize env initStream topic delivered early).
Proof.
  intros w. rewrite !SubscribeInitialize_run, T_config, T_requests.
  rewrite T_nextRequest. cbv zeta.
  rewrite (nakDelivered_trace_any env delivered (T w) w).
  destruct (initStream topic).2; [reflexivity|].
  destruct (subscribeResult env (requests w)); reflexivity.
Qed.
End ObliviousSubscribe.

(** X18: [Subscribe] and [SubscribeInitialize] do not look at the closed
    flag or at the closing channel: on a closed subscriber they send the
    same requests to the broker, start the same goroutines and return the
    same channel and error as on an open one. *)
Theorem Subscribe_ignores_closed (env : Env) (isClosed isClosing : bool)
    (w : World) :
  (∀ ctx topic,
     Subscribe env ctx topic (withFlags isClosed isClosing w)
       = onWorld (withFlags isClosed isClosing) (Subscribe env ctx topic w)) ∧
  (∀ initStream topic delivered early,
     SubscribeInitialize env initStream topic delivered early
       (withFlags isClosed isClosing w)
       = onWorld (withFlags isClosed isClosing)
           (SubscribeInitialize env initStream topic delivered early w)).
Proof.
  split.
  - intros ctx topic.
    apply (Subscribe_oblivious (withFlags isClosed isClosing));
      reflexivity.
  - intros initStream topic delivered early.
    apply (SubscribeInitialize_oblivious (withFlags isClosed isClosing));
      reflexivity.
Qed.
